(** * jscpd-ai: the AI reporter, its progressive writer, and the detection core

    A shallow embedding of
    - [packages/ai-reporter/src/progressive-writer.ts] (module [ProgressiveWriter]),
    - [packages/ai-reporter/src/index.ts] (module [AIReporter]),
    - [packages/finder/src/interfaces/reporter.interface.ts] (class [IReporter]),
    and of the duplication engine as the specification describes it (module
    [Engine]; its TypeScript sources are not part of the audited file set).

    JavaScript objects that the code mutates are kept in an explicit heap,
    synchronous blocks are functions in a state-and-exception monad, and every
    [await] is a guard of a step of the event loop. *)

From Stdlib Require Import ZArith QArith String List Bool Lia.
From stdpp Require Import gmap strings list fin_maps.

Local Open Scope Z_scope.

(** ** Exceptions and the state-and-exception monad *)

(** What a JavaScript [throw] carries, as far as the code distinguishes it
    (it never does: every handler logs and either swallows or rethrows). *)
Inductive exn : Type :=
| IOError
| SyntaxError
| TypeError
| CallbackError.

Inductive result (A : Type) : Type :=
| Ok (a : A)
| Throw (e : exn).
Arguments Ok {A} a.
Arguments Throw {A} e.

Definition is_ok {A : Type} (r : result A) : bool :=
  match r with Ok _ => true | Throw _ => false end.

(** A synchronous block of code: it runs to completion on a state [S] and
    either returns or throws; the state it leaves behind is kept in both cases,
    as a [catch] handler sees the mutations done before the [throw]. *)
Definition M (S A : Type) : Type := S -> result A * S.

Definition ret {S A : Type} (a : A) : M S A := fun s => (Ok a, s).

Definition throw {S A : Type} (e : exn) : M S A := fun s => (Throw e, s).

Definition bind {S A B : Type} (m : M S A) (k : A -> M S B) : M S B :=
  fun s => match m s with
           | (Ok a, s') => k a s'
           | (Throw e, s') => (Throw e, s')
           end.

(** [try { m } catch (e) { h e }] *)
Definition try_catch {S A : Type} (m : M S A) (h : exn -> M S A) : M S A :=
  fun s => match m s with
           | (Ok a, s') => (Ok a, s')
           | (Throw e, s') => h e s'
           end.

Definition get {S : Type} : M S S := fun s => (Ok s, s).

Definition modify {S : Type} (f : S -> S) : M S unit := fun s => (Ok tt, f s).

Declare Scope js_scope.
Delimit Scope js_scope with js.
Notation "'let!' x ':=' m 'in' k" := (bind m (fun x => k))
  (at level 10, x name, m at level 100, k at level 200) : js_scope.
Notation "m ;;; k" := (bind m (fun _ => k))
  (at level 100, k at level 200, right associativity) : js_scope.

(** ** The file system of [fs-extra], as far as the reporter uses it *)

Module Node.

(** [faults] is the environment's oracle for operating-system failures: every
    call that can fail takes the next entry, and [true] makes it throw. *)
Record FS : Type := mkFS {
  files : gmap string string;
  dirs : gset string;
  faults : list bool
}.

Definition next_fault (fs : FS) : bool * FS :=
  match faults fs with
  | [] => (false, fs)
  | b :: bs => (b, mkFS (files fs) (dirs fs) bs)
  end.

Definition existsSync (p : string) (fs : FS) : bool :=
  bool_decide (is_Some (files fs !! p)) || bool_decide (p ∈ dirs fs).

Definition readFileSync (p : string) : M FS string :=
  fun fs =>
    let '(bad, fs1) := next_fault fs in
    if bad then (Throw IOError, fs1)
    else match files fs1 !! p with
         | Some c => (Ok c, fs1)
         | None => (Throw IOError, fs1)
         end.

(** [writeFileSync] creates the file, not the directory it lies in: without
    that directory the call fails ([ENOENT]), as it does on a path that is a
    directory ([EISDIR]). [dirname] is Node's [path.dirname]. *)
Definition writeFileSync (dirname : string -> string) (p data : string) : M FS unit :=
  fun fs =>
    let '(bad, fs1) := next_fault fs in
    if bad || bool_decide (p ∈ dirs fs1) || negb (bool_decide (dirname p ∈ dirs fs1))
    then (Throw IOError, fs1)
    else (Ok tt, mkFS (<[p := data]> (files fs1)) (dirs fs1) (faults fs1)).

Definition ensureDirSync (d : string) : M FS unit :=
  fun fs =>
    let '(bad, fs1) := next_fault fs in
    if bad || bool_decide (is_Some (files fs1 !! d)) then (Throw IOError, fs1)
    else (Ok tt, mkFS (files fs1) ({[ d ]} ∪ dirs fs1) (faults fs1)).

Lemma readFileSync_ok p fs c :
  faults fs = [] → files fs !! p = Some c → readFileSync p fs = (Ok c, fs).
Proof.
  intros Hf Hc. unfold readFileSync, next_fault. rewrite Hf. by rewrite Hc.
Qed.

Lemma writeFileSync_ok dirname p data fs :
  faults fs = [] → p ∉ dirs fs → dirname p ∈ dirs fs →
  writeFileSync dirname p data fs =
    (Ok tt, mkFS (<[p := data]> (files fs)) (dirs fs) []).
Proof.
  intros Hf Hd Hp. unfold writeFileSync, next_fault. rewrite Hf.
  rewrite bool_decide_false by done. rewrite bool_decide_true by done.
  cbn. by rewrite Hf.
Qed.

Lemma writeFileSync_ENOENT dirname p data fs :
  dirname p ∉ dirs fs → (writeFileSync dirname p data fs).1 = Throw IOError.
Proof.
  intros Hp. unfold writeFileSync, next_fault.
  destruct (faults fs) as [|[] bs]; cbn; [|done|];
    rewrite (bool_decide_false (dirname p ∈ _)) by done; by rewrite orb_true_r.
Qed.

Lemma ensureDirSync_ok d fs :
  faults fs = [] → files fs !! d = None →
  ensureDirSync d fs = (Ok tt, mkFS (files fs) ({[ d ]} ∪ dirs fs) []).
Proof.
  intros Hf Hd. unfold ensureDirSync, next_fault. rewrite Hf.
  rewrite bool_decide_false by (rewrite Hd; by intros [? ?]). cbn. by rewrite Hf.
Qed.

(** What a call can do to the file system, whatever the oracle says. *)
Lemma readFileSync_inv p fs r fs' :
  readFileSync p fs = (r, fs') →
  files fs' = files fs ∧ dirs fs' = dirs fs ∧
  match r with
  | Ok c => files fs !! p = Some c
  | Throw e => e = IOError
  end.
Proof.
  unfold readFileSync, next_fault.
  destruct (faults fs) as [|[] bs]; cbn.
  - destruct (files fs !! p) eqn:E; by intros [= <- <-].
  - by intros [= <- <-].
  - destruct (files fs !! p) eqn:E; by intros [= <- <-].
Qed.

Lemma writeFileSync_inv dirname p data fs r fs' :
  writeFileSync dirname p data fs = (r, fs') →
  dirs fs' = dirs fs ∧
  match r with
  | Ok _ => files fs' = <[p := data]> (files fs)
  | Throw e => e = IOError ∧ files fs' = files fs
  end.
Proof.
  unfold writeFileSync, next_fault.
  destruct (faults fs) as [|[] bs]; cbn.
  - destruct (_ || _); by intros [= <- <-].
  - by intros [= <- <-].
  - destruct (_ || _); by intros [= <- <-].
Qed.

Lemma ensureDirSync_inv d fs r fs' :
  ensureDirSync d fs = (r, fs') →
  files fs' = files fs ∧
  match r with
  | Ok _ => dirs fs' = {[ d ]} ∪ dirs fs
  | Throw e => e = IOError ∧ dirs fs' = dirs fs
  end.
Proof.
  unfold ensureDirSync, next_fault.
  destruct (faults fs) as [|[] bs]; cbn.
  - destruct (bool_decide _); by intros [= <- <-].
  - by intros [= <- <-].
  - destruct (bool_decide _); by intros [= <- <-].
Qed.

(** With no failure pending none appears. *)
Lemma readFileSync_faults p fs :
  faults fs = [] → faults (readFileSync p fs).2 = [].
Proof.
  intros Hf. unfold readFileSync, next_fault. rewrite Hf.
  by destruct (files fs !! p).
Qed.

Lemma writeFileSync_faults dirname p data fs :
  faults fs = [] → faults (writeFileSync dirname p data fs).2 = [].
Proof.
  intros Hf. unfold writeFileSync, next_fault. rewrite Hf. cbn.
  by destruct (_ || _).
Qed.

Lemma ensureDirSync_faults d fs :
  faults fs = [] → faults (ensureDirSync d fs).2 = [].
Proof.
  intros Hf. unfold ensureDirSync, next_fault. rewrite Hf. cbn.
  by destruct (bool_decide _).
Qed.

End Node.

(** ** progressive-writer.ts *)

Module ProgressiveWriter.

Section Writer.

(** The report type and the JSON codec are those of the runtime; [dirname] is
    Node's [path.dirname]. *)
Variable AIReport : Type.
Variable stringify : AIReport -> string.
Variable parse : string -> option AIReport.
Variable dirname : string -> string.

(** [(report: AIReport) => void]: the callback mutates the report it is given,
    or throws. *)
Definition updater : Type := AIReport -> result AIReport.

(** A callback registered with [setTimeout] by [updateReport]; all of them have
    the shape [() => { this.performUpdate(updater); this.pendingUpdate = null }]. *)
Record timer : Type := mkTimer {
  tm_id : nat;
  tm_due : Z;
  tm_updater : updater
}.

Record state : Type := mkState {
  outputPath : string;
  updateInterval : Z;
  lastUpdate : Z;
  pendingUpdate : option nat;
  (* the runtime *)
  now : Z;
  fs : Node.FS;
  timers : list timer;
  fresh : nat
}.

Definition set_lastUpdate (v : Z) (s : state) : state :=
  mkState (outputPath s) (updateInterval s) v (pendingUpdate s)
          (now s) (fs s) (timers s) (fresh s).

Definition set_pendingUpdate (v : option nat) (s : state) : state :=
  mkState (outputPath s) (updateInterval s) (lastUpdate s) v
          (now s) (fs s) (timers s) (fresh s).

Definition set_fs (v : Node.FS) (s : state) : state :=
  mkState (outputPath s) (updateInterval s) (lastUpdate s) (pendingUpdate s)
          (now s) v (timers s) (fresh s).

Definition set_timers (v : list timer) (n : nat) (s : state) : state :=
  mkState (outputPath s) (updateInterval s) (lastUpdate s) (pendingUpdate s)
          (now s) (fs s) v n.

Definition set_now (v : Z) (s : state) : state :=
  mkState (outputPath s) (updateInterval s) (lastUpdate s) (pendingUpdate s)
          v (fs s) (timers s) (fresh s).

(** Run a file-system call on the [fs] component. *)
Definition io {A : Type} (m : M Node.FS A) : M state A :=
  fun s => let '(r, fs') := m (fs s) in (r, set_fs fs' s).

(** [options.updateInterval || 1000] *)
Definition constructor (path : string) (interval : option Z) (t0 : Z) (fs0 : Node.FS) : state :=
  mkState path
          (match interval with
           | Some n => if n =? 0 then 1000 else n
           | None => 1000
           end)
          0 None t0 fs0 [] 0%nat.

Definition clearTimeout (id : nat) (s : state) : state :=
  set_timers (filter (fun t => tm_id t ≠ id) (timers s)) (fresh s) s.

(** Node's [setTimeout]: a timer set at time [t] with delay [d] is due at
    [t + d], but a delay above [TIMEOUT_MAX] (2^31 - 1 ms) is set to 1 ms.
    The delay [updateReport] passes is never negative; Node treats one of 0
    like one of 1, and on the millisecond clock of [Date.now] either can be
    due at once. *)
Definition TIMEOUT_MAX : Z := 2147483647.

Definition timer_delay (delay : Z) : Z :=
  if delay <=? TIMEOUT_MAX then delay else 1.

Definition setTimeout (u : updater) (delay : Z) (s : state) : nat * state :=
  (fresh s,
   set_timers (timers s ++ [mkTimer (fresh s) (now s + timer_delay delay) u])
              (S (fresh s)) s).

Local Open Scope js_scope.

Definition writeReportSync (report : AIReport) : M state unit :=
  try_catch
    (fun s =>
       (io (Node.ensureDirSync (dirname (outputPath s))) ;;;
        io (Node.writeFileSync dirname (outputPath s) (stringify report))) s)
    (fun e => throw e).

Definition writeInitial (report : AIReport) : M state unit :=
  writeReportSync report ;;;
  (fun s => (Ok tt, set_lastUpdate (now s) s)).

Definition updateReport (u : updater) : M state unit :=
  fun s =>
    let s1 := match pendingUpdate s with
              | Some id => clearTimeout id s
              | None => s
              end in
    let timeSinceLastUpdate := now s1 - lastUpdate s1 in
    let delay := Z.max 0 (updateInterval s1 - timeSinceLastUpdate) in
    let '(id, s2) := setTimeout u delay s1 in
    (Ok tt, set_pendingUpdate (Some id) s2).

Definition performUpdate (u : updater) : M state unit :=
  try_catch
    (fun s =>
       if negb (Node.existsSync (outputPath s) (fs s)) then (Ok tt, s)
       else
         (let! content := io (Node.readFileSync (outputPath s)) in
          match parse content with
          | None => throw SyntaxError
          | Some report =>
              match u report with
              | Throw e => throw e
              | Ok report' =>
                  writeReportSync report' ;;;
                  (fun s' => (Ok tt, set_lastUpdate (now s') s'))
              end
          end) s)
    (fun _ => ret tt).

Definition flush (ou : option updater) : M state unit :=
  fun s =>
    let s1 := match pendingUpdate s with
              | Some id => set_pendingUpdate None (clearTimeout id s)
              | None => s
              end in
    match ou with
    | Some u => performUpdate u s1
    | None => (Ok tt, s1)
    end.

(** The event loop runs a timer that is due: the callback is taken off the
    timer table and run. *)
Definition fire (id : nat) (s : state) : option (result unit * state) :=
  match List.find (fun t => Nat.eqb (tm_id t) id) (timers s) with
  | Some t =>
      if tm_due t <=? now s then
        Some ((performUpdate (tm_updater t) ;;;
               modify (set_pendingUpdate None)) (clearTimeout id s))
      else None
  | None => None
  end.

(** What can happen to a writer: calls of its public methods, the passing of
    time, and the firing of a due timer. *)
Inductive op : Type :=
| OpWriteInitial (report : AIReport)
| OpUpdateReport (u : updater)
| OpFlush (ou : option updater)
| OpTick (dt : Z)
| OpFire (id : nat).

Definition exec (o : op) (s : state) : option (result unit * state) :=
  match o with
  | OpWriteInitial r => Some (writeInitial r s)
  | OpUpdateReport u => Some (updateReport u s)
  | OpFlush ou => Some (flush ou s)
  | OpTick dt => if 0 <=? dt then Some (Ok tt, set_now (now s + dt) s) else None
  | OpFire id => fire id s
  end.

(** A run; an exception of a public method reaches the caller and the writer
    lives on with the state the method left. *)
Fixpoint run (os : list op) (s : state) : option state :=
  match os with
  | [] => Some s
  | o :: os' =>
      match exec o s with
      | Some (_, s') => run os' s'
      | None => None
      end
  end.

Definition file_exists (s : state) : bool :=
  Node.existsSync (outputPath s) (fs s).

Definition is_writeInitial (o : op) : bool :=
  match o with OpWriteInitial _ => true | _ => false end.

(** The timer table holds the one pending callback, if any. *)
Definition timers_ok (s : state) : Prop :=
  match pendingUpdate s with
  | None => timers s = []
  | Some id => ∃ t, timers s = [t] ∧ tm_id t = id
  end.

(** Calls and ticks that stay inside one debounce window: no timer fires. *)
Definition in_window (o : op) : bool :=
  match o with OpUpdateReport _ | OpTick _ => true | _ => false end.

Fixpoint last_update (os : list op) : option updater :=
  match os with
  | [] => None
  | o :: os' =>
      match last_update os' with
      | Some u => Some u
      | None => match o with OpUpdateReport u => Some u | _ => None end
      end
  end.

(** *** Frame lemmas: what the file-writing methods leave alone *)

(** [s'] differs from [s] at most in the file system and in [lastUpdate]. *)
Definition same_schedule (s s' : state) : Prop :=
  outputPath s' = outputPath s ∧ updateInterval s' = updateInterval s ∧
  pendingUpdate s' = pendingUpdate s ∧ now s' = now s ∧
  timers s' = timers s ∧ fresh s' = fresh s.

Lemma same_schedule_refl s : same_schedule s s.
Proof. by repeat split. Qed.

Lemma same_schedule_trans s1 s2 s3 :
  same_schedule s1 s2 → same_schedule s2 s3 → same_schedule s1 s3.
Proof. unfold same_schedule. intuition congruence. Qed.

Lemma io_same_schedule {A} (m : M Node.FS A) s r s' :
  io m s = (r, s') → same_schedule s s'.
Proof.
  unfold io. destruct (m (fs s)) as [r0 fs'] eqn:E. intros [= <- <-].
  by repeat split.
Qed.

Lemma writeReportSync_same_schedule report s r s' :
  writeReportSync report s = (r, s') → same_schedule s s'.
Proof.
  unfold writeReportSync, try_catch, bind, throw.
  destruct (io (Node.ensureDirSync _) s) as [[[]|e] s1] eqn:E1.
  - destruct (io (Node.writeFileSync _ _ _) s1) as [[[]|e] s2] eqn:E2;
      intros [= <- <-];
      exact (same_schedule_trans _ _ _ (io_same_schedule _ _ _ _ E1)
                                       (io_same_schedule _ _ _ _ E2)).
  - intros [= <- <-]. exact (io_same_schedule _ _ _ _ E1).
Qed.

Lemma set_lastUpdate_same_schedule v s : same_schedule s (set_lastUpdate v s).
Proof. by repeat split. Qed.

Lemma performUpdate_ok u s : (performUpdate u s).1 = Ok tt.
Proof.
  unfold performUpdate, try_catch, ret.
  match goal with |- context [match ?m with _ => _ end] => destruct m as [[[]|e] s1] end;
    reflexivity.
Qed.

Lemma performUpdate_missing u s :
  file_exists s = false → performUpdate u s = (Ok tt, s).
Proof.
  unfold file_exists, performUpdate, try_catch. intros ->. reflexivity.
Qed.

Lemma performUpdate_same_schedule u s r s' :
  performUpdate u s = (r, s') → same_schedule s s'.
Proof.
  unfold performUpdate, try_catch, ret.
  destruct (negb (Node.existsSync (outputPath s) (fs s))).
  { intros [= <- <-]. apply same_schedule_refl. }
  unfold bind, throw.
  destruct (io (Node.readFileSync (outputPath s)) s) as [[c|e] s1] eqn:E1.
  2:{ intros [= <- <-]. exact (io_same_schedule _ _ _ _ E1). }
  pose proof (io_same_schedule _ _ _ _ E1) as H1.
  destruct (parse c) as [report|]; [|by intros [= <- <-]].
  destruct (u report) as [report'|e]; [|by intros [= <- <-]].
  destruct (writeReportSync report' s1) as [[[]|e] s2] eqn:E2;
    pose proof (writeReportSync_same_schedule _ _ _ _ E2) as H2;
    intros [= <- <-].
  - exact (same_schedule_trans _ _ _ (same_schedule_trans _ _ _ H1 H2)
                                     (set_lastUpdate_same_schedule _ _)).
  - exact (same_schedule_trans _ _ _ H1 H2).
Qed.

(** *** The timer table *)

Lemma clearTimeout_pending s id :
  timers_ok s → pendingUpdate s = Some id → timers (clearTimeout id s) = [].
Proof.
  unfold timers_ok. intros Hok Hp. rewrite Hp in Hok.
  destruct Hok as (t & Ht & Hid). cbn. rewrite Ht. cbn.
  rewrite decide_False; [done|]. intros Hne. by apply Hne.
Qed.

Lemma updateReport_timers u s r s' :
  timers_ok s → updateReport u s = (r, s') →
  r = Ok tt ∧ fs s' = fs s ∧ outputPath s' = outputPath s ∧
  ∃ t, timers s' = [t] ∧ tm_updater t = u ∧ pendingUpdate s' = Some (tm_id t).
Proof.
  intros Hok. unfold updateReport, setTimeout.
  destruct (pendingUpdate s) as [id|] eqn:Hp.
  - rewrite (clearTimeout_pending s id Hok Hp).
    intros [= <- <-]. cbn. repeat split. eexists. by repeat split.
  - unfold timers_ok in Hok. rewrite Hp in Hok. rewrite Hok.
    intros [= <- <-]. cbn. repeat split. eexists. by repeat split.
Qed.

Lemma timers_ok_same_schedule s s' :
  same_schedule s s' → timers_ok s → timers_ok s'.
Proof.
  unfold same_schedule, timers_ok. intros (_ & _ & -> & _ & -> & _). done.
Qed.

Lemma fire_inv id s out :
  timers_ok s → fire id s = Some out →
  ∃ t, timers s = [t] ∧ tm_id t = id ∧ pendingUpdate s = Some id ∧
       tm_due t <= now s ∧
       out = ((performUpdate (tm_updater t)
                 (set_timers [] (fresh s) s)).1,
              set_pendingUpdate None
                (performUpdate (tm_updater t) (set_timers [] (fresh s) s)).2).
Proof.
  unfold fire, timers_ok. intros Hok.
  destruct (pendingUpdate s) as [id0|] eqn:Hp.
  2:{ rewrite Hok. done. }
  destruct Hok as (t & Ht & Hid). rewrite Ht. cbn.
  destruct (Nat.eqb_spec (tm_id t) id) as [Heq|]; [|done].
  destruct (Z.leb_spec (tm_due t) (now s)); [|done].
  intros [= <-]. exists t. repeat split; try congruence; try lia.
  unfold clearTimeout. rewrite Ht. cbn.
  rewrite decide_False; [|intros Hne; by apply Hne].
  unfold bind, modify.
  pose proof (performUpdate_ok (tm_updater t) (set_timers [] (fresh s) s)) as Hr.
  destruct (performUpdate _ _) as [[[]|e] s1]; cbn in *; [done|discriminate].
Qed.

Lemma exec_timers_ok o s r s' :
  timers_ok s → exec o s = Some (r, s') → timers_ok s'.
Proof.
  intros Hok. destruct o as [report|u|ou|dt|id]; cbn.
  - intros H%(inj Some). unfold writeInitial, bind in H.
    destruct (writeReportSync report s) as [[[]|e] s1] eqn:E;
      pose proof (writeReportSync_same_schedule _ _ _ _ E) as Hs;
      injection H as <- <-.
    + apply (timers_ok_same_schedule s); [|done].
      exact (same_schedule_trans _ _ _ Hs (set_lastUpdate_same_schedule _ _)).
    + by apply (timers_ok_same_schedule s).
  - intros H%(inj Some). destruct (updateReport_timers _ _ _ _ Hok H) as (_ & _ & _ & t & Ht & _ & Hp).
    unfold timers_ok. rewrite Hp. eauto.
  - intros H%(inj Some). unfold flush in H.
    assert (timers_ok (match pendingUpdate s with
                       | Some id => set_pendingUpdate None (clearTimeout id s)
                       | None => s end)) as Hok1.
    { destruct (pendingUpdate s) as [id|] eqn:Hp; [|done].
      unfold timers_ok. cbn -[clearTimeout].
      change (timers (clearTimeout id s) = []). by apply clearTimeout_pending. }
    destruct ou as [u|].
    + apply performUpdate_same_schedule in H. by apply (timers_ok_same_schedule _ _ H).
    + by injection H as <- <-.
  - destruct (0 <=? dt); [|done]. intros [= <- <-]. exact Hok.
  - intros H. destruct (fire_inv _ _ _ Hok H) as (t & Ht & _ & _ & _ & [= -> ->]).
    unfold timers_ok. cbn.
    destruct (performUpdate (tm_updater t) (set_timers [] (fresh s) s)) as [r1 s1] eqn:E.
    apply performUpdate_same_schedule in E. destruct E as (_ & _ & _ & _ & E & _).
    cbn in *. exact E.
Qed.

Lemma run_timers_ok os : ∀ s s', timers_ok s → run os s = Some s' → timers_ok s'.
Proof.
  induction os as [|o os IH]; cbn; intros s s' Hok.
  - by intros [= <-].
  - destruct (exec o s) as [[r s1]|] eqn:E; [|done].
    intros H. eapply IH; [|exact H]. eapply exec_timers_ok; eauto.
Qed.

Lemma constructor_timers_ok path interval t0 fs0 :
  timers_ok (constructor path interval t0 fs0).
Proof. reflexivity. Qed.

(** *** Nothing but [writeInitial] touches a missing report file *)

Lemma exec_missing o s r s' :
  timers_ok s → is_writeInitial o = false → file_exists s = false →
  exec o s = Some (r, s') →
  r = Ok tt ∧ fs s' = fs s ∧ outputPath s' = outputPath s.
Proof.
  intros Hok Hw Hmiss. destruct o as [report|u|ou|dt|id]; cbn; try done.
  - intros H%(inj Some). destruct (updateReport_timers _ _ _ _ Hok H) as (? & ? & ? & _). done.
  - intros H%(inj Some). unfold flush in H.
    set (s1 := match pendingUpdate s with
               | Some id => set_pendingUpdate None (clearTimeout id s)
               | None => s end) in *.
    assert (fs s1 = fs s ∧ outputPath s1 = outputPath s) as [Hf Hp].
    { subst s1. by destruct (pendingUpdate s). }
    destruct ou as [u|]; [|by injection H as <- <-].
    rewrite performUpdate_missing in H; [by injection H as <- <-|].
    unfold file_exists. by rewrite Hf, Hp.
  - destruct (0 <=? dt); [|done]. by intros [= <- <-].
  - intros H. destruct (fire_inv _ _ _ Hok H) as (t & _ & _ & _ & _ & [= -> ->]).
    rewrite performUpdate_missing; [done|exact Hmiss].
Qed.

Lemma run_missing os : ∀ s s',
  timers_ok s → forallb (fun o => negb (is_writeInitial o)) os = true →
  file_exists s = false → run os s = Some s' →
  fs s' = fs s ∧ outputPath s' = outputPath s.
Proof.
  induction os as [|o os IH]; cbn; intros s s' Hok Hall Hmiss.
  - by intros [= <-].
  - apply andb_prop in Hall as [Ho Hall]. apply negb_true_iff in Ho.
    destruct (exec o s) as [[r s1]|] eqn:E; [|done]. intros H.
    destruct (exec_missing _ _ _ _ Hok Ho Hmiss E) as (_ & Hf & Hp).
    destruct (IH s1 s') as [Hf' Hp']; try done.
    + eapply exec_timers_ok; eauto.
    + unfold file_exists. by rewrite Hf, Hp.
    + split; congruence.
Qed.

(** *** One debounce window *)

Lemma run_window os : ∀ s s',
  timers_ok s → forallb in_window os = true → run os s = Some s' →
  match last_update os with
  | Some u => ∃ t, timers s' = [t] ∧ tm_updater t = u ∧ pendingUpdate s' = Some (tm_id t)
  | None => timers s' = timers s ∧ pendingUpdate s' = pendingUpdate s
  end.
Proof.
  induction os as [|o os IH]; cbn; intros s s' Hok Hall.
  - by intros [= <-].
  - apply andb_prop in Hall as [Ho Hall].
    destruct (exec o s) as [[r s1]|] eqn:E; [|done]. intros H.
    pose proof (exec_timers_ok _ _ _ _ Hok E) as Hok1.
    specialize (IH s1 s' Hok1 Hall H).
    destruct (last_update os) as [u|]; [exact IH|].
    destruct IH as [Ht Hp]. destruct o as [report|u|ou|dt|id]; try done.
    + apply (inj Some) in E.
      destruct (updateReport_timers _ _ _ _ Hok E) as (_ & _ & _ & t & Ht1 & Hu & Hp1).
      exists t. repeat split; congruence.
    + cbn in E. destruct (0 <=? dt); [|done]. injection E as _ <-. done.
Qed.

(** *** What a timer does when it fires on an existing report *)

Lemma io_eq {A} (m : M Node.FS A) s r fs' :
  m (fs s) = (r, fs') → io m s = (r, set_fs fs' s).
Proof. unfold io. by intros ->. Qed.

Lemma writeReportSync_creates report s :
  Node.faults (fs s) = [] →
  outputPath s ∉ Node.dirs (fs s) →
  Node.files (fs s) !! dirname (outputPath s) = None →
  dirname (outputPath s) ≠ outputPath s →
  ∃ s', writeReportSync report s = (Ok tt, s') ∧ same_schedule s s' ∧
        lastUpdate s' = lastUpdate s ∧
        Node.files (fs s') !! outputPath s = Some (stringify report).
Proof.
  intros Hf Hd Hdn Hne. unfold writeReportSync, try_catch, bind.
  rewrite (io_eq _ _ _ _ (Node.ensureDirSync_ok _ _ Hf Hdn)).
  erewrite io_eq;
    [|apply Node.writeFileSync_ok; cbn;
      [done|intros [H%elem_of_singleton|?]%elem_of_union; congruence|set_solver]].
  eexists. split; [reflexivity|]. cbn. repeat split. apply lookup_insert_eq.
Qed.

Lemma performUpdate_applies u s c r0 r1 :
  Node.faults (fs s) = [] →
  Node.files (fs s) !! outputPath s = Some c →
  outputPath s ∉ Node.dirs (fs s) →
  Node.files (fs s) !! dirname (outputPath s) = None →
  dirname (outputPath s) ≠ outputPath s →
  parse c = Some r0 → u r0 = Ok r1 →
  Node.files (fs (performUpdate u s).2) !! outputPath s = Some (stringify r1).
Proof.
  intros Hf Hc Hd Hdn Hne Hparse Hu.
  unfold performUpdate, try_catch, Node.existsSync.
  rewrite Hc. rewrite bool_decide_true by eauto. cbn [negb orb].
  unfold bind at 1.
  rewrite (io_eq _ _ _ _ (Node.readFileSync_ok _ _ _ Hf Hc)).
  rewrite Hparse, Hu.
  destruct (writeReportSync_creates r1 (set_fs (fs s) s)) as (s' & E & _ & _ & Hw);
    try done.
  unfold bind. rewrite E. exact Hw.
Qed.

Lemma exec_outputPath o s r s' :
  exec o s = Some (r, s') → outputPath s' = outputPath s.
Proof.
  destruct o as [report|u|ou|dt|id]; cbn.
  - intros H%(inj Some). unfold writeInitial, bind in H.
    destruct (writeReportSync report s) as [[[]|e] s1] eqn:E;
      apply writeReportSync_same_schedule in E as (E & _); by injection H as <- <-.
  - intros H%(inj Some). unfold updateReport, setTimeout in H.
    injection H as <- <-. by destruct (pendingUpdate s).
  - intros H%(inj Some). unfold flush in H.
    assert (outputPath (match pendingUpdate s with
                        | Some id => set_pendingUpdate None (clearTimeout id s)
                        | None => s end) = outputPath s) as Hp
      by by destruct (pendingUpdate s).
    destruct ou as [u|]; [|by injection H as <- <-].
    apply performUpdate_same_schedule in H as (H & _). congruence.
  - destruct (0 <=? dt); [|done]. by intros [= <- <-].
  - unfold fire. destruct (List.find _ _) as [t|]; [|done].
    destruct (tm_due t <=? now s); [|done]. intros H%(inj Some).
    unfold bind, modify in H.
    destruct (performUpdate (tm_updater t) (clearTimeout id s)) as [[[]|e] s1] eqn:E;
      apply performUpdate_same_schedule in E as (E & _); by injection H as <- <-.
Qed.

Lemma run_outputPath os : ∀ s s', run os s = Some s' → outputPath s' = outputPath s.
Proof.
  induction os as [|o os IH]; cbn; intros s s'.
  - by intros [= <-].
  - destruct (exec o s) as [[r s1]|] eqn:E; [|done]. intros H.
    rewrite (IH _ _ H). by eapply exec_outputPath.
Qed.

(** C10. On every state [s] a writer can reach from its constructor:
    - [performUpdate] on a missing report file changes nothing and returns
      normally, and a firing timer never raises and leaves the file system as
      it is when the file is missing;
    - no run of [updateReport], [flush], timer firings and clock ticks creates
      the file: as long as [writeInitial] is not called the file system stays
      what it was;
    - [writeInitial] does create it (when the file system accepts the write);
    - after any sequence of [updateReport] calls inside one debounce window the
      timer table holds exactly one callback, that of the last call, and when
      it fires on a readable report the file holds the report as the last
      updater left it. *)
Theorem updateReport_never_creates_and_debounces
  (path : string) (interval : option Z) (t0 : Z) (fs0 : Node.FS)
  (os : list op) (s : state) :
  run os (constructor path interval t0 fs0) = Some s →
  (∀ u, file_exists s = false → performUpdate u s = (Ok tt, s)) ∧
  (∀ id out, fire id s = Some out →
     out.1 = Ok tt ∧ (file_exists s = false → fs out.2 = fs s)) ∧
  (∀ os' s', forallb (fun o => negb (is_writeInitial o)) os' = true →
     file_exists s = false → run os' s = Some s' →
     fs s' = fs s ∧ file_exists s' = false) ∧
  (∀ report,
     Node.faults (fs s) = [] → path ∉ Node.dirs (fs s) →
     Node.files (fs s) !! dirname path = None → dirname path ≠ path →
     ∃ s', writeInitial report s = (Ok tt, s') ∧
           Node.files (fs s') !! path = Some (stringify report)) ∧
  (∀ os' u s', forallb in_window os' = true → last_update os' = Some u →
     run os' s = Some s' →
     ∃ t, timers s' = [t] ∧ tm_updater t = u ∧ pendingUpdate s' = Some (tm_id t)) ∧
  (∀ t c r0 r1 out,
     timers s = [t] → fire (tm_id t) s = Some out →
     Node.faults (fs s) = [] → Node.files (fs s) !! path = Some c →
     path ∉ Node.dirs (fs s) → Node.files (fs s) !! dirname path = None →
     dirname path ≠ path → parse c = Some r0 → tm_updater t r0 = Ok r1 →
     Node.files (fs out.2) !! path = Some (stringify r1)).
Proof.
  intros Hrun.
  pose proof (run_timers_ok _ _ _ (constructor_timers_ok path interval t0 fs0) Hrun) as Hok.
  pose proof (run_outputPath _ _ _ Hrun) as Hpath. cbn in Hpath.
  repeat apply conj.
  - intros u. apply performUpdate_missing.
  - intros id out Hfire.
    destruct (fire_inv _ _ _ Hok Hfire) as (t & _ & _ & _ & _ & ->). cbn. split.
    + apply performUpdate_ok.
    + intros Hmiss. by rewrite performUpdate_missing.
  - intros os' s' Hall Hmiss Hrun'.
    destruct (run_missing _ _ _ Hok Hall Hmiss Hrun') as [Hf Hp]. split; [done|].
    unfold file_exists. by rewrite Hf, Hp.
  - intros report Hf Hd Hdn Hne. rewrite <- Hpath in Hd, Hdn, Hne.
    destruct (writeReportSync_creates report s Hf Hd Hdn Hne) as (s' & E & _ & _ & Hw).
    eexists. unfold writeInitial, bind. rewrite E. split; [reflexivity|].
    cbn. by rewrite <- Hpath.
  - intros os' u s' Hall Hlast Hrun'.
    pose proof (run_window _ _ _ Hok Hall Hrun') as H. by rewrite Hlast in H.
  - intros t c r0 r1 out Ht Hfire Hf Hc Hd Hdn Hne Hparse Hu.
    destruct (fire_inv _ _ _ Hok Hfire) as (t' & Ht' & _ & _ & _ & ->).
    assert (t' = t) as -> by congruence. cbn. rewrite <- Hpath in *.
    by apply (performUpdate_applies _ (set_timers [] (fresh s) s) c r0 r1).
Qed.

(** *** Outcomes of the writing methods *)

Lemma io_inv {A} (m : M Node.FS A) s r s' :
  io m s = (r, s') →
  m (fs s) = (r, fs s') ∧ same_schedule s s' ∧ lastUpdate s' = lastUpdate s.
Proof.
  unfold io. destruct (m (fs s)) as [r0 fs'] eqn:E. intros [= <- <-].
  by repeat split.
Qed.

Lemma writeReportSync_inv report s r s' :
  writeReportSync report s = (r, s') →
  same_schedule s s' ∧ lastUpdate s' = lastUpdate s ∧
  match r with
  | Ok _ =>
      Node.files (fs s') = <[outputPath s := stringify report]> (Node.files (fs s))
  | Throw e => e = IOError ∧ Node.files (fs s') = Node.files (fs s)
  end.
Proof.
  intros H. split; [by eapply writeReportSync_same_schedule|].
  revert H. unfold writeReportSync, try_catch, bind, throw.
  destruct (io (Node.ensureDirSync _) s) as [[[]|e] s1] eqn:E1;
    apply io_inv in E1 as (E1 & (Hp1 & _) & Hl1);
    apply Node.ensureDirSync_inv in E1 as (Hf1 & Hd1).
  - destruct (io (Node.writeFileSync _ _ _) s1) as [[[]|e] s2] eqn:E2;
      apply io_inv in E2 as (E2 & _ & Hl2);
      apply Node.writeFileSync_inv in E2 as (_ & Hf2);
      intros [= <- <-].
    + split; [congruence|]. by rewrite Hf2, Hf1.
    + destruct Hf2 as [-> Hf2]. split; [congruence|]. split; [done|congruence].
  - intros [= <- <-]. destruct Hd1 as [-> _]. by repeat split.
Qed.

Lemma performUpdate_outcome (u : updater) (s : state) :
  (performUpdate u s).1 = Ok tt ∧
  same_schedule s (performUpdate u s).2 ∧
  ((Node.files (fs (performUpdate u s).2) = Node.files (fs s) ∧
    lastUpdate (performUpdate u s).2 = lastUpdate s) ∨
   (∃ c r r',
      Node.files (fs s) !! outputPath s = Some c ∧ parse c = Some r ∧ u r = Ok r' ∧
      Node.files (fs (performUpdate u s).2) =
        <[outputPath s := stringify r']> (Node.files (fs s)) ∧
      lastUpdate (performUpdate u s).2 = now s)).
Proof.
  split; [apply performUpdate_ok|].
  split; [by eapply performUpdate_same_schedule; apply surjective_pairing|].
  unfold performUpdate, try_catch, ret.
  destruct (negb (Node.existsSync (outputPath s) (fs s))); [by left|].
  unfold bind, throw.
  destruct (io (Node.readFileSync (outputPath s)) s) as [[c|e] s1] eqn:E1;
    apply io_inv in E1 as (E1 & (Hp1 & _ & _ & Hn1 & _) & Hl1);
    apply Node.readFileSync_inv in E1 as (Hf1 & _ & Hc); [|by left].
  destruct (parse c) as [r|] eqn:Hparse; [|by left].
  destruct (u r) as [r'|e] eqn:Hu; [|by left].
  destruct (writeReportSync r' s1) as [[[]|e] s2] eqn:E2;
    apply writeReportSync_inv in E2 as ((_ & _ & _ & Hn2 & _) & Hl2 & Hf2); cbn.
  - right. exists c, r, r'. rewrite Hp1 in Hf2. rewrite Hf2, Hf1.
    repeat split; try done. congruence.
  - left. destruct Hf2 as [_ Hf2]. split; congruence.
Qed.



(** *** Flushing *)

(** The file system lets the writer through: no failure is pending, the
    report path is not a directory and its parent is not a file. *)
Definition accepts (s : state) : Prop :=
  Node.faults (fs s) = [] ∧ (outputPath s ∉ Node.dirs (fs s)) ∧
  Node.files (fs s) !! dirname (outputPath s) = None ∧
  dirname (outputPath s) ≠ outputPath s.

(** What a sequence of updaters makes of a report when each is applied to the
    report the previous one left, an updater that throws being skipped. *)
Definition apply_updaters (us : list updater) (r : AIReport) : AIReport :=
  fold_left (fun r u => match u r with Ok r' => r' | Throw _ => r end) us r.

Definition cleared (s : state) : state :=
  match pendingUpdate s with
  | Some id => set_pendingUpdate None (clearTimeout id s)
  | None => s
  end.

Lemma cleared_timers s :
  timers_ok s → timers (cleared s) = [] ∧ pendingUpdate (cleared s) = None.
Proof.
  unfold cleared. intros Hok. destruct (pendingUpdate s) as [id|] eqn:Hp.
  - split; [|done]. change (timers (clearTimeout id s) = []).
    by apply clearTimeout_pending.
  - unfold timers_ok in Hok. by rewrite Hp in Hok.
Qed.

Lemma cleared_fields s :
  fs (cleared s) = fs s ∧ outputPath (cleared s) = outputPath s ∧
  lastUpdate (cleared s) = lastUpdate s ∧ now (cleared s) = now s ∧
  updateInterval (cleared s) = updateInterval s.
Proof. unfold cleared. by destruct (pendingUpdate s). Qed.

Lemma flush_eq ou s :
  flush ou s = match ou with
               | Some u => performUpdate u (cleared s)
               | None => (Ok tt, cleared s)
               end.
Proof. reflexivity. Qed.

Lemma writeReportSync_accepted report s :
  accepts s →
  ∃ s', writeReportSync report s = (Ok tt, s') ∧ accepts s' ∧ same_schedule s s' ∧
        Node.files (fs s') = <[outputPath s := stringify report]> (Node.files (fs s)).
Proof.
  intros (Hf & Hd & Hdn & Hne). unfold writeReportSync, try_catch, bind.
  rewrite (io_eq _ _ _ _ (Node.ensureDirSync_ok _ _ Hf Hdn)).
  erewrite io_eq;
    [|apply Node.writeFileSync_ok; cbn;
      [done|intros [H%elem_of_singleton|?]%elem_of_union; congruence|set_solver]].
  eexists. split; [reflexivity|]. cbn. split; [|by repeat split].
  unfold accepts. cbn. split; [done|]. split; [|split; [|done]].
  - intros [H%elem_of_singleton|?]%elem_of_union; congruence.
  - by rewrite lookup_insert_ne.
Qed.

Lemma flush_applies u s r :
  (∀ x, parse (stringify x) = Some x) →
  accepts s → Node.files (fs s) !! outputPath s = Some (stringify r) →
  ∃ s', flush (Some u) s = (Ok tt, s') ∧ accepts s' ∧
        outputPath s' = outputPath s ∧
        Node.files (fs s') !! outputPath s =
          Some (stringify (match u r with Ok r' => r' | Throw _ => r end)).
Proof.
  intros Hcodec Hacc Hfile. rewrite flush_eq.
  destruct (cleared_fields s) as (Hfs & Hp & _).
  assert (accepts (cleared s)) as Hacc1 by (unfold accepts; by rewrite Hfs, Hp).
  rewrite <- Hfs, <- Hp in Hfile. rewrite <- Hp. clear Hacc Hfs Hp.
  set (s1 := cleared s) in *. clearbody s1.
  destruct Hacc1 as (Hf & Hd & Hdn & Hne).
  unfold performUpdate, try_catch, Node.existsSync.
  rewrite Hfile. rewrite bool_decide_true by eauto. cbn [negb orb].
  unfold bind at 1.
  rewrite (io_eq _ _ _ _ (Node.readFileSync_ok _ _ _ Hf Hfile)).
  rewrite Hcodec. destruct (u r) as [r'|e].
  - destruct (writeReportSync_accepted r' (set_fs (fs s1) s1)) as (s' & E & Hacc' & Hs & Hw);
      [by repeat split|].
    unfold bind. rewrite E. eexists. split; [reflexivity|].
    destruct Hs as (Hp' & _). cbn in Hp', Hw. cbn -[accepts].
    split; [|split; [done|]].
    + exact Hacc'.
    + rewrite Hw. apply lookup_insert_eq.
  - unfold throw, ret. eexists. split; [reflexivity|]. cbn -[accepts].
    split; [by repeat split|done].
Qed.

Lemma flushes_apply us : ∀ s r,
  (∀ x, parse (stringify x) = Some x) →
  accepts s → Node.files (fs s) !! outputPath s = Some (stringify r) →
  ∃ s', run (map (fun u => OpFlush (Some u)) us) s = Some s' ∧
        Node.files (fs s') !! outputPath s = Some (stringify (apply_updaters us r)).
Proof.
  induction us as [|u us IH]; intros s r Hcodec Hacc Hfile; cbn [map run exec].
  - eauto.
  - destruct (flush_applies u s r Hcodec Hacc Hfile) as (s1 & -> & Hacc1 & Hp1 & Hfile1).
    rewrite <- Hp1 in Hfile1.
    destruct (IH s1 _ Hcodec Hacc1 Hfile1) as (s' & Hrun & Hfile').
    exists s'. split; [done|]. by rewrite <- Hp1.
Qed.

(** X3. Flushes compose. On a file system that accepts the writes and with a
    JSON codec that reads back what it printed, [writeInitial(report)]
    followed by [flush(u1)], ..., [flush(un)] leaves in the report file the
    report [un(... u1(report))], an updater that throws being skipped without
    harm to the updaters after it. *)
Theorem flushes_apply_updaters_in_order
  (report : AIReport) (us : list updater) (s : state) :
  (∀ x, parse (stringify x) = Some x) →
  accepts s →
  ∃ s', run (OpWriteInitial report :: map (fun u => OpFlush (Some u)) us) s = Some s' ∧
        Node.files (fs s') !! outputPath s =
          Some (stringify (apply_updaters us report)).
Proof.
  intros Hcodec Hacc. cbn [run exec]. unfold writeInitial, bind.
  destruct (writeReportSync_accepted report s Hacc) as (s1 & -> & Hacc1 & (Hp1 & _) & Hw).
  set (s2 := set_lastUpdate (now s1) s1).
  assert (accepts s2) as Hacc2 by exact Hacc1.
  assert (Node.files (fs s2) !! outputPath s2 = Some (stringify report)) as Hfile2.
  { cbn. rewrite Hw, Hp1. apply lookup_insert_eq. }
  destruct (flushes_apply us s2 report Hcodec Hacc2 Hfile2) as (s' & Hrun & Hfile').
  exists s'. split; [exact Hrun|]. cbn in Hfile'. by rewrite Hp1 in Hfile'.
Qed.

(** X4. [flush] drops the pending update: on every state a writer can reach,
    [flush] returns normally and leaves no timer behind, so the updater that
    was waiting is never run; and [flush()] without an updater changes
    neither the files nor [lastUpdate]. *)
Theorem flush_cancels_pending_update
  (path : string) (interval : option Z) (t0 : Z) (fs0 : Node.FS)
  (os : list op) (s : state) (ou : option updater) :
  run os (constructor path interval t0 fs0) = Some s →
  (flush ou s).1 = Ok tt ∧
  pendingUpdate (flush ou s).2 = None ∧ timers (flush ou s).2 = [] ∧
  (∀ id, fire id (flush ou s).2 = None) ∧
  (ou = None → fs (flush ou s).2 = fs s ∧ lastUpdate (flush ou s).2 = lastUpdate s).
Proof.
  intros Hrun.
  pose proof (run_timers_ok _ _ _ (constructor_timers_ok path interval t0 fs0) Hrun) as Hok.
  destruct (cleared_timers s Hok) as [Ht Hp].
  destruct (cleared_fields s) as (Hfs & _ & Hl & _).
  assert (pendingUpdate (flush ou s).2 = None ∧ timers (flush ou s).2 = []) as [Hp' Ht'].
  { rewrite flush_eq. destruct ou as [u|]; [|done].
    destruct (performUpdate u (cleared s)) as [r s'] eqn:E.
    apply performUpdate_same_schedule in E as (_ & _ & E1 & _ & E2 & _).
    cbn. split; congruence. }
  split; [|split; [done|split; [done|split]]].
  - rewrite flush_eq. destruct ou as [u|]; [apply performUpdate_ok|done].
  - intros id. unfold fire. by rewrite Ht'.
  - intros ->. by rewrite flush_eq.
Qed.

(** *** Spacing of the debounced writes *)

(** The last write is not in the future. *)
Definition clock_ok (s : state) : Prop := lastUpdate s <= now s.

Lemma exec_clock_ok o s r s' : clock_ok s → exec o s = Some (r, s') → clock_ok s'.
Proof.
  unfold clock_ok. intros Hc. destruct o as [report|u|ou|dt|id]; cbn.
  - intros H%(inj Some). unfold writeInitial, bind in H.
    destruct (writeReportSync report s) as [[[]|e] s1] eqn:E;
      apply writeReportSync_inv in E as ((_ & _ & _ & Hn & _) & Hl & _);
      injection H as _ <-; cbn; lia.
  - intros H%(inj Some). unfold updateReport, setTimeout in H.
    injection H as _ <-. by destruct (pendingUpdate s).
  - intros H%(inj Some). rewrite flush_eq in H.
    destruct (cleared_fields s) as (_ & _ & Hl & Hn & _).
    destruct ou as [u|]; [|injection H as _ <-; lia].
    destruct (performUpdate_outcome u (cleared s)) as (_ & (_ & _ & _ & Hn' & _) & Hl').
    rewrite H in Hn', Hl'. cbn in Hn', Hl'. destruct Hl' as [[_ ?]|(c & r0 & r1 & _ & _ & _ & _ & ?)]; lia.
  - destruct (Z.leb_spec 0 dt); [|done]. intros [= _ <-]. cbn. lia.
  - unfold fire. destruct (List.find _ _) as [t|]; [|done].
    destruct (tm_due t <=? now s); [|done]. intros H%(inj Some).
    unfold bind, modify in H.
    destruct (performUpdate_outcome (tm_updater t) (clearTimeout id s))
      as (Hr & (_ & _ & _ & Hn' & _) & Hl').
    destruct (performUpdate (tm_updater t) (clearTimeout id s)) as [[[]|e] s1];
      [|discriminate Hr].
    injection H as _ <-. cbn in *.
    destruct Hl' as [[_ ?]|(c & r0 & r1 & _ & _ & _ & _ & ?)]; lia.
Qed.

Lemma run_clock_ok os : ∀ s s', clock_ok s → run os s = Some s' → clock_ok s'.
Proof.
  induction os as [|o os IH]; cbn; intros s s' Hc.
  - by intros [= <-].
  - destruct (exec o s) as [[r s1]|] eqn:E; [|done].
    intros H. eapply IH; [|exact H]. by eapply exec_clock_ok.
Qed.








(** *** A scheduled update is not kept waiting *)

Lemma updateReport_schedule u s :
  timers_ok s →
  updateReport u s =
    (Ok tt,
     set_pendingUpdate (Some (fresh s))
       (set_timers
          [mkTimer (fresh s)
                   (now s +
                    timer_delay (Z.max 0 (updateInterval s - (now s - lastUpdate s))))
                   u]
          (S (fresh s)) s)).
Proof.
  intros Hok. unfold updateReport, setTimeout.
  destruct (pendingUpdate s) as [id|] eqn:Hp.
  - rewrite (clearTimeout_pending s id Hok Hp). reflexivity.
  - unfold timers_ok in Hok. rewrite Hp in Hok. rewrite Hok. reflexivity.
Qed.

(** X6. A scheduled update is due within [updateInterval]. For a writer
    created at a time that is not negative, in every state it can reach:
    [updateReport(u)] leaves one pending timer whose callback runs [u], and
    once [updateInterval] has passed (or at once, if the interval is not
    positive) that timer can fire; firing it returns normally and leaves no
    update pending. *)
Theorem scheduled_update_fires_within_interval
  (path : string) (interval : option Z) (t0 : Z) (fs0 : Node.FS)
  (os : list op) (s : state) (u : updater) :
  0 <= t0 →
  run os (constructor path interval t0 fs0) = Some s →
  ∃ t s2 out,
    timers (updateReport u s).2 = [t] ∧ tm_updater t = u ∧
    pendingUpdate (updateReport u s).2 = Some (tm_id t) ∧
    tm_due t <= now s + Z.max 0 (updateInterval s) ∧
    run [OpTick (Z.max 0 (updateInterval s))] (updateReport u s).2 = Some s2 ∧
    fire (tm_id t) s2 = Some out ∧
    out.1 = Ok tt ∧ pendingUpdate out.2 = None ∧ timers out.2 = [].
Proof.
  intros Ht0 Hrun.
  pose proof (run_timers_ok _ _ _ (constructor_timers_ok path interval t0 fs0) Hrun) as Hok.
  assert (clock_ok s) as Hc.
  { apply (run_clock_ok os (constructor path interval t0 fs0)); [|done].
    unfold clock_ok. cbn. lia. }
  unfold clock_ok in Hc.
  rewrite (updateReport_schedule u s Hok). cbn [snd].
  set (due := now s +
              timer_delay (Z.max 0 (updateInterval s - (now s - lastUpdate s)))).
  set (dt := Z.max 0 (updateInterval s)).
  assert (due <= now s + dt) as Hdue.
  { subst due dt. unfold timer_delay, TIMEOUT_MAX.
    destruct (Z.leb_spec (Z.max 0 (updateInterval s - (now s - lastUpdate s)))
                         2147483647); lia. }
  assert ((0 <=? dt) = true) as Hdt by (apply Z.leb_le; subst dt; lia).
  exists (mkTimer (fresh s) due u). cbn [run exec]. rewrite Hdt.
  eexists. eexists. split; [reflexivity|]. split; [reflexivity|].
  split; [reflexivity|]. split; [exact Hdue|]. split; [reflexivity|].
  unfold fire. cbn [timers set_now set_pendingUpdate set_timers List.find tm_id].
  rewrite Nat.eqb_refl. cbn [tm_due tm_updater now set_now set_pendingUpdate set_timers].
  assert ((due <=? now s + dt) = true) as -> by (by apply Z.leb_le).
  split; [reflexivity|]. unfold bind, modify.
  match goal with |- context [performUpdate ?v ?st] =>
    pose proof (performUpdate_ok v st) as Hr;
    destruct (performUpdate v st) as [[[]|e] s3] eqn:E; [|discriminate Hr]
  end.
  apply performUpdate_same_schedule in E as (_ & _ & _ & _ & Ht & _).
  cbn. split; [done|]. split; [done|]. rewrite Ht. cbn.
  rewrite decide_False; [done|]. intros Hne. by apply Hne.
Qed.

End Writer.

(** A concrete writer: reports are counters, two updaters add one and ten. *)
Definition demo_stringify (n : nat) : string :=
  match n with O => "zero" | S O => "one" | _ => "many" end.

Definition demo_parse (c : string) : option nat :=
  if String.eqb c "zero" then Some 0%nat
  else if String.eqb c "one" then Some 1%nat
  else None.

Definition demo_dirname (p : string) : string := "out".

Definition demo_add (k : nat) : updater nat := fun n => Ok (k + n)%nat.

Definition demo_window : list (op nat) :=
  [OpUpdateReport nat (demo_add 1); OpTick nat 5; OpUpdateReport nat (demo_add 10)].

Lemma updateReport_debounce_witness :
  ∃ s s',
    run nat demo_stringify demo_parse demo_dirname [OpTick nat 3]
        (constructor nat "out/report.json" None 0 (Node.mkFS ∅ ∅ [])) = Some s ∧
    file_exists nat s = false ∧
    performUpdate nat demo_stringify demo_parse demo_dirname (demo_add 1) s = (Ok tt, s) ∧
    run nat demo_stringify demo_parse demo_dirname demo_window s = Some s' ∧
    ∃ t, timers nat s' = [t] ∧ tm_updater nat t = demo_add 10 ∧
         pendingUpdate nat s' = Some (tm_id nat t).
Proof.
  eexists _, _. split; [reflexivity|]. split; [reflexivity|].
  pose proof (updateReport_never_creates_and_debounces nat demo_stringify demo_parse
                demo_dirname "out/report.json" None 0 (Node.mkFS ∅ ∅ [])
                [OpTick nat 3] _ eq_refl)
    as (Hskip & _ & _ & _ & Hwin & _).
  split; [apply Hskip; reflexivity|].
  split; [reflexivity|].
  apply (Hwin demo_window (demo_add 10)); reflexivity.
Defined.

(** A second writer: the report is a flag, printed as a JSON literal. *)
Definition flag_stringify (b : bool) : string := if b then "true" else "false".

Definition flag_parse (c : string) : option bool :=
  if String.eqb c "true" then Some true
  else if String.eqb c "false" then Some false
  else None.

Definition flag_not : updater bool := fun b => Ok (negb b).

Definition flag_fail : updater bool := fun _ => Throw CallbackError.

Definition flag_start : state bool :=
  constructor bool "out/report.json" None 0 (Node.mkFS ∅ ∅ []).

Lemma flag_start_accepts : accepts bool demo_dirname flag_start.
Proof.
  split; [reflexivity|]. split; [|split; [reflexivity|discriminate]].
  apply (not_elem_of_empty (C := gset string)).
Qed.

Lemma flushes_in_order_witness :
  ∃ s', run bool flag_stringify flag_parse demo_dirname
          (OpWriteInitial bool false ::
           map (fun u => OpFlush bool (Some u)) [flag_not; flag_fail; flag_not; flag_not])
          flag_start = Some s' ∧
        Node.files (fs bool s') !! "out/report.json" = Some "true".
Proof.
  apply (flushes_apply_updaters_in_order bool flag_stringify flag_parse demo_dirname
           false [flag_not; flag_fail; flag_not; flag_not] flag_start).
  - intros []; reflexivity.
  - exact flag_start_accepts.
Defined.

Lemma flush_cancels_witness :
  ∃ s, run nat demo_stringify demo_parse demo_dirname [OpUpdateReport nat (demo_add 1)]
         (constructor nat "out/report.json" None 0 (Node.mkFS ∅ ∅ [])) = Some s ∧
       pendingUpdate nat s = Some 0%nat ∧
       pendingUpdate nat
         (flush nat demo_stringify demo_parse demo_dirname None s).2 = None ∧
       timers nat (flush nat demo_stringify demo_parse demo_dirname None s).2 = [] ∧
       fire nat demo_stringify demo_parse demo_dirname 0
         (flush nat demo_stringify demo_parse demo_dirname None s).2 = None.
Proof.
  eexists. split; [reflexivity|]. split; [reflexivity|].
  destruct (flush_cancels_pending_update nat demo_stringify demo_parse demo_dirname
              "out/report.json" None 0 (Node.mkFS ∅ ∅ [])
              [OpUpdateReport nat (demo_add 1)] _ None eq_refl)
    as (_ & Hp & Ht & Hfire & _).
  split; [exact Hp|]. split; [exact Ht|]. apply Hfire.
Defined.


(** With an interval above [TIMEOUT_MAX] the timer is set to 1 ms: the
    debounced write comes after one millisecond. *)
Example long_interval_fires_early :
  ∃ s out,
    run nat demo_stringify demo_parse demo_dirname
        [OpUpdateReport nat (demo_add 1); OpTick nat 1]
        (constructor nat "out/report.json" (Some 3000000000) 0 (Node.mkFS ∅ ∅ []))
      = Some s ∧
    fire nat demo_stringify demo_parse demo_dirname 0 s = Some out ∧
    updateInterval nat s = 3000000000 ∧ lastUpdate nat s = 0 ∧ now nat s = 1.
Proof. eexists _, _. repeat split; reflexivity. Qed.

Definition demo_writer : state nat :=
  constructor nat "out/report.json" None 0 (Node.mkFS ∅ ∅ []).

Lemma scheduled_update_witness :
  ∃ t s2 out,
    timers nat (updateReport nat (demo_add 1) demo_writer).2 = [t] ∧
    tm_updater nat t = demo_add 1 ∧
    pendingUpdate nat (updateReport nat (demo_add 1) demo_writer).2 = Some (tm_id nat t) ∧
    tm_due nat t <= now nat demo_writer + Z.max 0 (updateInterval nat demo_writer) ∧
    run nat demo_stringify demo_parse demo_dirname
        [OpTick nat (Z.max 0 (updateInterval nat demo_writer))]
        (updateReport nat (demo_add 1) demo_writer).2 = Some s2 ∧
    fire nat demo_stringify demo_parse demo_dirname (tm_id nat t) s2 = Some out ∧
    out.1 = Ok tt ∧ pendingUpdate nat out.2 = None ∧ timers nat out.2 = [].
Proof.
  apply (scheduled_update_fires_within_interval nat demo_stringify demo_parse
           demo_dirname "out/report.json" None 0 (Node.mkFS ∅ ∅ []) [] demo_writer
           (demo_add 1)).
  - lia.
  - reflexivity.
Defined.

End ProgressiveWriter.

(** ** String helpers of the JavaScript runtime *)

Module JSString.

Local Open Scope nat_scope.

(** [s.endsWith(suffix)] *)
Definition endsWith (suffix s : string) : bool :=
  let n := String.length s in
  let m := String.length suffix in
  if m <=? n then String.eqb (substring (n - m) m s) suffix else false.

(** [s.replace(pat, rep)] for a string pattern: the first occurrence only. *)
Definition replace (pat rep s : string) : string :=
  match index 0 pat s with
  | Some i =>
      substring 0 i s +:+ rep +:+
      substring (i + String.length pat) (String.length s - (i + String.length pat)) s
  | None => s
  end.

Lemma app_cons (c : Ascii.ascii) (a b : string) :
  String c a +:+ b = String c (a +:+ b).
Proof. reflexivity. Qed.

Lemma length_app (a b : string) :
  String.length (a +:+ b) = String.length a + String.length b.
Proof.
  induction a as [|c a IH]; [done|]. rewrite app_cons. cbn [String.length].
  by rewrite IH.
Qed.

Lemma app_empty_r (a : string) : a +:+ "" = a.
Proof. induction a as [|c a IH]; [done|]. by rewrite app_cons, IH. Qed.

Lemma app_assoc (a b c : string) : (a +:+ b) +:+ c = a +:+ (b +:+ c).
Proof. induction a as [|x a IH]; [done|]. by rewrite !app_cons, IH. Qed.

Lemma substring_none (n : nat) : ∀ s, substring n 0 s = "".
Proof. induction n as [|n IH]; intros [|c s]; cbn [substring]; auto. Qed.

Lemma substring_all (a : string) : substring 0 (String.length a) a = a.
Proof.
  induction a as [|c a IH]; [done|]. cbn [String.length substring]. by rewrite IH.
Qed.

Lemma substring_app_l (a b : string) : substring 0 (String.length a) (a +:+ b) = a.
Proof.
  induction a as [|c a IH]; [apply (substring_none 0)|].
  rewrite app_cons. cbn [String.length substring]. by rewrite IH.
Qed.

Lemma substring_app_r (a b : string) (m : nat) :
  substring (String.length a) m (a +:+ b) = substring 0 m b.
Proof.
  induction a as [|c a IH]; [done|]. rewrite app_cons.
  cbn [String.length substring]. exact IH.
Qed.

Lemma endsWith_app (suffix base : string) : endsWith suffix (base +:+ suffix) = true.
Proof.
  unfold endsWith. rewrite length_app.
  replace (String.length suffix <=? String.length base + String.length suffix)
    with true by (symmetry; apply Nat.leb_le; lia).
  replace (String.length base + String.length suffix - String.length suffix)
    with (String.length base) by lia.
  rewrite substring_app_r, substring_all. apply String.eqb_refl.
Qed.

(** [pat] occurs in [base +:+ pat] at the end and nowhere before. *)
Definition first_at_end (pat base : string) : Prop :=
  ∀ p, p < String.length base →
       substring p (String.length pat) (base +:+ pat) ≠ pat.

Lemma replace_at_end (pat rep base : string) :
  pat ≠ "" → first_at_end pat base →
  replace pat rep (base +:+ pat) = base +:+ rep.
Proof.
  intros Hpat Hfirst. unfold replace.
  assert (substring (String.length base) (String.length pat) (base +:+ pat) = pat)
    as Hend by (by rewrite substring_app_r, substring_all).
  destruct (index 0 pat (base +:+ pat)) as [i|] eqn:E.
  - assert (i = String.length base) as ->.
    { pose proof (index_correct1 _ _ _ _ E) as H1.
      pose proof (index_correct2 _ _ _ _ E (String.length base)) as H2.
      destruct (Nat.lt_trichotomy i (String.length base)) as [Hlt|[->|Hgt]]; [|done|].
      - by destruct (Hfirst i Hlt).
      - destruct H2; [lia|done|done]. }
    rewrite substring_app_l, length_app.
    replace (String.length base + String.length pat -
             (String.length base + String.length pat)) with 0 by lia.
    by rewrite substring_none, app_empty_r.
  - by destruct (index_correct3 0 (String.length base) _ _ E Hpat (Nat.le_0_l _)).
Qed.

End JSString.

(** ** packages/ai-reporter/src/index.ts *)

Module AIReporter.

Local Open Scope nat_scope.

(** *** Objects *)

Definition loc : Type := nat.

(** Results of the Ollama service, as far as the reporter reads them (the
    [confidence] fields are floats that only the Markdown renderer prints). *)
Record SemanticAnalysis : Type := mkSemanticAnalysis {
  similarityScore : Z;
  functionallyEquivalent : bool;
  sem_reasoning : string
}.

Record RefactoringSuggestion : Type := mkRefactoringSuggestion {
  rs_type : string;
  rs_description : string;
  rs_reasoning : string
}.

(** A JavaScript value. Clones and their locations are objects on the heap,
    reached by reference; the service's results are never mutated by the
    reporter and are kept as immediate values. *)
Inductive value : Type :=
| VUndefined
| VBool (b : bool)
| VNum (n : Z)
| VStr (s : string)
| VRef (l : loc)
| VSemantic (a : SemanticAnalysis)
| VSuggestion (r : RefactoringSuggestion).

Definition object : Type := gmap string value.

(** [if (v)] *)
Definition truthy (v : value) : bool :=
  match v with
  | VUndefined => false
  | VBool b => b
  | VNum n => negb (n =? 0)%Z
  | VStr s => negb (String.eqb s "")
  | VRef _ | VSemantic _ | VSuggestion _ => true
  end.

(** [o.k], [undefined] when the property is absent. *)
Definition prop (k : string) (o : object) : value := default VUndefined (o !! k).

Definition of_semantic (o : option SemanticAnalysis) : value :=
  match o with Some a => VSemantic a | None => VUndefined end.

Definition of_suggestion (o : option RefactoringSuggestion) : value :=
  match o with Some r => VSuggestion r | None => VUndefined end.

Definition of_string (o : option string) : value :=
  match o with Some x => VStr x | None => VUndefined end.

(** *** Options, statistic, report *)

Inductive report_format : Type := FJson | FMarkdown | FHtml.

(** [AIReportOptions] as the constructor leaves them in [this.options]. *)
Record AIReportOptions : Type := mkOptions {
  output : option string;
  format : report_format;
  includeRefactoringSuggestions : bool;
  includeSemanticAnalysis : bool;
  includeExplanations : bool;
  minSimilarityForAI : Z
}.

Record OllamaService : Type := mkService { model : string }.

(** [IStatistic], as far as [generateReport] and [generateRecommendations]
    read it: the keys of [formats] and [total.lines], [total.percentage]. *)
Record StatisticTotal : Type := mkTotal { lines : Z; percentage : Q }.

Record IStatistic : Type := mkStatistic {
  formats : option (list string);
  total : option StatisticTotal
}.

Record Summary : Type := mkSummary {
  totalClones : nat;
  totalFiles : nat;
  totalLines : Z;
  duplicatePercentage : Q;
  aiAnalyzedClones : nat
}.

Record RefactoringSummary : Type := mkRefactoringSummary {
  highPriority : nat;
  mediumPriority : nat;
  lowPriority : nat;
  totalSuggestions : nat
}.

(** The four sentences [generateRecommendations] can push. *)
Inductive recommendation : Type :=
| HighDuplication (pct : Q)
| HighPriorityOpportunities (n : nat)
| MultipleOpportunities
| InstallOllama.

(** [AIReport]; [report_clones] is [this.clones] itself (the same array of the
    same objects), [generatedAt] is the wall clock and is left out. *)
Record AIReport : Type := mkReport {
  summary : Summary;
  report_clones : list loc;
  refactoringSummary : RefactoringSummary;
  recommendations : list recommendation;
  ollamaModel : option string
}.

(** *** Promises *)

Inductive settle_status : Type := Fulfilled | Rejected.

(** Where [processCloneWithAI] stands; one constructor per [await]. [called]
    records whether the guard of [analyzeSemantics] and its siblings let the
    request through: without it they return [undefined] at once. *)
Inductive pc : Type :=
| AwaitInit
| AwaitSemantics (called : bool)
| AwaitRefactoring (called : bool)
| AwaitExplanation (called : bool)
| Settled (st : settle_status).

(** One entry of [this.aiProcessingPromises]:
    [this.processCloneWithAI(clone, enhancedClone).catch(...)]. *)
Record task : Type := mkTask {
  t_clone : loc;
  t_enhanced : loc;
  t_pc : pc
}.

(** A promise built by [report]:
    [this.initializationPromise.then(() => this.processAllAITasks()).catch(...)]. *)
Inductive chain : Type :=
| WaitInit
| WaitAllSettled (n : nat)
| ChainFulfilled
| ChainRejected.

(** What [this.completionPromise] refers to. *)
Inductive promise : Type :=
| PResolved
| PChain (k : nat).

(** *** The reporter and its runtime *)

Record world : Type := mkWorld {
  (* fields of the AIReporter object *)
  ollamaService : option OllamaService;
  options : AIReportOptions;
  clones : list loc;
  aiProcessingPromises : list task;
  processedCount : nat;
  failedCount : nat;
  statistic : option IStatistic;
  completionPromise : promise;
  (* the runtime *)
  initialized : bool;
  chains : list chain;
  heap : gmap loc object;
  next_loc : loc;
  fs : Node.FS;
  prompts : list (string * string * AIReport)
}.

Definition set_ollamaService v (s : world) : world :=
  mkWorld v (options s) (clones s) (aiProcessingPromises s) (processedCount s)
    (failedCount s) (statistic s) (completionPromise s) (initialized s)
    (chains s) (heap s) (next_loc s) (fs s) (prompts s).

Definition set_clones v (s : world) : world :=
  mkWorld (ollamaService s) (options s) v (aiProcessingPromises s) (processedCount s)
    (failedCount s) (statistic s) (completionPromise s) (initialized s)
    (chains s) (heap s) (next_loc s) (fs s) (prompts s).

Definition set_aiProcessingPromises v (s : world) : world :=
  mkWorld (ollamaService s) (options s) (clones s) v (processedCount s)
    (failedCount s) (statistic s) (completionPromise s) (initialized s)
    (chains s) (heap s) (next_loc s) (fs s) (prompts s).

Definition set_processedCount v (s : world) : world :=
  mkWorld (ollamaService s) (options s) (clones s) (aiProcessingPromises s) v
    (failedCount s) (statistic s) (completionPromise s) (initialized s)
    (chains s) (heap s) (next_loc s) (fs s) (prompts s).

Definition set_failedCount v (s : world) : world :=
  mkWorld (ollamaService s) (options s) (clones s) (aiProcessingPromises s)
    (processedCount s) v (statistic s) (completionPromise s) (initialized s)
    (chains s) (heap s) (next_loc s) (fs s) (prompts s).

Definition set_statistic v (s : world) : world :=
  mkWorld (ollamaService s) (options s) (clones s) (aiProcessingPromises s)
    (processedCount s) (failedCount s) v (completionPromise s) (initialized s)
    (chains s) (heap s) (next_loc s) (fs s) (prompts s).

Definition set_completionPromise v (s : world) : world :=
  mkWorld (ollamaService s) (options s) (clones s) (aiProcessingPromises s)
    (processedCount s) (failedCount s) (statistic s) v (initialized s)
    (chains s) (heap s) (next_loc s) (fs s) (prompts s).

Definition set_initialized v (s : world) : world :=
  mkWorld (ollamaService s) (options s) (clones s) (aiProcessingPromises s)
    (processedCount s) (failedCount s) (statistic s) (completionPromise s) v
    (chains s) (heap s) (next_loc s) (fs s) (prompts s).

Definition set_chains v (s : world) : world :=
  mkWorld (ollamaService s) (options s) (clones s) (aiProcessingPromises s)
    (processedCount s) (failedCount s) (statistic s) (completionPromise s)
    (initialized s) v (heap s) (next_loc s) (fs s) (prompts s).

Definition set_heap v n (s : world) : world :=
  mkWorld (ollamaService s) (options s) (clones s) (aiProcessingPromises s)
    (processedCount s) (failedCount s) (statistic s) (completionPromise s)
    (initialized s) (chains s) v n (fs s) (prompts s).

Definition set_fs v (s : world) : world :=
  mkWorld (ollamaService s) (options s) (clones s) (aiProcessingPromises s)
    (processedCount s) (failedCount s) (statistic s) (completionPromise s)
    (initialized s) (chains s) (heap s) (next_loc s) v (prompts s).

Definition set_prompts v (s : world) : world :=
  mkWorld (ollamaService s) (options s) (clones s) (aiProcessingPromises s)
    (processedCount s) (failedCount s) (statistic s) (completionPromise s)
    (initialized s) (chains s) (heap s) (next_loc s) (fs s) v.

Definition io {A : Type} (m : M Node.FS A) : M world A :=
  fun s => let '(r, fs') := m (fs s) in (r, set_fs fs' s).

(** [o.k = v] on the object at [l]. *)
Definition assign (l : loc) (k : string) (v : value) (s : world) : world :=
  match heap s !! l with
  | Some o => set_heap (<[l := <[k := v]> o]> (heap s)) (next_loc s) s
  | None => s
  end.

(** A fresh object. *)
Definition alloc (o : object) (s : world) : loc * world :=
  (next_loc s, set_heap (<[next_loc s := o]> (heap s)) (S (next_loc s)) s).

(** [IEventPayload], of which the reporter reads [clone] only. *)
Record IEventPayload : Type := mkPayload {
  ev_clone : option loc;
  ev_sourceId : option string
}.

(** What an [await] of [processCloneWithAI] is resumed with. *)
Inductive reply : Type :=
| InitReady
| ReplySemantics (a : option SemanticAnalysis)
| ReplyRefactoring (r : option RefactoringSuggestion)
| ReplyExplanation (x : option string).

Section Reporter.

(** [JSON.stringify(report, null, 2)] and [generateMarkdownReport] print the
    report with the clone objects it refers to; [JSON.stringify] throws a
    [TypeError] on a report it cannot serialize (a clone of the detector that
    holds a cyclic structure or a BigInt), which [serializable] tells apart;
    [dirname] and [join] are those of Node's [path]. *)
Variable serializable : gmap loc object -> AIReport -> bool.
Variable stringify : gmap loc object -> AIReport -> string.
Variable generateMarkdownReport : gmap loc object -> AIReport -> string.
Variable dirname : string -> string.
Variable join : string -> string -> string.

Local Open Scope js_scope.

(** [constructor]: [initializeOllama] runs up to its first [await]; by then
    [this.ollamaService] is the new service object, or [null] when creating it
    threw, in which case the initialization promise is already settled. *)
Definition constructor (opts : AIReportOptions) (svc : option OllamaService)
    (fs0 : Node.FS) : world :=
  mkWorld svc opts [] [] 0 0 None PResolved
          (match svc with Some _ => false | None => true end)
          [] ∅ 0 fs0 [].

(** The rest of [initializeOllama], after [checkAvailability] has answered
    ([available = false] also stands for its exception). *)
Definition initializeOllama_resume (available : bool) (s : world) : world :=
  set_initialized true (if available then s else set_ollamaService None s).

Definition object_at (l : loc) (s : world) : object := default ∅ (heap s !! l).

(** [collectClone], with the call of [processCloneWithAI] up to its first
    [await]. *)
Definition collectClone (clone : loc) : M world unit :=
  fun s =>
    let enhanced := <["aiProcessed" := VBool false]> (object_at clone s) in
    let '(e, s1) := alloc enhanced s in
    let s2 := set_clones (clones s1 ++ [e]) s1 in
    (Ok tt,
     set_aiProcessingPromises
       (aiProcessingPromises s2 ++ [mkTask clone e AwaitInit]) s2).

Definition handler : Type := IEventPayload -> M world unit.

Definition on_CLONE_FOUND : handler :=
  fun payload =>
    match ev_clone payload with
    | Some clone => collectClone clone
    | None => ret tt
    end.

Definition subscribe : gmap string handler :=
  {[ "CLONE_FOUND" := on_CLONE_FOUND ]}.

Definition shouldUseAI (s : world) : bool :=
  match ollamaService s with Some _ => true | None => false end.

Definition has_service (s : world) : bool :=
  match ollamaService s with Some _ => true | None => false end.

(** The guards of [analyzeSemantics] and [generateRefactoring]
    ([!clone.duplicationA || !clone.duplicationB]) and of [explainDuplication]
    ([!clone.duplicationA]). *)
Definition has_both_sides (clone : loc) (s : world) : bool :=
  truthy (prop "duplicationA" (object_at clone s)) &&
  truthy (prop "duplicationB" (object_at clone s)).

Definition has_side_A (clone : loc) (s : world) : bool :=
  truthy (prop "duplicationA" (object_at clone s)).

(** [processCloneWithAI], from the end backwards. *)
Definition finish (aiCallsMade : bool) (t : task) (s : world) : pc * world :=
  (Settled Fulfilled,
   if aiCallsMade then assign (t_enhanced t) "aiProcessed" (VBool true) s else s).

Definition stage_explanation (aiCallsMade : bool) (t : task) (s : world) : pc * world :=
  if includeExplanations (options s) && has_service s
  then (AwaitExplanation (has_side_A (t_clone t) s), s)
  else finish aiCallsMade t s.

Definition stage_refactoring (aiCallsMade : bool) (t : task) (s : world) : pc * world :=
  if includeRefactoringSuggestions (options s) && has_service s
  then (AwaitRefactoring (has_both_sides (t_clone t) s), s)
  else stage_explanation aiCallsMade t s.

Definition stage_semantics (t : task) (s : world) : pc * world :=
  if includeSemanticAnalysis (options s) && has_service s
  then (AwaitSemantics (has_both_sides (t_clone t) s), s)
  else stage_refactoring false t s.

Definition processCloneWithAI_resume (r : reply) (t : task) (s : world)
    : option (pc * world) :=
  match t_pc t, r with
  | AwaitInit, InitReady =>
      if initialized s then
        Some (if shouldUseAI s then stage_semantics t s else (Settled Fulfilled, s))
      else None
  | AwaitSemantics called, ReplySemantics a =>
      let v := if called then of_semantic a else VUndefined in
      Some (stage_refactoring true t (assign (t_enhanced t) "semanticAnalysis" v s))
  | AwaitRefactoring called, ReplyRefactoring x =>
      let v := if called then of_suggestion x else VUndefined in
      Some (stage_explanation true t (assign (t_enhanced t) "refactoringSuggestion" v s))
  | AwaitExplanation called, ReplyExplanation x =>
      let v := if called then of_string x else VUndefined in
      Some (finish true t (assign (t_enhanced t) "explanation" v s))
  | _, _ => None
  end.

(** [calculateRefactoringSummary]: the body of the [forEach] and the loop. *)
Definition count_clone (h : gmap loc object) (acc : nat * nat * nat) (clone : loc)
    : nat * nat * nat :=
  let '(high, medium, low) := acc in
  let suggestion := prop "refactoringSuggestion" (default ∅ (h !! clone)) in
  if truthy suggestion then
    let potential := match suggestion with
                     | VSuggestion r => Some (rs_type r)
                     | _ => None
                     end in
    match potential with
    | Some ty =>
        if String.eqb ty "extract-function" || String.eqb ty "extract-class"
        then (S high, medium, low)
        else if String.eqb ty "create-module" then (high, S medium, low)
        else (high, medium, S low)
    | None => (high, medium, S low)
    end
  else acc.

Definition calculateRefactoringSummary (s : world) : RefactoringSummary :=
  let '(high, medium, low) := fold_left (count_clone (heap s)) (clones s) (0, 0, 0) in
  mkRefactoringSummary high medium low (high + medium + low).

Definition generateRecommendations (statistic : IStatistic)
    (rs : RefactoringSummary) (s : world) : list recommendation :=
  (match total statistic with
   | Some t =>
       if negb (Qeq_bool (percentage t) 0) && negb (Qle_bool (percentage t) 10)
       then [HighDuplication (percentage t)] else []
   | None => []
   end) ++
  (if 0 <? highPriority rs then [HighPriorityOpportunities (highPriority rs)] else []) ++
  (if 5 <? totalSuggestions rs then [MultipleOpportunities] else []) ++
  (if has_service s then [] else [InstallOllama]).

Definition generateReport (statistic : IStatistic) (s : world) : AIReport :=
  let aiAnalyzed :=
    length (List.filter (fun c => truthy (prop "aiProcessed" (object_at c s))) (clones s)) in
  let rs := calculateRefactoringSummary s in
  let recs := generateRecommendations statistic rs s in
  mkReport
    (mkSummary (length (clones s))
               (match formats statistic with Some ks => length ks | None => 0 end)
               (match total statistic with Some t => lines t | None => 0%Z end)
               (match total statistic with Some t => percentage t | None => 0%Q end)
               aiAnalyzed)
    (clones s) rs recs
    (match ollamaService s with Some svc => Some (model svc) | None => None end).

(** [this.options.output] read as a condition. *)
Definition output_set (s : world) : bool :=
  match output (options s) with
  | Some p => negb (String.eqb p "")
  | None => false
  end.

(** [this.options.output || '.'] *)
Definition output_or_dot (s : world) : string :=
  match output (options s) with
  | Some p => if String.eqb p "" then "." else p
  | None => "."
  end.

Definition saveReportSync (report : AIReport) : M world unit :=
  fun s =>
    (let! outputPath :=
       (if negb (JSString.endsWith ".json" (output_or_dot s)) &&
           negb (JSString.endsWith ".md" (output_or_dot s))
        then io (Node.ensureDirSync (output_or_dot s)) ;;;
             ret (output_or_dot s +:+ "/jscpd-ai-report.json")
        else ret (output_or_dot s)) in
     try_catch
       (fun s1 =>
          match format (options s1) with
          | FJson =>
              if serializable (heap s1) report
              then io (Node.writeFileSync dirname outputPath
                                          (stringify (heap s1) report)) s1
              else (Throw TypeError, s1)
          | FMarkdown =>
              io (Node.writeFileSync dirname (JSString.replace ".json" ".md" outputPath)
                                     (generateMarkdownReport (heap s1) report)) s1
          | FHtml => (Ok tt, s1)
          end)
       (fun _ => ret tt)) s.

Definition updateReportWithAIResults : M world unit :=
  fun s =>
    match statistic s with
    | Some st =>
        if output_set s
        then try_catch (saveReportSync (generateReport st s)) (fun _ => ret tt) s
        else (Ok tt, s)
    | None => (Ok tt, s)
    end.

(** [generateAIPrompt]: the prompt generator lives in another file; what is
    kept of [generator.writePrompt(report)] is the call, with the path and the
    language it was built with, unless it threw. *)
Definition generateAIPrompt (report : AIReport) : M world unit :=
  try_catch
    (fun s =>
       let outputDir := if output_set s
                        then dirname (default "" (output (options s)))
                        else "." in
       let promptPath := join outputDir "refactoring-guide.md" in
       let language :=
         match report_clones report with
         | c :: _ =>
             match prop "format" (object_at c s) with
             | VStr f => if String.eqb f "" then "code" else f
             | _ => "code"
             end
         | [] => "code"
         end in
       let '(bad, fs1) := Node.next_fault (fs s) in
       if bad then (Throw IOError, set_fs fs1 s)
       else (Ok tt, set_prompts (prompts s ++ [(promptPath, language, report)])
                                (set_fs fs1 s)))
    (fun _ => ret tt).

(** [failureRate > 0.5] for [failureRate = failedCount / clones.length] in
    IEEE arithmetic: [0/0] is [NaN] and compares false, [f/0] is [Infinity]
    for [f > 0], and for counts below [2^52] the quotient exceeds one half
    exactly when [2 * f > n]. *)
Definition high_failure_rate (s : world) : bool :=
  length (clones s) <? 2 * failedCount s.

Definition finalize : M world unit :=
  fun s =>
    match statistic s with
    | None => (Ok tt, s)
    | Some st =>
        if high_failure_rate s then (Ok tt, s)
        else
          let report := generateReport st s in
          ((if output_set s then saveReportSync report else ret tt) ;;;
           (fun s1 =>
              if (0 <? processedCount s1) && output_set s1
              then generateAIPrompt report s1
              else (Ok tt, s1))) s
    end.

(** The [results.forEach] of [processAllAITasks]. *)
Fixpoint tally (n : nat) (index : nat) (results : list settle_status) : M world unit :=
  match results with
  | [] => ret tt
  | Fulfilled :: rest =>
      modify (fun s => set_processedCount (S (processedCount s)) s) ;;;
      (if (index =? n - 1) || ((index + 1) mod 5 =? 0)
       then updateReportWithAIResults else ret tt) ;;;
      tally n (S index) rest
  | Rejected :: rest =>
      modify (fun s => set_failedCount (S (failedCount s)) s) ;;;
      tally n (S index) rest
  end.

(** [processAllAITasks] after [await Promise.allSettled(...)]. *)
Definition processAllAITasks_resume (results : list settle_status) : M world unit :=
  tally (length results) 0 results ;;; finalize.

Definition generateAndSaveInitialReport (statistic : option IStatistic) : M world unit :=
  try_catch
    (match statistic with
     | None => throw TypeError
     | Some st =>
         fun s => (if output_set s then saveReportSync (generateReport st s)
                   else ret tt) s
     end)
    (fun e => throw e).

(** [report]; its first argument is only logged. *)
Definition report (found : list loc) (st : option IStatistic) : M world unit :=
  modify (set_statistic st) ;;;
  generateAndSaveInitialReport st ;;;
  (fun s =>
     if 0 <? length (aiProcessingPromises s)
     then (Ok tt, set_completionPromise (PChain (length (chains s)))
                    (set_chains (chains s ++ [WaitInit]) s))
     else (Ok tt, set_completionPromise PResolved s)).

Definition waitForCompletion (s : world) : promise := completionPromise s.

(** *** The event loop *)

Definition task_settled (t : task) : bool :=
  match t_pc t with Settled _ => true | _ => false end.

Definition task_status (t : task) : settle_status :=
  match t_pc t with Settled st => st | _ => Fulfilled end.

(** The promise has been fulfilled. *)
Definition resolved (s : world) (p : promise) : bool :=
  match p with
  | PResolved => true
  | PChain k => match chains s !! k with Some ChainFulfilled => true | _ => false end
  end.


Inductive event : Type :=
| EvEmit (name : string) (payload : IEventPayload)
| EvAlloc (o : object)
| EvReport (found : list loc) (st : option IStatistic)
| EvInit (available : bool)
| EvTask (i : nat) (r : reply)
| EvChainStart (k : nat)
| EvChainResume (k : nat).

Definition step (e : event) (s : world) : option world :=
  match e with
  | EvEmit name payload =>
      (* the coordinator looks the handler up by event name *)
      match subscribe !! name with
      | Some h => Some (h payload s).2
      | None => Some s
      end
  | EvAlloc o =>
      (* some other part of the program creates an object *)
      Some (alloc o s).2
  | EvReport found st => Some (report found st s).2
  | EvInit available =>
      if initialized s then None else Some (initializeOllama_resume available s)
  | EvTask i r =>
      match aiProcessingPromises s !! i with
      | Some t =>
          match processCloneWithAI_resume r t s with
          | Some (pc', s') =>
              Some (set_aiProcessingPromises
                      (<[i := mkTask (t_clone t) (t_enhanced t) pc']>
                         (aiProcessingPromises s')) s')
          | None => None
          end
      | None => None
      end
  | EvChainStart k =>
      (* [.then(() => this.processAllAITasks())] once the initialization
         promise is fulfilled: [Promise.allSettled] takes the promises the
         array holds now *)
      match chains s !! k with
      | Some WaitInit =>
          if initialized s
          then Some (set_chains
                       (<[k := WaitAllSettled (length (aiProcessingPromises s))]> (chains s)) s)
          else None
      | _ => None
      end
  | EvChainResume k =>
      match chains s !! k with
      | Some (WaitAllSettled n) =>
          let awaited := take n (aiProcessingPromises s) in
          if forallb task_settled awaited then
            match processAllAITasks_resume (map task_status awaited) s with
            | (Ok _, s1) => Some (set_chains (<[k := ChainFulfilled]> (chains s1)) s1)
            | (Throw _, s1) =>
                (* [.catch(err => { ...; this.finalize() })] *)
                match finalize s1 with
                | (Ok _, s2) => Some (set_chains (<[k := ChainFulfilled]> (chains s2)) s2)
                | (Throw _, s2) => Some (set_chains (<[k := ChainRejected]> (chains s2)) s2)
                end
            end
          else None
      | _ => None
      end
  end.

Fixpoint run (es : list event) (s : world) : option world :=
  match es with
  | [] => Some s
  | e :: es' =>
      match step e s with
      | Some s' => run es' s'
      | None => None
      end
  end.

(** *** Frame lemmas: what the reporting methods leave alone *)

(** Everything but the file system, the prompt log and the two counters. *)
Definition core (s : world) :=
  (ollamaService s, options s, clones s, aiProcessingPromises s, statistic s,
   completionPromise s, initialized s, chains s, heap s, next_loc s).

Definition counts (s : world) : nat * nat := (processedCount s, failedCount s).

Lemma core_inv s s' :
  core s' = core s →
  heap s' = heap s ∧ next_loc s' = next_loc s ∧ clones s' = clones s ∧
  aiProcessingPromises s' = aiProcessingPromises s ∧
  initialized s' = initialized s ∧ chains s' = chains s ∧
  completionPromise s' = completionPromise s ∧ statistic s' = statistic s ∧
  options s' = options s ∧ ollamaService s' = ollamaService s.
Proof. intros [= ? ? ? ? ? ? ? ? ? ?]. by repeat split. Qed.

Lemma io_core {A} (m : M Node.FS A) s r s' :
  io m s = (r, s') → core s' = core s ∧ counts s' = counts s ∧ prompts s' = prompts s.
Proof. unfold io. destruct (m (fs s)). by intros [= <- <-]. Qed.

Lemma saveReportSync_core rep s r s' :
  saveReportSync rep s = (r, s') →
  core s' = core s ∧ counts s' = counts s ∧ prompts s' = prompts s.
Proof.
  unfold saveReportSync, bind, try_catch, ret.
  set (p0 := output_or_dot s).
  destruct (negb (JSString.endsWith ".json" p0) && negb (JSString.endsWith ".md" p0)).
  - destruct (io (Node.ensureDirSync p0) s) as [[[]|e] s1] eqn:E1;
      apply io_core in E1 as (E1 & E1' & E1''); [|by intros [= <- <-]].
    assert (options s1 = options s) as Ho by (by injection E1).
    rewrite Ho. destruct (format (options s)).
    + destruct (serializable _ _); [|by intros [= <- <-]].
      destruct (io _ s1) as [[[]|e] s2] eqn:E2; apply io_core in E2 as (E2 & E2' & E2'');
        intros [= <- <-]; repeat split; congruence.
    + destruct (io _ s1) as [[[]|e] s2] eqn:E2; apply io_core in E2 as (E2 & E2' & E2'');
        intros [= <- <-]; repeat split; congruence.
    + by intros [= <- <-].
  - destruct (format (options s)).
    + destruct (serializable _ _); [|by intros [= <- <-]].
      destruct (io _ s) as [[[]|e] s2] eqn:E2; apply io_core in E2 as (E2 & E2' & E2'');
        by intros [= <- <-].
    + destruct (io _ s) as [[[]|e] s2] eqn:E2; apply io_core in E2 as (E2 & E2' & E2'');
        by intros [= <- <-].
    + by intros [= <- <-].
Qed.

Lemma updateReportWithAIResults_core s r s' :
  updateReportWithAIResults s = (r, s') →
  r = Ok tt ∧ core s' = core s ∧ counts s' = counts s ∧ prompts s' = prompts s.
Proof.
  unfold updateReportWithAIResults, try_catch, ret.
  destruct (statistic s) as [st|]; [|by intros [= <- <-]].
  destruct (output_set s); [|by intros [= <- <-]].
  destruct (saveReportSync _ s) as [[[]|e] s1] eqn:E;
    apply saveReportSync_core in E; by intros [= <- <-].
Qed.

Lemma generateAIPrompt_core rep s r s' :
  generateAIPrompt rep s = (r, s') →
  r = Ok tt ∧ core s' = core s ∧ counts s' = counts s.
Proof.
  unfold generateAIPrompt, try_catch, ret.
  destruct (Node.next_fault (fs s)) as [[] fs1]; by intros [= <- <-].
Qed.

Lemma finalize_core s r s' :
  finalize s = (r, s') → core s' = core s ∧ counts s' = counts s.
Proof.
  unfold finalize, bind, ret.
  destruct (statistic s) as [st|]; [|by intros [= <- <-]].
  destruct (high_failure_rate s); [by intros [= <- <-]|].
  set (rep := generateReport st s).
  assert (∃ r1 s1, (if output_set s then saveReportSync rep else λ s0, (Ok (), s0)) s
                   = (r1, s1) ∧ core s1 = core s ∧ counts s1 = counts s)
    as (r1 & s1 & -> & Hc & Hn).
  { destruct (output_set s).
    - destruct (saveReportSync rep s) as [r1 s1] eqn:E.
      apply saveReportSync_core in E as (? & ? & _). eauto.
    - eauto. }
  destruct r1 as [[]|e]; [|by intros [= <- <-]].
  destruct ((0 <? processedCount s1) && output_set s1).
  - intros E. apply generateAIPrompt_core in E as (_ & ? & ?). split; congruence.
  - by intros [= <- <-].
Qed.

Definition count_fulfilled (results : list settle_status) : nat :=
  length (List.filter (fun x => match x with Fulfilled => true | Rejected => false end)
                      results).

Definition count_rejected (results : list settle_status) : nat :=
  length (List.filter (fun x => match x with Fulfilled => false | Rejected => true end)
                      results).

Lemma tally_core n results : ∀ index s r s',
  tally n index results s = (r, s') →
  r = Ok tt ∧ core s' = core s ∧ prompts s' = prompts s ∧
  processedCount s' = processedCount s + count_fulfilled results ∧
  failedCount s' = failedCount s + count_rejected results.
Proof.
  unfold count_fulfilled, count_rejected.
  induction results as [|[] rest IH]; intros index s r s'; cbn [tally].
  - intros [= <- <-]. cbn. repeat split; lia.
  - unfold bind, modify, ret.
    destruct ((index =? n - 1) || ((index + 1) mod 5 =? 0)).
    + destruct (updateReportWithAIResults _) as [r1 s1] eqn:E.
      apply updateReportWithAIResults_core in E as (-> & Hc & Hn & Hp).
      intros H. apply IH in H as (-> & Hc' & Hp' & Hpc & Hfc).
      cbn [List.filter length]. injection Hn as Hn1 Hn2. cbn in Hn1, Hn2, Hp.
      repeat split; [by rewrite Hc', Hc|congruence|lia|lia].
    + intros H. apply IH in H as (-> & Hc' & Hp' & Hpc & Hfc).
      cbn [List.filter length]. cbn in Hpc, Hfc, Hp'.
      repeat split; [by rewrite Hc'|congruence|lia|lia].
  - unfold bind, modify. intros H. apply IH in H as (-> & Hc' & Hp' & Hpc & Hfc).
    cbn [List.filter length]. cbn in Hpc, Hfc, Hp'.
    repeat split; [by rewrite Hc'|congruence|lia|lia].
Qed.

Lemma processAllAITasks_resume_core results s r s' :
  processAllAITasks_resume results s = (r, s') → core s' = core s.
Proof.
  unfold processAllAITasks_resume, bind.
  destruct (tally _ 0 results s) as [r1 s1] eqn:E.
  apply tally_core in E as (-> & Hc & _). intros H.
  apply finalize_core in H as (? & _). congruence.
Qed.

Lemma generateAndSaveInitialReport_core st s r s' :
  generateAndSaveInitialReport st s = (r, s') →
  core s' = core s ∧ counts s' = counts s ∧ prompts s' = prompts s.
Proof.
  unfold generateAndSaveInitialReport, try_catch, throw, ret.
  destruct st as [st|]; [|by intros [= <- <-]].
  destruct (output_set s); [|by intros [= <- <-]].
  destruct (saveReportSync _ s) as [[[]|e] s1] eqn:E;
    apply saveReportSync_core in E; by intros [= <- <-].
Qed.

(** *** What a step of [processCloneWithAI] writes *)

(** [s'] differs from [s] at most in the object at [e], which existed. *)
Definition writes_only (e : loc) (s s' : world) : Prop :=
  (∀ l, l ≠ e → heap s' !! l = heap s !! l) ∧
  (∀ l, is_Some (heap s' !! l) ↔ is_Some (heap s !! l)) ∧
  next_loc s' = next_loc s ∧ clones s' = clones s ∧
  aiProcessingPromises s' = aiProcessingPromises s ∧
  chains s' = chains s ∧ initialized s' = initialized s ∧
  completionPromise s' = completionPromise s ∧
  ollamaService s' = ollamaService s ∧ options s' = options s ∧
  fs s' = fs s ∧ prompts s' = prompts s.

Lemma writes_only_refl e s : writes_only e s s.
Proof. by repeat split. Qed.

Lemma writes_only_trans e s1 s2 s3 :
  writes_only e s1 s2 → writes_only e s2 s3 → writes_only e s1 s3.
Proof.
  intros (H1 & D1 & ?) (H2 & D2 & ?). split; [|split].
  - intros l Hl. by rewrite H2, H1.
  - intros l. by rewrite D2, D1.
  - intuition congruence.
Qed.

Lemma writes_only_assign e k v s : writes_only e s (assign e k v s).
Proof.
  unfold assign. destruct (heap s !! e) as [o|] eqn:E; [|apply writes_only_refl].
  split; [|split]; cbn.
  - intros l Hl. by rewrite lookup_insert_ne.
  - intros l. destruct (decide (e = l)) as [->|Hne].
    + rewrite lookup_insert_eq, E. by split; eauto.
    + by rewrite lookup_insert_ne.
  - by repeat split.
Qed.

Lemma finish_writes made t s :
  (finish made t s).1 = Settled Fulfilled ∧
  writes_only (t_enhanced t) s (finish made t s).2.
Proof.
  unfold finish. cbn. split; [done|].
  destruct made; [apply writes_only_assign|apply writes_only_refl].
Qed.

Lemma stage_explanation_writes made t s :
  writes_only (t_enhanced t) s (stage_explanation made t s).2.
Proof.
  unfold stage_explanation. destruct (_ && _); [apply writes_only_refl|].
  apply finish_writes.
Qed.

Lemma stage_refactoring_writes made t s :
  writes_only (t_enhanced t) s (stage_refactoring made t s).2.
Proof.
  unfold stage_refactoring. destruct (_ && _); [apply writes_only_refl|].
  apply stage_explanation_writes.
Qed.

Lemma stage_semantics_writes t s :
  writes_only (t_enhanced t) s (stage_semantics t s).2.
Proof.
  unfold stage_semantics. destruct (_ && _); [apply writes_only_refl|].
  apply stage_refactoring_writes.
Qed.

Lemma processCloneWithAI_resume_writes r t s pc' s' :
  processCloneWithAI_resume r t s = Some (pc', s') →
  task_settled t = false ∧ writes_only (t_enhanced t) s s'.
Proof.
  unfold processCloneWithAI_resume, task_settled.
  destruct (t_pc t) as [|called|called|called|st]; destruct r; try done.
  - destruct (initialized s); [|done]. destruct (shouldUseAI s).
    + intros H%(inj Some). split; [done|].
      pose proof (stage_semantics_writes t s) as Hw. by rewrite H in Hw.
    + intros [= _ <-]. split; [done|apply writes_only_refl].
  - intros H%(inj Some). split; [done|].
    match type of H with ?x = _ => assert (s' = x.2) as -> by (by rewrite H) end.
    eapply writes_only_trans; [apply writes_only_assign|apply stage_refactoring_writes].
  - intros H%(inj Some). split; [done|].
    match type of H with ?x = _ => assert (s' = x.2) as -> by (by rewrite H) end.
    eapply writes_only_trans; [apply writes_only_assign|apply stage_explanation_writes].
  - intros H%(inj Some). split; [done|].
    match type of H with ?x = _ => assert (s' = x.2) as -> by (by rewrite H) end.
    eapply writes_only_trans; [apply writes_only_assign|apply finish_writes].
Qed.

(** *** What [report] changes *)

Lemma report_effect found st s r s' :
  report found st s = (r, s') →
  heap s' = heap s ∧ next_loc s' = next_loc s ∧ clones s' = clones s ∧
  aiProcessingPromises s' = aiProcessingPromises s ∧
  initialized s' = initialized s ∧
  match r with
  | Ok _ =>
      if 0 <? length (aiProcessingPromises s)
      then chains s' = chains s ++ [WaitInit] ∧
           completionPromise s' = PChain (length (chains s))
      else chains s' = chains s ∧ completionPromise s' = PResolved
  | Throw _ => chains s' = chains s ∧ completionPromise s' = completionPromise s
  end.
Proof.
  unfold report, bind, modify.
  destruct (generateAndSaveInitialReport st (set_statistic st s)) as [[[]|e] s1] eqn:E;
    apply generateAndSaveInitialReport_core in E as (E & _);
    apply core_inv in E as (Hh & Hn & Hc & Ht & Hi & Hch & Hcp & _);
    cbn in Hh, Hn, Hc, Ht, Hi, Hch, Hcp.
  - rewrite Ht. destruct (0 <? length (aiProcessingPromises s));
      intros [= <- <-]; cbn; repeat split; congruence.
  - intros [= <- <-]. repeat split; congruence.
Qed.

(** *** Objects: allocation is fresh and only private copies are written *)

Definition wf (s : world) : Prop :=
  (∀ l, is_Some (heap s !! l) → l < next_loc s) ∧
  (∀ e, e ∈ clones s → e < next_loc s) ∧
  (∀ t, t ∈ aiProcessingPromises s → t_enhanced t ∈ clones s).

Definition objs (s : world) :=
  (heap s, next_loc s, clones s, aiProcessingPromises s).

(** What one step does to the objects that exist. *)
Definition objects_kept (s s' : world) : Prop :=
  wf s' ∧ next_loc s ≤ next_loc s' ∧
  (∀ l, l < next_loc s → l ∉ clones s → heap s' !! l = heap s !! l) ∧
  (∀ e, e ∈ clones s' → e ∈ clones s ∨ next_loc s ≤ e).

Lemma objects_kept_same s s' : wf s → objs s' = objs s → objects_kept s s'.
Proof.
  intros Hwf [= Hh Hn Hc Ht]. unfold objects_kept, wf in *.
  rewrite Hh, Hn, Hc, Ht. repeat split; try tauto; eauto.
Qed.

Lemma alloc_kept o s : wf s → objects_kept s (alloc o s).2.
Proof.
  intros (H1 & H2 & H3). unfold objects_kept, wf. cbn. repeat split.
  - intros l [x Hl]. destruct (decide (next_loc s = l)) as [<-|Hne]; [lia|].
    rewrite lookup_insert_ne in Hl by done.
    assert (l < next_loc s) by eauto. lia.
  - intros e He. specialize (H2 e He). lia.
  - done.
  - lia.
  - intros l Hl _. rewrite lookup_insert_ne; [done|lia].
  - eauto.
Qed.

Lemma collectClone_kept c s : wf s → objects_kept s (collectClone c s).2.
Proof.
  intros (H1 & H2 & H3). unfold objects_kept, wf. cbn. repeat split.
  - intros l [x Hl]. destruct (decide (next_loc s = l)) as [<-|Hne]; [lia|].
    rewrite lookup_insert_ne in Hl by done.
    assert (l < next_loc s) by eauto. lia.
  - intros e [He| ->%list_elem_of_singleton]%elem_of_app; [|lia].
    specialize (H2 e He). lia.
  - intros t [Ht| ->%list_elem_of_singleton]%elem_of_app; apply elem_of_app.
    + left. by apply H3.
    + right. cbn. by apply list_elem_of_singleton.
  - lia.
  - intros l Hl _. rewrite lookup_insert_ne; [done|lia].
  - intros e [He| ->%list_elem_of_singleton]%elem_of_app; eauto.
Qed.

Lemma subscribe_lookup name h :
  subscribe !! name = Some h → name = "CLONE_FOUND" ∧ h = on_CLONE_FOUND.
Proof. unfold subscribe. by intros [<- <-]%lookup_singleton_Some. Qed.

Lemma step_objects e s s' : wf s → step e s = Some s' → objects_kept s s'.
Proof.
  intros Hwf. destruct e as [name payload|o|found st|available|i r|k|k]; cbn [step].
  - destruct (subscribe !! name) as [h|] eqn:Eh.
    + apply subscribe_lookup in Eh as [_ ->]. intros [= <-].
      unfold on_CLONE_FOUND. destruct (ev_clone payload) as [c|].
      * by apply collectClone_kept.
      * by apply objects_kept_same.
    + intros [= <-]. by apply objects_kept_same.
  - intros [= <-]. by apply alloc_kept.
  - intros [= <-]. apply objects_kept_same; [done|].
    destruct (report found st s) as [r s1] eqn:E.
    apply report_effect in E as (? & ? & ? & ? & _). cbn. unfold objs. congruence.
  - destruct (initialized s); [done|]. intros [= <-].
    apply objects_kept_same; [done|]. by destruct available.
  - destruct (aiProcessingPromises s !! i) as [t|] eqn:Et; [|done].
    destruct (processCloneWithAI_resume r t s) as [[pc' s1]|] eqn:E; [|done].
    intros [= <-].
    apply processCloneWithAI_resume_writes in E as (_ & Hh & Hd & Hn & Hc & Ht & _).
    destruct Hwf as (H1 & H2 & H3).
    assert (t_enhanced t ∈ clones s) as Hin.
    { apply H3. eapply list_elem_of_lookup_2; eauto. }
    unfold objects_kept, wf. cbn. rewrite Hn, Hc, Ht. repeat split.
    + intros l Hl. apply H1. by apply Hd.
    + done.
    + intros t' Ht'. apply list_elem_of_lookup in Ht' as [j Hj].
      destruct (decide (i = j)) as [->|Hne].
      * rewrite list_lookup_insert_eq in Hj by (by eapply lookup_lt_Some).
        injection Hj as <-. done.
      * rewrite list_lookup_insert_ne in Hj by done.
        apply H3. by eapply list_elem_of_lookup_2.
    + done.
    + intros l _ Hl. apply Hh. intros ->. done.
    + eauto.
  - destruct (chains s !! k) as [[| | |]|]; try done.
    destruct (initialized s); [|done]. intros [= <-]. by apply objects_kept_same.
  - destruct (chains s !! k) as [[|n| |]|]; try done.
    destruct (forallb _ _); [|done].
    destruct (processAllAITasks_resume _ s) as [[[]|e] s1] eqn:E;
      apply processAllAITasks_resume_core, core_inv in E as (? & ? & ? & ? & _).
    + intros [= <-]. apply objects_kept_same; [done|]. unfold objs. cbn. congruence.
    + destruct (finalize s1) as [[[]|e'] s2] eqn:E2;
        apply finalize_core in E2 as (E2 & _);
        apply core_inv in E2 as (? & ? & ? & ? & _);
        intros [= <-]; (apply objects_kept_same; [done|]); unfold objs; cbn; congruence.
Qed.

Lemma run_objects es : ∀ s s', wf s → run es s = Some s' →
  wf s' ∧ next_loc s ≤ next_loc s' ∧
  (∀ l, l < next_loc s → l ∉ clones s → heap s' !! l = heap s !! l).
Proof.
  induction es as [|e es IH]; cbn [run]; intros s s' Hwf.
  - intros [= <-]. split; [done|split; [lia|done]].
  - destruct (step e s) as [s1|] eqn:E; [|done]. intros Hrun.
    destruct (step_objects _ _ _ Hwf E) as (Hwf1 & Hn1 & Hh1 & Hc1).
    destruct (IH _ _ Hwf1 Hrun) as (Hwf' & Hn' & Hh').
    split; [done|split; [lia|]].
    intros l Hl Hnc. rewrite Hh'; [by apply Hh1|lia|].
    intros [?|?]%Hc1; [done|lia].
Qed.

Lemma constructor_wf opts svc fs0 : wf (constructor opts svc fs0).
Proof.
  unfold wf. cbn. repeat split.
  - intros l [x Hx]. by rewrite lookup_empty in Hx.
  - intros e He. by apply elem_of_nil in He.
  - intros t Ht. by apply elem_of_nil in Ht.
Qed.

(** C4. The reporter leaves the clone it receives in a CLONE_FOUND payload as
    it is. For a reporter in any state [s] it can reach, and a payload whose
    clone is an object of the program (and not one of the reporter's own
    copies): the handler stores a copy at a fresh location, with
    [aiProcessed: false] added, and whatever happens afterwards (AI replies
    arriving, reports, further events) the received object, and every other
    object that existed, the nested location objects the copy shares with the
    original included, is unchanged: the AI results are written to the
    reporter's copies only. *)
Theorem collectClone_leaves_payload_clone_unchanged
  (opts : AIReportOptions) (svc : option OllamaService) (fs0 : Node.FS)
  (es0 : list event) (s : world) (payload : IEventPayload) (clone : loc)
  (es : list event) (s' : world) :
  run es0 (constructor opts svc fs0) = Some s →
  ev_clone payload = Some clone →
  is_Some (heap s !! clone) →
  clone ∉ clones s →
  run (EvEmit "CLONE_FOUND" payload :: es) s = Some s' →
  heap s' !! clone = heap s !! clone ∧
  (∃ s1 e, step (EvEmit "CLONE_FOUND" payload) s = Some s1 ∧
           e ≠ clone ∧ heap s !! e = None ∧
           clones s1 = clones s ++ [e] ∧
           heap s1 !! e = Some (<["aiProcessed" := VBool false]> (object_at clone s)) ∧
           heap s1 !! clone = heap s !! clone) ∧
  (∀ l, is_Some (heap s !! l) → l ∉ clones s → heap s' !! l = heap s !! l).
Proof.
  intros Hreach Hpayload Hclone Hfresh Hrun.
  destruct (run_objects _ _ _ (constructor_wf opts svc fs0) Hreach) as (Hwf & _ & _).
  destruct (run_objects _ _ _ Hwf Hrun) as (_ & _ & Hkept).
  pose proof Hwf as (Hdom & _ & _).
  split; [|split].
  - apply Hkept; [by apply Hdom|done].
  - exists (collectClone clone s).2, (next_loc s).
    assert (heap s !! next_loc s = None) as Hnone.
    { destruct (heap s !! next_loc s) eqn:E; [|done].
      assert (next_loc s < next_loc s) by (apply Hdom; eauto). lia. }
    split; [|split; [|split; [|split; [|split]]]].
    + cbn [step]. unfold subscribe. rewrite lookup_singleton_eq.
      unfold on_CLONE_FOUND. by rewrite Hpayload.
    + intros Heq. rewrite Heq in Hnone. rewrite Hnone in Hclone. by destruct Hclone.
    + done.
    + reflexivity.
    + cbn. apply lookup_insert_eq.
    + cbn. rewrite lookup_insert_ne; [done|].
      intros Heq. rewrite <- Heq, Hnone in Hclone. by destruct Hclone.
  - intros l Hl Hnc. apply Hkept; [by apply Hdom|done].
Qed.

(** *** Promises: settled tasks stay settled, chains only move forward *)


Lemma step_tasks e s s' :
  step e s = Some s' →
  length (aiProcessingPromises s) ≤ length (aiProcessingPromises s') ∧
  (∀ i t, aiProcessingPromises s !! i = Some t → task_settled t = true →
          aiProcessingPromises s' !! i = Some t).
Proof.
  destruct e as [name payload|o|found st|available|i r|k|k]; cbn [step].
  - destruct (subscribe !! name) as [h|] eqn:Eh; [|intros [= <-]; split; [lia|done]].
    apply subscribe_lookup in Eh as [_ ->]. intros [= <-].
    unfold on_CLONE_FOUND. destruct (ev_clone payload) as [c|]; cbn.
    + rewrite length_app. cbn. split; [lia|].
      intros i t Hi _. by apply lookup_app_l_Some.
    + split; [lia|done].
  - intros [= <-]. cbn. split; [lia|done].
  - intros [= <-]. destruct (report found st s) as [r s1] eqn:E.
    apply report_effect in E as (_ & _ & _ & Ht & _). cbn. rewrite Ht.
    split; [lia|done].
  - destruct (initialized s); [done|]. intros [= <-].
    destruct available; cbn; (split; [lia|done]).
  - destruct (aiProcessingPromises s !! i) as [t|] eqn:Et; [|done].
    destruct (processCloneWithAI_resume r t s) as [[pc' s1]|] eqn:E; [|done].
    intros [= <-].
    apply processCloneWithAI_resume_writes in E as (Hns & _ & _ & _ & _ & Ht & _).
    cbn. rewrite Ht, length_insert. split; [lia|].
    intros j t' Hj Hs. rewrite list_lookup_insert_ne; [done|].
    intros ->. rewrite Et in Hj. injection Hj as ->. congruence.
  - destruct (chains s !! k) as [[| | |]|]; try done.
    destruct (initialized s); [|done]. intros [= <-]. cbn. split; [lia|done].
  - destruct (chains s !! k) as [[|n| |]|]; try done.
    destruct (forallb _ _); [|done].
    destruct (processAllAITasks_resume _ s) as [[[]|e] s1] eqn:E;
      apply processAllAITasks_resume_core, core_inv in E as (_ & _ & _ & Ht & _).
    + intros [= <-]. cbn. rewrite Ht. split; [lia|done].
    + destruct (finalize s1) as [[[]|e'] s2] eqn:E2;
        apply finalize_core in E2 as (E2 & _);
        apply core_inv in E2 as (_ & _ & _ & Ht2 & _);
        intros [= <-]; cbn; rewrite Ht2, Ht; (split; [lia|done]).
Qed.

(** How the chain at one index can change in one step. *)
Definition chain_next (s : world) (c c' : chain) : Prop :=
  c' = c ∨
  (c = WaitInit ∧ c' = WaitAllSettled (length (aiProcessingPromises s))) ∨
  (∃ n, c = WaitAllSettled n ∧
        forallb task_settled (take n (aiProcessingPromises s)) = true ∧
        (c' = ChainFulfilled ∨ c' = ChainRejected)).

Lemma insert_chain_lookup k k' x (cs : list chain) c :
  cs !! k = Some c →
  ∃ c', <[k' := x]> cs !! k = Some c' ∧ (c' = c ∨ (k = k' ∧ c' = x)).
Proof.
  intros Hk. destruct (decide (k' = k)) as [->|Hne].
  - rewrite list_lookup_insert_eq by (by eapply lookup_lt_Some). eauto.
  - rewrite list_lookup_insert_ne by done. eauto.
Qed.

Lemma step_chain e s s' k c :
  step e s = Some s' → chains s !! k = Some c →
  ∃ c', chains s' !! k = Some c' ∧ chain_next s c c'.
Proof.
  intros Hstep Hk. unfold chain_next.
  destruct e as [name payload|o|found st|available|i r|k'|k']; cbn [step] in Hstep.
  - destruct (subscribe !! name) as [h|] eqn:Eh; [|injection Hstep as <-; eauto].
    apply subscribe_lookup in Eh as [_ ->]. injection Hstep as <-.
    unfold on_CLONE_FOUND. destruct (ev_clone payload) as [c0|]; cbn; eauto.
  - injection Hstep as <-. cbn. eauto.
  - injection Hstep as <-. destruct (report found st s) as [r s1] eqn:E.
    apply report_effect in E as (_ & _ & _ & _ & _ & E). cbn.
    destruct r as [[]|e].
    + destruct (0 <? length (aiProcessingPromises s)); destruct E as [-> _]; [|eauto].
      exists c. split; [|by left]. by apply lookup_app_l_Some.
    + destruct E as [-> _]. eauto.
  - destruct (initialized s); [done|]. injection Hstep as <-.
    destruct available; cbn; eauto.
  - destruct (aiProcessingPromises s !! i) as [t|] eqn:Et; [|done].
    destruct (processCloneWithAI_resume r t s) as [[pc' s1]|] eqn:E; [|done].
    injection Hstep as <-.
    apply processCloneWithAI_resume_writes in E as (_ & _ & _ & _ & _ & _ & Hc & _).
    cbn. rewrite Hc. eauto.
  - destruct (chains s !! k') as [[| | |]|] eqn:Ek'; try done.
    destruct (initialized s); [|done]. injection Hstep as <-. cbn.
    destruct (insert_chain_lookup k k'
                (WaitAllSettled (length (aiProcessingPromises s))) _ _ Hk)
      as (c' & Hc' & [->|[-> ->]]); [eauto|].
    exists (WaitAllSettled (length (aiProcessingPromises s))). split; [done|].
    right. left. split; [congruence|done].
  - destruct (chains s !! k') as [[|n| |]|] eqn:Ek'; try done.
    destruct (forallb _ _) eqn:Hall; [|done].
    destruct (processAllAITasks_resume _ s) as [[[]|e] s1] eqn:E;
      apply processAllAITasks_resume_core, core_inv in E as (_ & _ & _ & _ & _ & Hch & _).
    + injection Hstep as <-. cbn. rewrite Hch.
      destruct (insert_chain_lookup k k' ChainFulfilled _ _ Hk)
        as (c' & Hc' & [->|[-> ->]]); [eauto|].
      exists ChainFulfilled. split; [done|]. right. right. exists n.
      split; [congruence|eauto].
    + destruct (finalize s1) as [[[]|e'] s2] eqn:E2;
        apply finalize_core in E2 as (E2 & _);
        apply core_inv in E2 as (_ & _ & _ & _ & _ & Hch2 & _);
        injection Hstep as <-; cbn; rewrite Hch2, Hch.
      * destruct (insert_chain_lookup k k' ChainFulfilled _ _ Hk)
          as (c' & Hc' & [->|[-> ->]]); [eauto|].
        exists ChainFulfilled. split; [done|]. right. right. exists n.
        split; [congruence|eauto].
      * destruct (insert_chain_lookup k k' ChainRejected _ _ Hk)
          as (c' & Hc' & [->|[-> ->]]); [eauto|].
        exists ChainRejected. split; [done|]. right. right. exists n.
        split; [congruence|eauto].
Qed.






(** *** The promise [report] leaves in [completionPromise] *)



Definition is_report (e : event) : bool :=
  match e with EvReport _ _ => true | _ => false end.

Lemma step_completionPromise e s s' :
  is_report e = false → step e s = Some s' →
  completionPromise s' = completionPromise s.
Proof.
  intros Hnr. destruct e as [name payload|o|found st|available|i r|k|k];
    try done; cbn [step].
  - destruct (subscribe !! name) as [h|] eqn:Eh; [|by intros [= <-]].
    apply subscribe_lookup in Eh as [_ ->]. intros [= <-].
    unfold on_CLONE_FOUND. by destruct (ev_clone payload).
  - by intros [= <-].
  - destruct (initialized s); [done|]. intros [= <-]. by destruct available.
  - destruct (aiProcessingPromises s !! i) as [t|] eqn:Et; [|done].
    destruct (processCloneWithAI_resume r t s) as [[pc' s1]|] eqn:E; [|done].
    intros [= <-].
    by apply processCloneWithAI_resume_writes in E as (_ & _ & _ & _ & _ & _ & _ & _ & E & _).
  - destruct (chains s !! k) as [[| | |]|]; try done.
    destruct (initialized s); [|done]. by intros [= <-].
  - destruct (chains s !! k) as [[|n| |]|]; try done.
    destruct (forallb _ _); [|done].
    destruct (processAllAITasks_resume _ s) as [[[]|e] s1] eqn:E;
      apply processAllAITasks_resume_core, core_inv in E
        as (_ & _ & _ & _ & _ & _ & Hcp & _).
    + by intros [= <-].
    + destruct (finalize s1) as [[[]|e'] s2] eqn:E2;
        apply finalize_core in E2 as (E2 & _);
        apply core_inv in E2 as (_ & _ & _ & _ & _ & _ & Hcp2 & _);
        intros [= <-]; cbn; congruence.
Qed.


(** *** The refactoring summary, as the report describes it *)

(** The clone at [c] carries a refactoring suggestion. *)
Definition carries_suggestion (h : gmap loc object) (c : loc) : bool :=
  truthy (prop "refactoringSuggestion" (default ∅ (h !! c))).

Definition suggestion_type (h : gmap loc object) (c : loc) : option string :=
  match prop "refactoringSuggestion" (default ∅ (h !! c)) with
  | VSuggestion r => Some (rs_type r)
  | _ => None
  end.

Inductive priority : Type := High | Medium | Low.

(** The bucket the suggestion type stands for. *)
Definition priority_of_type (ty : option string) : priority :=
  match ty with
  | Some ty =>
      if String.eqb ty "extract-function" then High
      else if String.eqb ty "extract-class" then High
      else if String.eqb ty "create-module" then Medium
      else Low
  | None => Low
  end.

Definition priority_eqb (p q : priority) : bool :=
  match p, q with
  | High, High | Medium, Medium | Low, Low => true
  | _, _ => false
  end.

(** How many of the clones [cs] carry a suggestion of priority [p]. *)
Definition count_priority (h : gmap loc object) (p : priority) (cs : list loc) : nat :=
  length (List.filter
            (fun c => carries_suggestion h c &&
                      priority_eqb (priority_of_type (suggestion_type h c)) p) cs).

Lemma count_clone_spec h high medium low c :
  count_clone h (high, medium, low) c =
  (high + count_priority h High [c],
   medium + count_priority h Medium [c],
   low + count_priority h Low [c]).
Proof.
  unfold count_clone, count_priority, carries_suggestion, suggestion_type. cbn.
  destruct (prop "refactoringSuggestion" (default ∅ (h !! c))) as [| | | | |a|r] eqn:E;
    cbn; try (f_equal; [f_equal|]; lia).
  - destruct b; cbn; f_equal; try f_equal; lia.
  - destruct (negb (n =? 0)%Z); cbn; f_equal; try f_equal; lia.
  - destruct (negb (String.eqb s "")); cbn; f_equal; try f_equal; lia.
  - destruct (String.eqb (rs_type r) "extract-function"); cbn;
      [f_equal; [f_equal|]; lia|].
    destruct (String.eqb (rs_type r) "extract-class"); cbn;
      [f_equal; [f_equal|]; lia|].
    destruct (String.eqb (rs_type r) "create-module"); cbn;
      f_equal; try f_equal; lia.
Qed.

Lemma count_priority_cons h p c cs :
  count_priority h p (c :: cs) = count_priority h p [c] + count_priority h p cs.
Proof.
  unfold count_priority. cbn.
  destruct (carries_suggestion h c && _); reflexivity.
Qed.

Lemma fold_count_clone h cs : ∀ high medium low,
  fold_left (count_clone h) cs (high, medium, low) =
  (high + count_priority h High cs,
   medium + count_priority h Medium cs,
   low + count_priority h Low cs).
Proof.
  induction cs as [|c cs IH]; intros high medium low.
  - cbn. f_equal; [f_equal|]; unfold count_priority; cbn; lia.
  - cbn [fold_left]. rewrite count_clone_spec, IH.
    rewrite (count_priority_cons h High c cs), (count_priority_cons h Medium c cs),
      (count_priority_cons h Low c cs).
    f_equal; [f_equal|]; lia.
Qed.

Lemma count_priority_partition h cs :
  count_priority h High cs + count_priority h Medium cs + count_priority h Low cs =
  length (List.filter (carries_suggestion h) cs).
Proof.
  induction cs as [|c cs IH]; [reflexivity|].
  rewrite !(count_priority_cons h _ c cs). cbn [List.filter].
  assert (count_priority h High [c] + count_priority h Medium [c] +
          count_priority h Low [c] = if carries_suggestion h c then 1 else 0) as Hc.
  { unfold count_priority. cbn.
    destruct (carries_suggestion h c); [|reflexivity].
    by destruct (priority_of_type (suggestion_type h c)). }
  destruct (carries_suggestion h c); cbn [length]; lia.
Qed.

Lemma priority_of_type_cases ty :
  (priority_of_type (Some ty) = High ↔
     (ty = "extract-function" ∨ ty = "extract-class")) ∧
  (priority_of_type (Some ty) = Medium ↔ ty = "create-module") ∧
  (priority_of_type (Some ty) = Low ↔
     (ty ≠ "extract-function" ∧ ty ≠ "extract-class" ∧ ty ≠ "create-module")).
Proof.
  cbn.
  destruct (String.eqb_spec ty "extract-function") as [->|H1];
    [intuition congruence|].
  destruct (String.eqb_spec ty "extract-class") as [->|H2];
    [intuition congruence|].
  destruct (String.eqb_spec ty "create-module") as [->|H3];
    intuition congruence.
Qed.

(** C9. In the report [generateReport] builds, [totalSuggestions] is the sum of
    the three priority counters and the number of collected clones that carry
    a refactoring suggestion; each counter is the number of such clones whose
    suggestion type falls in its bucket ('extract-function' and
    'extract-class' high, 'create-module' medium, anything else low), and the
    buckets are disjoint and exhaustive. *)
Theorem generateReport_refactoringSummary (st : IStatistic) (s : world) :
  let rs := refactoringSummary (generateReport st s) in
  totalSuggestions rs = highPriority rs + mediumPriority rs + lowPriority rs ∧
  totalSuggestions rs = length (List.filter (carries_suggestion (heap s)) (clones s)) ∧
  highPriority rs = count_priority (heap s) High (clones s) ∧
  mediumPriority rs = count_priority (heap s) Medium (clones s) ∧
  lowPriority rs = count_priority (heap s) Low (clones s) ∧
  ∀ ty,
    (priority_of_type (Some ty) = High ↔
       (ty = "extract-function" ∨ ty = "extract-class")) ∧
    (priority_of_type (Some ty) = Medium ↔ ty = "create-module") ∧
    (priority_of_type (Some ty) = Low ↔
       (ty ≠ "extract-function" ∧ ty ≠ "extract-class" ∧ ty ≠ "create-module")).
Proof.
  cbn. unfold calculateRefactoringSummary.
  rewrite fold_count_clone. cbn.
  pose proof (count_priority_partition (heap s) (clones s)) as Hpart.
  split; [reflexivity|]. split; [lia|]. split; [reflexivity|].
  split; [reflexivity|]. split; [reflexivity|].
  exact priority_of_type_cases.
Qed.

(** *** Subscription *)

(** C7. [subscribe()] returns a map whose only key is 'CLONE_FOUND'. Its
    handler appends one clone to the collection, a fresh copy of the payload's
    clone with [aiProcessed: false], when the payload carries a clone, and
    leaves the reporter as it is when the payload carries none; so the
    collection grows exactly when there is a clone in the payload. *)
Theorem subscribe_only_CLONE_FOUND :
  dom subscribe = ({[ "CLONE_FOUND" ]} : gset string) ∧
  ∃ h, subscribe !! "CLONE_FOUND" = Some h ∧
    ∀ (payload : IEventPayload) (s : world),
      (∀ clone, ev_clone payload = Some clone →
         (h payload s).1 = Ok tt ∧
         clones (h payload s).2 = clones s ++ [next_loc s] ∧
         heap (h payload s).2 !! next_loc s =
           Some (<["aiProcessed" := VBool false]> (object_at clone s))) ∧
      (ev_clone payload = None → h payload s = (Ok tt, s)) ∧
      (is_Some (ev_clone payload) ↔
         length (clones (h payload s).2) = S (length (clones s))) ∧
      (ev_clone payload = None ↔ clones (h payload s).2 = clones s).
Proof.
  split.
  - unfold subscribe. by rewrite dom_singleton_L.
  - exists on_CLONE_FOUND. split; [apply lookup_singleton_eq|].
    intros payload s. unfold on_CLONE_FOUND.
    destruct (ev_clone payload) as [clone|]; cbn.
    + split; [|split; [done|split]].
      * intros c [= <-]. repeat split. apply lookup_insert_eq.
      * split; [intros _|eauto]. rewrite length_app. cbn. lia.
      * split; [done|]. intros H. apply (f_equal length) in H.
        rewrite length_app in H. cbn in H. lia.
    + split; [done|split; [done|split]].
      * split; [by intros [? ?]|lia].
      * done.
Qed.

(** *** Finalizing *)

(** Where [saveReportSync] writes and what. *)
Definition directory_output (s : world) : bool :=
  negb (JSString.endsWith ".json" (output_or_dot s)) &&
  negb (JSString.endsWith ".md" (output_or_dot s)).

Definition report_path (s : world) : string :=
  if directory_output s then output_or_dot s +:+ "/jscpd-ai-report.json"
  else output_or_dot s.

Definition report_file (s : world) : string :=
  match format (options s) with
  | FMarkdown => JSString.replace ".json" ".md" (report_path s)
  | _ => report_path s
  end.

Definition report_text (s : world) (rep : AIReport) : string :=
  match format (options s) with
  | FMarkdown => generateMarkdownReport (heap s) rep
  | _ => stringify (heap s) rep
  end.

(** The file system lets [saveReportSync] through: no failure is pending; an
    output directory is there, or the directory it is to be made in is (so
    that no file stands in the way of [ensureDirSync]); the report file is
    not a directory; and the directory the report file goes to is there, or
    is the output directory that [saveReportSync] makes. *)
Definition fs_accepts (s : world) : Prop :=
  Node.faults (fs s) = [] ∧
  (directory_output s = true →
     Node.files (fs s) !! output_or_dot s = None ∧ report_file s ≠ output_or_dot s ∧
     ((output_or_dot s ∈ Node.dirs (fs s)) ∨
      (dirname (output_or_dot s) ∈ Node.dirs (fs s)))) ∧
  (report_file s ∉ Node.dirs (fs s)) ∧
  ((dirname (report_file s) ∈ Node.dirs (fs s)) ∨
   (directory_output s = true ∧ dirname (report_file s) = output_or_dot s)).

(** [JSON.stringify] returns on the report (asked of the format ['json']
    only). *)
Definition prints (s : world) (rep : AIReport) : Prop :=
  format (options s) = FJson → serializable (heap s) rep = true.

Lemma io_on_fs {A} (m : M Node.FS A) s r fs' :
  m (fs s) = (r, fs') → io m s = (r, set_fs fs' s).
Proof. unfold io. by intros ->. Qed.

Lemma saveReportSync_writes rep s :
  fs_accepts s → prints s rep → format (options s) ≠ FHtml →
  ∃ s', saveReportSync rep s = (Ok tt, s') ∧
        Node.files (fs s') !! report_file s = Some (report_text s rep) ∧
        Node.faults (fs s') = [] ∧
        core s' = core s ∧ counts s' = counts s ∧ prompts s' = prompts s.
Proof.
  intros (Hf & Hdir & Hnd & Hparent) Hprint Hfmt.
  unfold prints in Hprint.
  unfold saveReportSync, report_file, report_text, report_path, directory_output in *.
  unfold bind, try_catch, ret.
  destruct (negb (JSString.endsWith ".json" (output_or_dot s)) &&
            negb (JSString.endsWith ".md" (output_or_dot s))).
  - destruct (Hdir eq_refl) as (Hnone & Hne & _).
    rewrite (io_on_fs _ _ _ _ (Node.ensureDirSync_ok _ _ Hf Hnone)).
    cbn [options set_fs heap].
    assert (∀ p, p ≠ output_or_dot s → p ∉ Node.dirs (fs s) →
              p ∉ {[output_or_dot s]} ∪ Node.dirs (fs s)) as Hfree.
    { intros p Hp Hd [H%elem_of_singleton|?]%elem_of_union; done. }
    assert (∀ p, (p ∈ Node.dirs (fs s) ∨ true = true ∧ p = output_or_dot s) →
              p ∈ {[output_or_dot s]} ∪ Node.dirs (fs s)) as Hin.
    { intros p [?|[_ ->]];
        [by apply elem_of_union_r|by apply elem_of_union_l, elem_of_singleton]. }
    destruct (format (options s)); [| |done].
    + rewrite Hprint by done.
      erewrite io_on_fs;
        [|apply Node.writeFileSync_ok; cbn; [done|by apply Hfree|by apply Hin]].
      eexists. split; [reflexivity|]. cbn. split; [apply lookup_insert_eq|done].
    + erewrite io_on_fs;
        [|apply Node.writeFileSync_ok; cbn; [done|by apply Hfree|by apply Hin]].
      eexists. split; [reflexivity|]. cbn. split; [apply lookup_insert_eq|done].
  - assert (∀ p, (p ∈ Node.dirs (fs s) ∨ false = true ∧ p = output_or_dot s) →
              p ∈ Node.dirs (fs s)) as Hin by (by intros p [?|[? _]]).
    destruct (format (options s)); [| |done].
    + rewrite Hprint by done.
      rewrite (io_on_fs _ _ _ _ (Node.writeFileSync_ok _ _ _ _ Hf Hnd (Hin _ Hparent))).
      eexists. split; [reflexivity|]. cbn. split; [apply lookup_insert_eq|done].
    + rewrite (io_on_fs _ _ _ _ (Node.writeFileSync_ok _ _ _ _ Hf Hnd (Hin _ Hparent))).
      eexists. split; [reflexivity|]. cbn. split; [apply lookup_insert_eq|done].
Qed.

Lemma generateAIPrompt_generates rep s :
  Node.faults (fs s) = [] →
  ∃ entry, generateAIPrompt rep s =
           (Ok tt, set_prompts (prompts s ++ [entry]) (set_fs (fs s) s)).
Proof.
  intros Hf. unfold generateAIPrompt, try_catch, Node.next_fault. rewrite Hf.
  eexists. reflexivity.
Qed.

Lemma high_failure_rate_spec s :
  high_failure_rate s = true ↔ length (clones s) < 2 * failedCount s.
Proof. unfold high_failure_rate. apply Nat.ltb_lt. Qed.

(** What [finalize] does, with the statistic in place (that is, once
    [report] has run), [failedCount] and [processedCount] being the numbers of
    rejected and of fulfilled task promises counted by [processAllAITasks]:
    - if [failedCount] exceeds half of the number of collected clones,
      [finalize] returns at once: no file is written, no guide is generated;
    - without an output path it writes nothing either;
    - otherwise, for the formats ['json'] and ['markdown'], a report that can
      be printed and a file system that accepts the write, the final report
      is in the report file when [finalize] returns, and the refactoring
      guide is generated exactly when [processedCount] is positive. *)
Lemma finalize_outcome (s : world) (st : IStatistic) :
  statistic s = Some st →
  (high_failure_rate s = true ↔ length (clones s) < 2 * failedCount s) ∧
  (high_failure_rate s = true → finalize s = (Ok tt, s)) ∧
  (output_set s = false → finalize s = (Ok tt, s)) ∧
  (high_failure_rate s = false → output_set s = true →
   format (options s) ≠ FHtml → fs_accepts s → prints s (generateReport st s) →
   ∃ s', finalize s = (Ok tt, s') ∧
         Node.files (fs s') !! report_file s =
           Some (report_text s (generateReport st s)) ∧
         (0 < processedCount s → ∃ entry, prompts s' = prompts s ++ [entry]) ∧
         (processedCount s = 0 → prompts s' = prompts s)).
Proof.
  intros Hst. split; [apply high_failure_rate_spec|]. split; [|split].
  - intros Hhigh. unfold finalize. by rewrite Hst, Hhigh.
  - intros Hout. unfold finalize, bind, ret. rewrite Hst, Hout.
    destruct (high_failure_rate s); [done|]. cbn.
    rewrite Hout. by rewrite andb_false_r.
  - intros Hlow Hout Hfmt Hacc Hprint. unfold finalize, bind. rewrite Hst, Hlow, Hout.
    destruct (saveReportSync_writes (generateReport st s) s Hacc Hprint Hfmt)
      as (s1 & -> & Hfile & Hf1 & Hc1 & Hn1 & Hp1).
    apply core_inv in Hc1 as (_ & _ & _ & _ & _ & _ & _ & _ & Ho1 & _).
    injection Hn1 as Hpc1 _.
    assert (output_set s1 = true) as -> by (unfold output_set in *; by rewrite Ho1).
    rewrite Hpc1. destruct (0 <? processedCount s) eqn:Hpos; cbn [andb].
    + destruct (generateAIPrompt_generates (generateReport st s) s1 Hf1) as (entry & ->).
      eexists. split; [reflexivity|]. cbn. split; [done|]. split.
      * intros _. exists entry. by rewrite Hp1.
      * apply Nat.ltb_lt in Hpos. lia.
    + eexists. split; [reflexivity|]. split; [done|]. split.
      * apply Nat.ltb_ge in Hpos. lia.
      * done.
Qed.

(** *** Reachable worlds *)

(** The clone a step hands to the reporter: the payload's clone of a
    CLONE_FOUND event. *)
Definition delivered (e : event) : option loc :=
  match e with
  | EvEmit name payload =>
      if String.eqb name "CLONE_FOUND" then ev_clone payload else None
  | _ => None
  end.

Definition config (s : world) := (options s, initialized s, ollamaService s).

(** A step that leaves the objects and the configuration alone; [failedCount]
    grows by the rejected promises among the first [n]. *)
Definition quiet (s s' : world) : Prop :=
  objs s' = objs s ∧ config s' = config s ∧
  ∃ n, failedCount s' =
       failedCount s +
       count_rejected (map task_status (take n (aiProcessingPromises s))).

Lemma quiet_zero s s' :
  failedCount s' = failedCount s →
  ∃ n, failedCount s' =
       failedCount s +
       count_rejected (map task_status (take n (aiProcessingPromises s))).
Proof. intros ->. exists 0. rewrite take_0. unfold count_rejected. cbn. lia. Qed.

Lemma report_quiet found st s r s' : report found st s = (r, s') → quiet s s'.
Proof.
  unfold report, bind, modify.
  destruct (generateAndSaveInitialReport st (set_statistic st s)) as [[[]|e] s1] eqn:E;
    apply generateAndSaveInitialReport_core in E as (E & En & _);
    injection En as _ Hf; cbn in Hf;
    apply core_inv in E as (Hh & Hn & Hc & Ht & Hi & _ & _ & _ & Ho & Hs);
    cbn in Hh, Hn, Hc, Ht, Hi, Ho, Hs.
  - destruct (0 <? length (aiProcessingPromises s1)); intros [= <- <-];
      (split; [|split; [|by apply quiet_zero]]); unfold objs, config; cbn; congruence.
  - intros [= <- <-].
    split; [|split; [|by apply quiet_zero]]; unfold objs, config; congruence.
Qed.

Lemma chain_resume_quiet n s r s1 :
  processAllAITasks_resume (map task_status (take n (aiProcessingPromises s))) s = (r, s1) →
  core s1 = core s ∧
  failedCount s1 =
    failedCount s + count_rejected (map task_status (take n (aiProcessingPromises s))).
Proof.
  unfold processAllAITasks_resume, bind.
  destruct (tally _ 0 _ s) as [r1 s2] eqn:E.
  apply tally_core in E as (-> & Hc & _ & _ & Hf). intros H.
  apply finalize_core in H as (Hc' & Hn). injection Hn as _ Hf'.
  split; congruence.
Qed.

Lemma step_shape e s s' :
  step e s = Some s' →
  match e with
  | EvEmit _ _ =>
      match delivered e with
      | Some clone => s' = (collectClone clone s).2
      | None => s' = s
      end
  | EvAlloc o => s' = (alloc o s).2
  | EvInit available =>
      initialized s = false ∧ s' = initializeOllama_resume available s
  | EvTask i r =>
      ∃ t pc' s1,
        aiProcessingPromises s !! i = Some t ∧
        processCloneWithAI_resume r t s = Some (pc', s1) ∧
        s' = set_aiProcessingPromises
               (<[i := mkTask (t_clone t) (t_enhanced t) pc']> (aiProcessingPromises s1)) s1
  | EvReport _ _ | EvChainStart _ | EvChainResume _ => quiet s s'
  end.
Proof.
  destruct e as [name payload|o|found st|available|i r|k|k]; cbn [step delivered].
  - destruct (String.eqb_spec name "CLONE_FOUND") as [->|Hne].
    + unfold subscribe. rewrite lookup_singleton_eq. unfold on_CLONE_FOUND.
      destruct (ev_clone payload); by intros [= <-].
    + unfold subscribe. rewrite lookup_singleton_ne by done. by intros [= <-].
  - by intros [= <-].
  - intros [= <-]. destruct (report found st s) as [r s1] eqn:E.
    by apply report_quiet in E.
  - destruct (initialized s); [done|]. by intros [= <-].
  - destruct (aiProcessingPromises s !! i) as [t|] eqn:Et; [|done].
    destruct (processCloneWithAI_resume r t s) as [[pc' s1]|] eqn:E; [|done].
    intros [= <-]. by exists t, pc', s1.
  - destruct (chains s !! k) as [[| | |]|]; try done.
    destruct (initialized s); [|done]. intros [= <-].
    split; [done|split; [done|]]. by apply quiet_zero.
  - destruct (chains s !! k) as [[|n| |]|]; try done.
    destruct (forallb _ _); [|done].
    destruct (processAllAITasks_resume _ s) as [[[]|e] s1] eqn:E;
      apply chain_resume_quiet in E as (Hc & Hf);
      apply core_inv in Hc as (? & ? & ? & ? & ? & _ & _ & _ & ? & ?).
    + intros [= <-].
      split; [|split; [|by exists n]]; unfold objs, config; cbn; congruence.
    + destruct (finalize s1) as [[[]|e'] s2] eqn:E2;
        apply finalize_core in E2 as (E2 & En);
        injection En as _ Hf2;
        apply core_inv in E2 as (? & ? & ? & ? & ? & _ & _ & _ & ? & ?);
        intros [= <-];
        (split; [|split; [|exists n; cbn; congruence]]);
        unfold objs, config; cbn; congruence.
Qed.

(** [processCloneWithAI] leaves the configuration and the counters alone. *)
Lemma assign_options l k v s : options (assign l k v s) = options s.
Proof. unfold assign. by destruct (heap s !! l). Qed.

Lemma assign_initialized l k v s : initialized (assign l k v s) = initialized s.
Proof. unfold assign. by destruct (heap s !! l). Qed.

Lemma assign_has_service l k v s : has_service (assign l k v s) = has_service s.
Proof. unfold assign. by destruct (heap s !! l). Qed.

Lemma assign_failedCount l k v s : failedCount (assign l k v s) = failedCount s.
Proof. unfold assign. by destruct (heap s !! l). Qed.

(** The [aiProcessed] property of the object at [l]. *)
Definition mark (s : world) (l : loc) : value := prop "aiProcessed" (object_at l s).

Lemma mark_assign_aiProcessed l v s :
  is_Some (heap s !! l) → mark (assign l "aiProcessed" v s) l = v.
Proof.
  intros [o Ho]. unfold mark, object_at, prop, assign. rewrite Ho. cbn.
  rewrite (lookup_insert_eq (heap s) l). cbn. unfold object.
  by rewrite lookup_insert_eq.
Qed.

Lemma mark_assign_other l k v s :
  k ≠ "aiProcessed" → mark (assign l k v s) l = mark s l.
Proof.
  intros Hk. unfold mark, object_at, prop, assign.
  destruct (heap s !! l) as [o|] eqn:Ho; [|by rewrite Ho].
  cbn. rewrite (lookup_insert_eq (heap s) l). cbn. unfold object.
  by rewrite lookup_insert_ne.
Qed.

Lemma assign_is_Some l k v s l' :
  is_Some (heap (assign l k v s) !! l') ↔ is_Some (heap s !! l').
Proof. by destruct (writes_only_assign l k v s) as (_ & H & _). Qed.

(** [this.options] asks for at least one kind of AI call. *)
Definition any_option (o : AIReportOptions) : bool :=
  includeSemanticAnalysis o || includeRefactoringSuggestions o || includeExplanations o.

(** Where a task stands and what its copy of the clone says. *)
Definition task_ok (s : world) (t : task) : Prop :=
  is_Some (heap s !! t_enhanced t) ∧
  match t_pc t with
  | AwaitInit => mark s (t_enhanced t) = VBool false
  | AwaitSemantics _ | AwaitRefactoring _ | AwaitExplanation _ =>
      mark s (t_enhanced t) = VBool false ∧ initialized s = true ∧
      has_service s = true ∧ any_option (options s) = true
  | Settled st =>
      st = Fulfilled ∧ initialized s = true ∧
      mark s (t_enhanced t) = VBool (has_service s && any_option (options s))
  end.

Lemma task_ok_same s s' t :
  heap s' !! t_enhanced t = heap s !! t_enhanced t → config s' = config s →
  task_ok s t → task_ok s' t.
Proof.
  intros Hh [= Ho Hi Hs]. unfold task_ok, mark, object_at, has_service.
  by rewrite Hh, Ho, Hi, Hs.
Qed.

Ltac stage_options s HS HR HE :=
  unfold stage_semantics, stage_refactoring, stage_explanation, finish;
  rewrite ?assign_options, ?assign_has_service;
  destruct (includeSemanticAnalysis (options s)) eqn:HS,
           (includeRefactoringSuggestions (options s)) eqn:HR,
           (includeExplanations (options s)) eqn:HE.

Ltac task_ok_now :=
  unfold task_ok, any_option in *; cbn;
  rewrite ?assign_options, ?assign_initialized, ?assign_has_service;
  (split; [by rewrite ?assign_is_Some|]);
  rewrite ?mark_assign_aiProcessed by (by rewrite ?assign_is_Some);
  rewrite ?mark_assign_other by done;
  repeat match goal with H : _ = _ |- _ => rewrite H end;
  try done.

Lemma processCloneWithAI_resume_ok r t s pc' s' :
  task_ok s t → processCloneWithAI_resume r t s = Some (pc', s') →
  task_ok s' (mkTask (t_clone t) (t_enhanced t) pc').
Proof.
  intros [Hdom Hpc]. unfold processCloneWithAI_resume.
  destruct (t_pc t) as [|called|called|called|st]; destruct r; try done.
  - destruct (initialized s) eqn:Hi; [|done].
    change (shouldUseAI s) with (has_service s).
    stage_options s HS HR HE; destruct (has_service s) eqn:Hsvc; cbn;
      intros [= <- <-]; task_ok_now.
  - destruct Hpc as (Hm & Hi & Hsvc & Hany). unfold any_option in Hany.
    stage_options s HS HR HE; rewrite ?Hsvc; cbn; intros [= <- <-];
      try (rewrite HS, HR, HE in Hany; discriminate Hany); task_ok_now.
  - destruct Hpc as (Hm & Hi & Hsvc & Hany). unfold any_option in Hany.
    stage_options s HS HR HE; rewrite ?Hsvc; cbn; intros [= <- <-];
      try (rewrite HS, HR, HE in Hany; discriminate Hany); task_ok_now.
  - destruct Hpc as (Hm & Hi & Hsvc & Hany). unfold any_option in Hany.
    stage_options s HS HR HE; rewrite ?Hsvc; cbn; intros [= <- <-];
      try (rewrite HS, HR, HE in Hany; discriminate Hany); task_ok_now.
Qed.

Lemma processCloneWithAI_resume_failedCount r t s pc' s' :
  processCloneWithAI_resume r t s = Some (pc', s') → failedCount s' = failedCount s.
Proof.
  unfold processCloneWithAI_resume, stage_semantics, stage_refactoring,
    stage_explanation, finish.
  destruct (t_pc t); destruct r; try done;
    repeat match goal with
           | |- context [if ?b then _ else _] => destruct b
           end;
    try done; intros [= <- <-]; cbn; by rewrite ?assign_failedCount.
Qed.

(** What holds of every world a reporter can reach: its copies are distinct
    objects, one per task and in the order of the tasks; no promise was
    rejected; and every task is where its copy says. *)
Definition inv (s : world) : Prop :=
  wf s ∧ t_enhanced <$> aiProcessingPromises s = clones s ∧ NoDup (clones s) ∧
  failedCount s = 0 ∧ ∀ t, t ∈ aiProcessingPromises s → task_ok s t.

Lemma count_rejected_fulfilled (ts : list task) :
  (∀ t, t ∈ ts → task_status t = Fulfilled) →
  count_rejected (map task_status ts) = 0.
Proof.
  unfold count_rejected. induction ts as [|t ts IH]; intros H; [done|].
  cbn. rewrite (H t) by (by left). apply IH. intros t' Ht'. apply H. by right.
Qed.

Lemma task_ok_status s t : task_ok s t → task_status t = Fulfilled.
Proof.
  intros [_ H]. unfold task_status. destruct (t_pc t); try done. by destruct H.
Qed.

Lemma constructor_inv opts svc fs0 : inv (constructor opts svc fs0).
Proof.
  split; [apply constructor_wf|]. cbn. split; [done|]. split; [apply NoDup_nil_2|].
  split; [done|]. intros t Ht. by apply elem_of_nil in Ht.
Qed.

Lemma step_inv e s s' : inv s → step e s = Some s' → inv s'.
Proof.
  intros (Hwf & Hmap & Hnd & Hfc & Htasks) Hstep.
  pose proof (step_objects _ _ _ Hwf Hstep) as (Hwf' & _).
  split; [exact Hwf'|]. clear Hwf'.
  destruct Hwf as (Hdom & Hclones & _).
  assert (∀ t, t ∈ aiProcessingPromises s → t_enhanced t < next_loc s) as Hlt.
  { intros t Ht. apply Hclones. rewrite <- Hmap. by apply list_elem_of_fmap_2. }
  assert (∀ s1, objs s1 = objs s → config s1 = config s →
            failedCount s1 = 0 →
            t_enhanced <$> aiProcessingPromises s1 = clones s1 ∧ NoDup (clones s1) ∧
            failedCount s1 = 0 ∧ ∀ t, t ∈ aiProcessingPromises s1 → task_ok s1 t)
    as Hsame.
  { intros s1 [= Hh Hn Hc Ht] Hcf Hf. rewrite Hc, Ht.
    split; [done|]. split; [done|]. split; [done|].
    intros t Hin. apply (task_ok_same s); [by rewrite Hh|done|by apply Htasks]. }
  apply step_shape in Hstep.
  destruct e as [name payload|o|found st|available|i r|k|k].
  - destruct (delivered (EvEmit name payload)) as [clone|]; subst s';
      [|by apply Hsame].
    cbn. rewrite fmap_app, Hmap. cbn. split; [done|]. split; [|split; [done|]].
    + apply NoDup_app. split; [done|]. split; [|apply NoDup_singleton].
      intros x Hx ->%list_elem_of_singleton. specialize (Hclones _ Hx). lia.
    + intros t [Ht| ->%list_elem_of_singleton]%elem_of_app.
      * apply (task_ok_same s); [|done|by apply Htasks]. cbn.
        rewrite lookup_insert_ne; [done|]. specialize (Hlt _ Ht). lia.
      * split; cbn.
        -- rewrite lookup_insert_eq. eauto.
        -- unfold mark, object_at, prop. cbn.
           rewrite (lookup_insert_eq (heap s) (next_loc s)). cbn. unfold object.
           by rewrite lookup_insert_eq.
  - subst s'. cbn. split; [done|]. split; [done|]. split; [done|].
    intros t Ht. apply (task_ok_same s); [|done|by apply Htasks]. cbn.
    rewrite lookup_insert_ne; [done|]. specialize (Hlt _ Ht). lia.
  - destruct Hstep as (Ho & Hq & n & Hf). apply Hsame; [exact Ho|exact Hq|].
    rewrite Hf, Hfc. apply count_rejected_fulfilled.
    intros t Ht%subseteq_take. eapply task_ok_status. by apply Htasks.
  - destruct Hstep as [Hi ->].
    assert (∀ t, t ∈ aiProcessingPromises s →
              is_Some (heap s !! t_enhanced t) ∧ t_pc t = AwaitInit ∧
              mark s (t_enhanced t) = VBool false) as Hwait.
    { intros t Ht. destruct (Htasks t Ht) as [Hd Hpc].
      revert Hpc. destruct (t_pc t); intros Hpc; [done|..];
        destruct Hpc as (_ & ? & _); congruence. }
    assert (∀ s1, heap s1 = heap s → aiProcessingPromises s1 = aiProcessingPromises s →
              ∀ t, t ∈ aiProcessingPromises s1 → task_ok s1 t) as Hkeep.
    { intros s1 Hh Ht t Hin. rewrite Ht in Hin.
      destruct (Hwait t Hin) as (Hd & Hpc & Hm).
      unfold task_ok, mark, object_at in *. rewrite Hpc, Hh. done. }
    unfold initializeOllama_resume.
    destruct available.
    + split; [done|split; [done|split; [done|]]].
      by apply (Hkeep (set_initialized true s)).
    + split; [done|split; [done|split; [done|]]].
      by apply (Hkeep (set_initialized true (set_ollamaService None s))).
  - destruct Hstep as (t & pc' & s1 & Hi & Hres & ->).
    pose proof (list_elem_of_lookup_2 _ _ _ Hi) as Hin.
    pose proof (processCloneWithAI_resume_ok _ _ _ _ _ (Htasks t Hin) Hres) as Hnew.
    pose proof Hres as Hw. apply processCloneWithAI_resume_writes in Hw
      as (_ & Hother & _ & _ & Hc & Ht & _ & Hini & _ & Hsvc & Hopt & _).
    cbn. rewrite Ht, Hc. split; [|split; [done|split]].
    + rewrite list_fmap_insert. cbn. rewrite <- Hmap.
      apply list_insert_id. by rewrite list_lookup_fmap, Hi.
    + by rewrite (processCloneWithAI_resume_failedCount _ _ _ _ _ Hres).
    + intros t' Ht'. apply list_elem_of_lookup in Ht' as [j Hj].
      destruct (decide (i = j)) as [<-|Hne].
      * rewrite list_lookup_insert_eq in Hj by (by eapply lookup_lt_Some).
        injection Hj as <-. exact Hnew.
      * rewrite list_lookup_insert_ne in Hj by done.
        apply (task_ok_same s);
          [|unfold config; cbn; congruence|by eapply Htasks, list_elem_of_lookup_2].
        cbn. apply Hother. intros Heq. apply Hne.
        eapply (NoDup_lookup (clones s)); [done| |].
        -- by rewrite <- Hmap, list_lookup_fmap, Hi.
        -- rewrite <- Hmap, list_lookup_fmap, Hj. cbn. by rewrite Heq.
  - destruct Hstep as (Ho & Hq & n & Hf). apply Hsame; [exact Ho|exact Hq|].
    rewrite Hf, Hfc. apply count_rejected_fulfilled.
    intros t Ht%subseteq_take. eapply task_ok_status. by apply Htasks.
  - destruct Hstep as (Ho & Hq & n & Hf). apply Hsame; [exact Ho|exact Hq|].
    rewrite Hf, Hfc. apply count_rejected_fulfilled.
    intros t Ht%subseteq_take. eapply task_ok_status. by apply Htasks.
Qed.

Lemma run_inv es : ∀ s s', inv s → run es s = Some s' → inv s'.
Proof.
  induction es as [|e es IH]; cbn [run]; intros s s' Hinv.
  - by intros [= <-].
  - destruct (step e s) as [s1|] eqn:E; [|done]. intros Hrun.
    eapply IH; [|done]. by eapply step_inv.
Qed.

Lemma reachable_inv opts svc fs0 es s :
  run es (constructor opts svc fs0) = Some s → inv s.
Proof. apply run_inv, constructor_inv. Qed.

(** The configuration is settled once the initialization has finished; the
    options are never touched. *)
Lemma step_config e s s' :
  step e s = Some s' →
  options s' = options s ∧ (initialized s = true → config s' = config s).
Proof.
  intros Hstep. apply step_shape in Hstep.
  destruct e as [name payload|o|found st|available|i r|k|k].
  - by destruct (delivered (EvEmit name payload)); subst s'.
  - by subst s'.
  - destruct Hstep as (_ & Hq & _). split; [by injection Hq|done].
  - destruct Hstep as [Hi ->]. split; [by destruct available|congruence].
  - destruct Hstep as (t & pc' & s1 & _ & Hres & ->).
    apply processCloneWithAI_resume_writes in Hres
      as (_ & _ & _ & _ & _ & _ & _ & Hini & _ & Hsvc & Hopt & _).
    unfold config. cbn. split; [done|]. intros _. congruence.
  - destruct Hstep as (_ & Hq & _). split; [by injection Hq|done].
  - destruct Hstep as (_ & Hq & _). split; [by injection Hq|done].
Qed.

Lemma run_config es : ∀ s s',
  run es s = Some s' →
  options s' = options s ∧ (initialized s = true → config s' = config s).
Proof.
  induction es as [|e es IH]; cbn [run]; intros s s'.
  - by intros [= <-].
  - destruct (step e s) as [s1|] eqn:E; [|done]. intros Hrun.
    destruct (step_config _ _ _ E) as [Ho Hc].
    destruct (IH _ _ Hrun) as [Ho' Hc']. split; [congruence|].
    intros Hi. specialize (Hc Hi). rewrite <- Hc. apply Hc'.
    by injection Hc as _ -> _.
Qed.

(** The clones the tasks were started for are the delivered ones, in order. *)
Lemma step_sources e s s' :
  step e s = Some s' →
  t_clone <$> aiProcessingPromises s' =
    (t_clone <$> aiProcessingPromises s) ++ option_list (delivered e).
Proof.
  intros Hstep. apply step_shape in Hstep.
  destruct e as [name payload|o|found st|available|i r|k|k]; cbn [delivered option_list];
    rewrite ?app_nil_r.
  - destruct (String.eqb name "CLONE_FOUND" ) eqn:Hn; cbn [delivered] in Hstep;
      rewrite Hn in Hstep; [|subst s'; by rewrite app_nil_r].
    destruct (ev_clone payload) as [clone|]; subst s'; [|by rewrite app_nil_r].
    cbn. by rewrite fmap_app.
  - by subst s'.
  - by destruct Hstep as ([= _ _ _ ->] & _).
  - destruct Hstep as [_ ->]. by destruct available.
  - destruct Hstep as (t & pc' & s1 & Hi & Hres & ->).
    apply processCloneWithAI_resume_writes in Hres as (_ & _ & _ & _ & _ & Ht & _).
    cbn. rewrite Ht, list_fmap_insert. cbn.
    apply list_insert_id. by rewrite list_lookup_fmap, Hi.
  - by destruct Hstep as ([= _ _ _ ->] & _).
  - by destruct Hstep as ([= _ _ _ ->] & _).
Qed.

Lemma run_sources es : ∀ s s',
  run es s = Some s' →
  t_clone <$> aiProcessingPromises s' =
    (t_clone <$> aiProcessingPromises s) ++ omap delivered es.
Proof.
  induction es as [|e es IH]; cbn [run]; intros s s'.
  - intros [= <-]. by rewrite app_nil_r.
  - destruct (step e s) as [s1|] eqn:E; [|done]. intros Hrun.
    rewrite (IH _ _ Hrun), (step_sources _ _ _ E), <- app_assoc. f_equal.
    cbn. by destruct (delivered e).
Qed.

(** X7. The promises in [this.aiProcessingPromises] never reject: in every
    world the reporter can reach no task has settled as rejected, so
    [failedCount] is still 0 and the failure gate of [finalize] is never
    taken. *)
Theorem ai_tasks_never_reject
  (opts : AIReportOptions) (svc : option OllamaService) (fs0 : Node.FS)
  (es : list event) (s : world) :
  run es (constructor opts svc fs0) = Some s →
  (∀ t, t ∈ aiProcessingPromises s → t_pc t ≠ Settled Rejected) ∧
  failedCount s = 0 ∧ high_failure_rate s = false.
Proof.
  intros Hrun. apply reachable_inv in Hrun as (_ & _ & _ & Hfc & Htasks).
  split; [|split; [done|]].
  - intros t Ht Hpc. destruct (Htasks t Ht) as [_ H]. rewrite Hpc in H.
    by destruct H.
  - unfold high_failure_rate. rewrite Hfc. apply Nat.ltb_ge. lia.
Qed.

(** X8. The reporter collects exactly what it is handed. In every world it
    can reach, the tasks in [this.aiProcessingPromises] were started for the
    clones of the CLONE_FOUND payloads delivered so far, one task per
    delivery and in the order of delivery; [this.clones] holds the copy of
    each task, in the same order, and no copy twice; and a report generated
    now counts as [totalClones] the number of deliveries. *)
Theorem collected_clones_follow_deliveries
  (opts : AIReportOptions) (svc : option OllamaService) (fs0 : Node.FS)
  (es : list event) (s : world) :
  run es (constructor opts svc fs0) = Some s →
  t_clone <$> aiProcessingPromises s = omap delivered es ∧
  t_enhanced <$> aiProcessingPromises s = clones s ∧
  NoDup (clones s) ∧
  ∀ st, totalClones (summary (generateReport st s)) = length (omap delivered es).
Proof.
  intros Hrun. pose proof (run_sources _ _ _ Hrun) as Hsrc. cbn in Hsrc.
  apply reachable_inv in Hrun as (_ & Hmap & Hnd & _).
  split; [done|]. split; [done|]. split; [done|].
  intros st. cbn. by rewrite <- Hmap, <- Hsrc, !length_fmap.
Qed.

Lemma count_marked (E : bool) (f : loc → bool) (ts : list task) :
  (∀ t, t ∈ ts → f (t_enhanced t) = task_settled t && E) →
  length (List.filter f (t_enhanced <$> ts)) =
    if E then length (List.filter task_settled ts) else 0.
Proof.
  induction ts as [|t ts IH]; intros H; [by destruct E|].
  cbn. rewrite (H t) by (by left).
  assert (∀ t', t' ∈ ts → f (t_enhanced t') = task_settled t' && E) as H'
    by (intros t' Ht'; apply H; by right).
  specialize (IH H'). destruct E, (task_settled t); cbn; by rewrite IH.
Qed.

Lemma task_ok_mark s t :
  task_ok s t →
  mark s (t_enhanced t) =
    VBool (task_settled t && (has_service s && any_option (options s))).
Proof.
  intros [_ H]. unfold task_settled. destruct (t_pc t); try done.
  - by destruct H.
  - by destruct H.
  - by destruct H.
  - by destruct H as (_ & _ & ->).
Qed.

(** X9. [aiProcessed] records that AI calls were attempted, not what they
    returned. In every world the reporter can reach, the copy of the [i]-th
    task is the [i]-th collected clone, and its [aiProcessed] is [true]
    exactly when the task has settled, Ollama is available and at least one
    of the three kinds of AI call is switched on, whatever the service
    answered; so [aiAnalyzedClones] of a report generated now is the number
    of settled tasks if Ollama is available and a call is switched on, and 0
    otherwise. *)
Theorem aiProcessed_marks_settled_tasks
  (opts : AIReportOptions) (svc : option OllamaService) (fs0 : Node.FS)
  (es : list event) (s : world) :
  run es (constructor opts svc fs0) = Some s →
  (∀ i t, aiProcessingPromises s !! i = Some t →
     clones s !! i = Some (t_enhanced t) ∧
     prop "aiProcessed" (object_at (t_enhanced t) s) =
       VBool (task_settled t && (has_service s && any_option (options s)))) ∧
  ∀ st, aiAnalyzedClones (summary (generateReport st s)) =
        if has_service s && any_option (options s)
        then length (List.filter task_settled (aiProcessingPromises s))
        else 0.
Proof.
  intros Hrun. apply reachable_inv in Hrun as (_ & Hmap & _ & _ & Htasks).
  split.
  - intros i t Hi. split.
    + by rewrite <- Hmap, list_lookup_fmap, Hi.
    + apply task_ok_mark, Htasks. by eapply list_elem_of_lookup_2.
  - intros st. cbn. rewrite <- Hmap. apply count_marked.
    intros t Ht. fold (mark s (t_enhanced t)).
    rewrite (task_ok_mark s t (Htasks t Ht)). cbn.
    by destruct (task_settled t), (has_service s && any_option (options s)).
Qed.

(** X10. Without Ollama the reporter degrades to a plain one. Once the
    initialization has finished without a service (the availability check
    failed, or creating the service threw), in every world reached from
    there: there is still no service, no task ever waits for an AI call, no
    collected clone is marked [aiProcessed], and every report generated has
    [aiAnalyzedClones = 0], names no model and recommends installing
    Ollama. *)
Theorem ollama_unavailable_degrades
  (opts : AIReportOptions) (svc : option OllamaService) (fs0 : Node.FS)
  (es0 es : list event) (s0 s : world) :
  run es0 (constructor opts svc fs0) = Some s0 →
  initialized s0 = true → ollamaService s0 = None →
  run es s0 = Some s →
  ollamaService s = None ∧
  (∀ t, t ∈ aiProcessingPromises s →
     t_pc t = AwaitInit ∨ t_pc t = Settled Fulfilled) ∧
  (∀ c, c ∈ clones s → prop "aiProcessed" (object_at c s) = VBool false) ∧
  ∀ st, aiAnalyzedClones (summary (generateReport st s)) = 0 ∧
        ollamaModel (generateReport st s) = None ∧
        InstallOllama ∈ recommendations (generateReport st s).
Proof.
  intros Hrun0 Hi0 Hsvc0 Hrun.
  apply reachable_inv in Hrun0 as Hinv0.
  pose proof (run_inv _ _ _ Hinv0 Hrun) as (_ & Hmap & _ & _ & Htasks).
  destruct (run_config _ _ _ Hrun) as [_ Hc]. specialize (Hc Hi0).
  injection Hc as _ _ Hsvc. rewrite Hsvc0 in Hsvc.
  assert (has_service s = false) as Hno by (unfold has_service; by rewrite Hsvc).
  assert (∀ t, t ∈ aiProcessingPromises s → mark s (t_enhanced t) = VBool false)
    as Hmark.
  { intros t Ht. rewrite (task_ok_mark s t (Htasks t Ht)), Hno.
    by rewrite andb_false_r. }
  split; [done|]. split; [|split].
  - intros t Ht. destruct (Htasks t Ht) as [_ H]. revert H.
    destruct (t_pc t) as [| | | |st]; intros H; try (left; done);
      try (destruct H as (_ & _ & H & _); congruence).
    right. by destruct H as [-> _].
  - intros c Hc. rewrite <- Hmap in Hc.
    apply list_elem_of_fmap in Hc as (t & -> & Ht). by apply Hmark.
  - intros st. split; [|split].
    + cbn. rewrite <- Hmap.
      rewrite (count_marked false); [done|].
      intros t Ht. fold (mark s (t_enhanced t)). rewrite (Hmark t Ht).
      by rewrite andb_false_r.
    + cbn. by rewrite Hsvc.
    + cbn. unfold generateRecommendations. rewrite Hno.
      rewrite !elem_of_app. right. right. right. by apply list_elem_of_singleton.
Qed.

(** *** Saving the report: what is written, what is thrown *)

Lemma io_run {A} (m : M Node.FS A) s r s' :
  io m s = (r, s') → m (fs s) = (r, fs s') ∧ core s' = core s.
Proof. unfold io. destruct (m (fs s)) as [r0 fs']. by intros [= <- <-]. Qed.

Lemma saveReportSync_outcome (rep : AIReport) (s : world) :
  (Node.files (fs (saveReportSync rep s).2) = Node.files (fs s) ∨
   (format (options s) ≠ FHtml ∧ (saveReportSync rep s).1 = Ok tt ∧
    Node.files (fs (saveReportSync rep s).2) =
      <[report_file s := report_text s rep]> (Node.files (fs s)))) ∧
  (Node.dirs (fs (saveReportSync rep s).2) = Node.dirs (fs s) ∨
   (directory_output s = true ∧
    Node.dirs (fs (saveReportSync rep s).2) = {[ output_or_dot s ]} ∪ Node.dirs (fs s))) ∧
  (∀ e, (saveReportSync rep s).1 = Throw e →
     directory_output s = true ∧ e = IOError ∧
     Node.files (fs (saveReportSync rep s).2) = Node.files (fs s)) ∧
  (format (options s) = FHtml →
     Node.files (fs (saveReportSync rep s).2) = Node.files (fs s)).
Proof.
  unfold saveReportSync, report_file, report_text, report_path, directory_output.
  unfold bind, try_catch, ret.
  destruct (negb (JSString.endsWith ".json" (output_or_dot s)) &&
            negb (JSString.endsWith ".md" (output_or_dot s))).
  - destruct (io (Node.ensureDirSync (output_or_dot s)) s) as [[[]|e] s1] eqn:E1;
      apply io_run in E1 as (E1 & Hc1);
      apply Node.ensureDirSync_inv in E1 as (Hf1 & Hd1);
      apply core_inv in Hc1 as (Hh & _ & _ & _ & _ & _ & _ & _ & Ho & _).
    + rewrite Ho, Hh. destruct (format (options s)) eqn:Hfmt.
      * destruct (serializable _ _);
          [|cbn; split; [left; congruence|];
            split; [right; split; [done|congruence]|]; split; [done|done]].
        destruct (io _ s1) as [[[]|e] s2] eqn:E2; apply io_run in E2 as (E2 & _);
          apply Node.writeFileSync_inv in E2 as (Hd2 & Hf2); cbn.
        -- split; [right; split; [done|split; [done|congruence]]|].
           split; [right; split; [done|congruence]|]. split; [done|done].
        -- destruct Hf2 as [_ Hf2].
           split; [left; congruence|].
           split; [right; split; [done|congruence]|]. split; [done|done].
      * destruct (io _ s1) as [[[]|e] s2] eqn:E2; apply io_run in E2 as (E2 & _);
          apply Node.writeFileSync_inv in E2 as (Hd2 & Hf2); cbn.
        -- split; [right; split; [done|split; [done|congruence]]|].
           split; [right; split; [done|congruence]|]. split; [done|done].
        -- destruct Hf2 as [_ Hf2].
           split; [left; congruence|].
           split; [right; split; [done|congruence]|]. split; [done|done].
      * cbn. split; [by left|]. split; [right; by split|]. split; [done|done].
    + cbn. destruct Hd1 as [-> Hd1]. split; [by left|]. split; [by left|].
      split; [|done]. by intros e' [= <-].
  - destruct (format (options s)) eqn:Hfmt.
    + destruct (serializable _ _);
        [|cbn; split; [by left|]; split; [by left|]; split; [done|done]].
      destruct (io _ s) as [[[]|e] s2] eqn:E2; apply io_run in E2 as (E2 & _);
        apply Node.writeFileSync_inv in E2 as (Hd2 & Hf2); cbn.
      * split; [right; by split|]. split; [by left|]. split; [done|done].
      * destruct Hf2 as [_ Hf2]. split; [by left|]. split; [by left|]. split; [done|done].
    + destruct (io _ s) as [[[]|e] s2] eqn:E2; apply io_run in E2 as (E2 & _);
        apply Node.writeFileSync_inv in E2 as (Hd2 & Hf2); cbn.
      * split; [right; by split|]. split; [by left|]. split; [done|done].
      * destruct Hf2 as [_ Hf2]. split; [by left|]. split; [by left|]. split; [done|done].
    + cbn. split; [by left|]. split; [by left|]. split; [done|done].
Qed.


Lemma saveReportSync_throws rep s e s' :
  saveReportSync rep s = (Throw e, s') → directory_output s = true ∧ e = IOError.
Proof.
  intros H.
  destruct (saveReportSync_outcome rep s) as (_ & _ & Ht & _).
  rewrite H in Ht. destruct (Ht e eq_refl) as (? & ? & _). done.
Qed.

Lemma output_set_same s s' : options s' = options s → output_set s' = output_set s.
Proof. unfold output_set. by intros ->. Qed.

Lemma directory_output_same s s' :
  options s' = options s → directory_output s' = directory_output s.
Proof. unfold directory_output, output_or_dot. by intros ->. Qed.

Ltac case_if :=
  match goal with |- context [if ?b then _ else _] => destruct b end.

(** X12. What [report] throws. Without a statistic it throws a TypeError,
    having stored [undefined] as [this.statistic]; with one, and no output
    configured or an output path ending in [.json] or [.md], it returns
    normally whatever the file system does (a failed write is logged and
    swallowed). Whenever it throws, the cause is the missing statistic or an
    output directory that cannot be made, and the promise of
    [waitForCompletion] is the one from before the call: no background
    processing is scheduled. In every case [this.statistic] is the argument. *)
Theorem report_throws_only_without_statistic_or_directory
  (found : list loc) (st : option IStatistic) (s : world) :
  (st = None → report found st s = (Throw TypeError, set_statistic None s)) ∧
  (is_Some st → output_set s = false ∨ directory_output s = false →
     (report found st s).1 = Ok tt) ∧
  (∀ e, (report found st s).1 = Throw e →
     ((st = None ∧ e = TypeError) ∨
      (output_set s = true ∧ directory_output s = true ∧ e = IOError)) ∧
     chains (report found st s).2 = chains s ∧
     completionPromise (report found st s).2 = completionPromise s) ∧
  statistic (report found st s).2 = st.
Proof.
  split; [by intros ->|].
  assert (output_set (set_statistic st s) = output_set s) as Hos by done.
  assert (directory_output (set_statistic st s) = directory_output s) as Hdo by done.
  unfold report, bind, modify, generateAndSaveInitialReport, try_catch, throw, ret.
  destruct st as [st|]; cbn [fst snd].
  - rewrite Hos. destruct (output_set s) eqn:Hout.
    + destruct (saveReportSync (generateReport st (set_statistic (Some st) s))
                  (set_statistic (Some st) s)) as [[[]|e] s1] eqn:E.
      * apply saveReportSync_core in E as (Hc & _).
        apply core_inv in Hc as (_ & _ & _ & _ & _ & _ & _ & Hst & _).
        split; [|split].
        -- intros _ _. by case_if.
        -- intros e. by case_if.
        -- by case_if.
      * pose proof (saveReportSync_throws _ _ _ _ E) as [Hd ->].
        apply saveReportSync_core in E as (Hc & _).
        apply core_inv in Hc as (_ & _ & _ & _ & _ & Hch & Hcp & Hst & _).
        rewrite Hdo in Hd. cbn. split; [|split; [|done]].
        -- intros _ [?|?]; congruence.
        -- intros e [= <-]. split; [by right|done].
    + cbn. split; [|split].
      * intros _ _. by case_if.
      * intros e. by case_if.
      * by case_if.
  - cbn. split; [by intros [? ?]|]. split; [|done].
    intros e [= <-]. split; [by left|done].
Qed.

(** X13. The recommendations of a generated report, read off the collected
    clones: the duplication warning is there exactly when the statistic's
    percentage exceeds 10 (and then quotes it); the high-priority sentence
    exactly when some clone carries an 'extract-function' or 'extract-class'
    suggestion (and then quotes their number); the advice to proceed
    incrementally exactly when more than five clones carry a suggestion; and
    the advice to install Ollama exactly when there is no service. *)
Theorem generateReport_recommendations (st : IStatistic) (s : world) :
  (∀ p, HighDuplication p ∈ recommendations (generateReport st s) ↔
        ∃ t, total st = Some t ∧ p = percentage t ∧ (10 < p)%Q) ∧
  (∀ n, HighPriorityOpportunities n ∈ recommendations (generateReport st s) ↔
        n = count_priority (heap s) High (clones s) ∧ 0 < n) ∧
  (MultipleOpportunities ∈ recommendations (generateReport st s) ↔
     5 < length (List.filter (carries_suggestion (heap s)) (clones s))) ∧
  (InstallOllama ∈ recommendations (generateReport st s) ↔ ollamaService s = None).
Proof.
  cbn [recommendations generateReport]. unfold generateRecommendations.
  unfold calculateRefactoringSummary. rewrite fold_count_clone.
  cbn [highPriority totalSuggestions Nat.add].
  rewrite (count_priority_partition (heap s) (clones s)).
  set (hi := count_priority (heap s) High (clones s)).
  set (n := length (List.filter (carries_suggestion (heap s)) (clones s))).
  set (dup := match total st with
              | Some t => if negb (Qeq_bool (percentage t) 0) &&
                             negb (Qle_bool (percentage t) 10)
                          then [HighDuplication (percentage t)] else []
              | None => [] end).
  assert (∀ p, HighDuplication p ∈ dup ↔
               ∃ t, total st = Some t ∧ p = percentage t ∧ (10 < p)%Q) as Hdup.
  { intros p. subst dup. destruct (total st) as [t|]; [|split].
    - destruct (Qle_bool (percentage t) 10) eqn:Hle.
      + rewrite andb_false_r. split; [by intros ?%elem_of_nil|].
        intros (t' & [= <-] & -> & Hlt). apply Qle_bool_iff in Hle.
        exfalso. by apply (Qlt_not_le _ _ Hlt).
      + assert (10 < percentage t)%Q as Hlt.
        { apply Qnot_le_lt. intros H%Qle_bool_iff. congruence. }
        assert (Qeq_bool (percentage t) 0 = false) as ->.
        { destruct (Qeq_bool (percentage t) 0) eqn:Heq; [|done].
          apply Qeq_bool_iff in Heq. rewrite Heq in Hlt. by vm_compute in Hlt. }
        cbn. split.
        * intros [= ->]%list_elem_of_singleton. eauto.
        * intros (t' & [= <-] & -> & _). by apply list_elem_of_singleton.
    - by intros ?%elem_of_nil.
    - by intros (t' & [=] & _). }
  assert (∀ (b : bool) (x y : recommendation),
            x ∈ (if b then [y] else []) ↔ b = true ∧ x = y) as Hif.
  { intros [] x y; [rewrite list_elem_of_singleton|rewrite elem_of_nil];
      intuition congruence. }
  assert (∀ (b : bool) (x y : recommendation),
            x ∈ (if b then [] else [y]) ↔ b = false ∧ x = y) as Hifn.
  { intros [] x y; [rewrite elem_of_nil|rewrite list_elem_of_singleton];
      intuition congruence. }
  assert (∀ x, x ∈ dup → ∃ p, x = HighDuplication p) as Hshape.
  { intros x. subst dup. destruct (total st) as [t|]; [|by intros ?%elem_of_nil].
    destruct (_ && _); [|by intros ?%elem_of_nil].
    intros ->%list_elem_of_singleton. eauto. }
  split; [|split; [|split]].
  - intros p. rewrite !elem_of_app, <- Hdup, !Hif, Hifn. intuition congruence.
  - intros m. rewrite !elem_of_app, !Hif, Hifn. split.
    + intros [H|[[H [= ->]]|[[_ [=]]|[_ [=]]]]].
      * apply Hshape in H as (p & [=]).
      * apply Nat.ltb_lt in H. by subst hi.
    + intros [-> H]. right. left. split; [by apply Nat.ltb_lt|done].
  - rewrite !elem_of_app, !Hif, Hifn. split.
    + intros [H|[[_ [=]]|[[H _]|[_ [=]]]]].
      * apply Hshape in H as (p & [=]).
      * by apply Nat.ltb_lt in H.
    + intros H. right. right. left. split; [by apply Nat.ltb_lt|done].
  - rewrite !elem_of_app, !Hif, Hifn. unfold has_service. split.
    + intros [H|[[_ [=]]|[[_ [=]]|[H _]]]].
      * apply Hshape in H as (p & [=]).
      * by destruct (ollamaService s).
    + intros ->. right. right. right. done.
Qed.

(** *** The completion promise is not rejected *)

(** No output is configured, or the output is a file path: [saveReportSync]
    has no directory to make. *)
Definition file_output (s : world) : Prop :=
  output_set s = false ∨ directory_output s = false.

Lemma file_output_same s s' : options s' = options s → file_output s → file_output s'.
Proof.
  intros Ho. unfold file_output.
  by rewrite (output_set_same _ _ Ho), (directory_output_same _ _ Ho).
Qed.

Lemma finalize_file_output s : file_output s → (finalize s).1 = Ok tt.
Proof.
  intros Hfile. unfold finalize, bind, ret.
  destruct (statistic s) as [st|]; [|done].
  destruct (high_failure_rate s); [done|].
  destruct (output_set s) eqn:Hout.
  - destruct Hfile as [?|Hd]; [congruence|].
    destruct (saveReportSync (generateReport st s) s) as [[[]|e] s1] eqn:E.
    + destruct (_ && _); [|done].
      destruct (generateAIPrompt (generateReport st s) s1) as [r s2] eqn:E2.
      by apply generateAIPrompt_core in E2 as (-> & _).
    + apply saveReportSync_throws in E as [? _]. congruence.
  - by rewrite Hout, andb_false_r.
Qed.

Lemma processAllAITasks_resume_file_output results s :
  file_output s → (processAllAITasks_resume results s).1 = Ok tt.
Proof.
  intros Hfile. unfold processAllAITasks_resume, bind.
  destruct (tally _ 0 results s) as [r1 s1] eqn:E.
  apply tally_core in E as (-> & Hc & _).
  apply core_inv in Hc as (_ & _ & _ & _ & _ & _ & _ & _ & Ho & _).
  apply finalize_file_output. by apply (file_output_same s).
Qed.

Definition never_rejected (s : world) : Prop :=
  ∀ k, chains s !! k ≠ Some ChainRejected.

Lemma step_never_rejected e s s' :
  file_output s → never_rejected s → step e s = Some s' → never_rejected s'.
Proof.
  intros Hfile Hnr Hstep.
  assert (chains s' = chains s → never_rejected s') as Hsame
    by (intros Hc k; rewrite Hc; apply Hnr).
  assert (∀ cs k c, c ≠ ChainRejected → cs = chains s →
            ∀ j, <[k := c]> cs !! j ≠ Some ChainRejected) as Hins.
  { intros cs k c Hc -> j Hj. apply list_lookup_insert_Some in Hj as [(_ & ? & _)|[_ Hj]].
    - congruence.
    - by apply (Hnr j). }
  destruct e as [name payload|o|found st|available|i r|k|k].
  - apply step_shape in Hstep.
    destruct (delivered (EvEmit name payload)); subst s'; by apply Hsame.
  - apply step_shape in Hstep. subst s'. by apply Hsame.
  - cbn [step] in Hstep. injection Hstep as <-.
    destruct (report found st s) as [r s1] eqn:E.
    apply report_effect in E as (_ & _ & _ & _ & _ & E). cbn.
    destruct r as [[]|e]; [|destruct E as [E _]; by apply Hsame].
    destruct (0 <? length (aiProcessingPromises s)); destruct E as [E _];
      [|by apply Hsame].
    intros k. rewrite E. intros Hk.
    apply lookup_app_Some in Hk as [Hk|[_ Hk]]; [by apply (Hnr k)|].
    by destruct (k - length (chains s)) as [|[|?]].
  - apply step_shape in Hstep as [_ ->]. apply Hsame. by destruct available.
  - apply step_shape in Hstep as (t & pc' & s1 & _ & Hres & ->).
    apply processCloneWithAI_resume_writes in Hres as (_ & _ & _ & _ & _ & _ & Hc & _).
    by apply Hsame.
  - cbn [step] in Hstep. destruct (chains s !! k) as [[| | |]|]; try done.
    destruct (initialized s); [|done]. injection Hstep as <-.
    intros j. cbn. by apply Hins.
  - cbn [step] in Hstep. destruct (chains s !! k) as [[|n| |]|]; try done.
    destruct (forallb _ _); [|done].
    pose proof (processAllAITasks_resume_file_output
                  (map task_status (take n (aiProcessingPromises s))) s Hfile) as Hok.
    destruct (processAllAITasks_resume _ s) as [[[]|e] s1] eqn:E; [|done].
    apply processAllAITasks_resume_core, core_inv in E
      as (_ & _ & _ & _ & _ & Hch & _).
    injection Hstep as <-. intros j. cbn. by apply Hins.
Qed.

Lemma run_never_rejected es : ∀ s0 s,
  file_output s0 → never_rejected s0 → run es s0 = Some s →
  file_output s ∧ never_rejected s.
Proof.
  induction es as [|e es IH]; cbn [run]; intros s0 s Hfile Hnr.
  - by intros [= <-].
  - destruct (step e s0) as [s1|] eqn:E; [|done].
    apply IH.
    + apply (file_output_same s0); [|done]. by destruct (step_config _ _ _ E).
    + by eapply step_never_rejected.
Qed.

(** X14. With no output configured, or with an output path that ends in
    [.json] or [.md], the promise [waitForCompletion] returns is never
    rejected: in every world the reporter can reach, no promise built by
    [report] has been rejected, whatever the file system and the AI service
    did. *)
Theorem completion_promise_never_rejects
  (opts : AIReportOptions) (svc : option OllamaService) (fs0 : Node.FS)
  (es : list event) (s : world) :
  file_output (constructor opts svc fs0) →
  run es (constructor opts svc fs0) = Some s →
  ∀ k, chains s !! k ≠ Some ChainRejected.
Proof.
  intros Hfile Hrun.
  assert (never_rejected (constructor opts svc fs0)) as Hnr by (by intros [|k]).
  by destruct (run_never_rejected _ _ _ Hfile Hnr Hrun) as [_ H].
Qed.

(** X15. [report] writes the initial report before any AI result is waited
    for. With an output configured, the format ['json'] or ['markdown'], a
    report [JSON.stringify] can print, and a file system that accepts the
    write (no failure pending; an output directory exists or its parent
    does; the report file is not a directory and the directory it goes to
    exists or is that output directory), [report]
    returns normally with the report generated from the clones collected so
    far in the report file; [this.statistic] is the argument; the promise of
    [waitForCompletion] is a new pending one if a clone was collected and a
    fulfilled one otherwise; and neither [processedCount] nor the refactoring
    guide is touched. *)
Theorem report_writes_initial_report
  (found : list loc) (st : IStatistic) (s : world) :
  output_set s = true → format (options s) ≠ FHtml → fs_accepts s →
  prints s (generateReport st s) →
  ∃ s', report found (Some st) s = (Ok tt, s') ∧
        Node.files (fs s') !! report_file s =
          Some (report_text s (generateReport st s)) ∧
        statistic s' = Some st ∧
        completionPromise s' =
          (if 0 <? length (aiProcessingPromises s)
           then PChain (length (chains s)) else PResolved) ∧
        ((0 <? length (aiProcessingPromises s)) = true →
           resolved s' (waitForCompletion s') = false) ∧
        processedCount s' = processedCount s ∧ prompts s' = prompts s.
Proof.
  intros Hout Hfmt Hacc Hprint.
  unfold report, bind, modify, generateAndSaveInitialReport, try_catch, throw.
  change (output_set (set_statistic (Some st) s)) with (output_set s). rewrite Hout.
  destruct (saveReportSync_writes (generateReport st (set_statistic (Some st) s))
              (set_statistic (Some st) s) Hacc Hprint Hfmt)
    as (s1 & -> & Hfile & _ & Hc & Hn & Hp).
  apply core_inv in Hc as (_ & _ & _ & Ht & _ & Hch & _ & Hst & _).
  injection Hn as Hpc _. cbn in Ht, Hch, Hst, Hpc, Hp. rewrite Ht.
  destruct (0 <? length (aiProcessingPromises s)) eqn:Hlen.
  - eexists. split; [reflexivity|]. cbn. repeat split; try done.
    + by rewrite Hch.
    + intros _. by rewrite list_lookup_middle.
  - eexists. split; [reflexivity|]. cbn. by repeat split.
Qed.

(** *** Where the Markdown report goes *)

(** X16. In the format ['markdown'] the report is written beside the JSON
    path: for an output path [base.json] whose only [.json] is the suffix,
    the report file is [base.md] (and no directory is made); for an output
    directory [dir] it is [dir/jscpd-ai-report.md], provided
    [dir/jscpd-ai-report] contains no [.json] either. ([String.replace]
    rewrites the first occurrence, hence the proviso.) *)
Theorem markdown_report_file (s : world) :
  format (options s) = FMarkdown →
  (∀ base, output_or_dot s = base +:+ ".json" →
     JSString.first_at_end ".json" base →
     directory_output s = false ∧ report_file s = base +:+ ".md") ∧
  (∀ dir, output_or_dot s = dir → directory_output s = true →
     JSString.first_at_end ".json" (dir +:+ "/jscpd-ai-report") →
     report_file s = dir +:+ "/jscpd-ai-report.md").
Proof.
  intros Hfmt. unfold report_file, report_path. rewrite Hfmt. split.
  - intros base Hout Hfirst.
    assert (directory_output s = false) as Hd.
    { unfold directory_output. by rewrite Hout, JSString.endsWith_app. }
    split; [done|]. rewrite Hd, Hout. by apply JSString.replace_at_end.
  - intros dir Hout Hd Hfirst. rewrite Hd, Hout.
    change "/jscpd-ai-report.json" with ("/jscpd-ai-report" +:+ ".json").
    rewrite <- JSString.app_assoc.
    rewrite JSString.replace_at_end by done.
    by rewrite JSString.app_assoc.
Qed.

(** *** The refactoring guide *)

Lemma io_faults {A} (m : M Node.FS A) s :
  (Node.faults (fs s) = [] → Node.faults (m (fs s)).2 = []) →
  Node.faults (fs s) = [] → Node.faults (fs (io m s).2) = [].
Proof. unfold io. intros H Hf. specialize (H Hf). by destruct (m (fs s)). Qed.

Lemma saveReportSync_faults rep s :
  Node.faults (fs s) = [] → Node.faults (fs (saveReportSync rep s).2) = [].
Proof.
  intros Hf. unfold saveReportSync, bind, try_catch, ret.
  assert (∀ p d s0, Node.faults (fs s0) = [] →
            Node.faults (fs (io (Node.writeFileSync dirname p d) s0).2) = []) as Hw
    by (intros p d s0; apply io_faults, Node.writeFileSync_faults).
  destruct (negb (JSString.endsWith ".json" (output_or_dot s)) &&
            negb (JSString.endsWith ".md" (output_or_dot s))).
  - pose proof (io_faults (Node.ensureDirSync (output_or_dot s)) s
                  (Node.ensureDirSync_faults _ _) Hf) as H1.
    destruct (io (Node.ensureDirSync (output_or_dot s)) s) as [[[]|e] s1]; [|done].
    cbn in H1. destruct (format (options s1)); [| |done].
    + destruct (serializable _ _); [|done].
      specialize (Hw (output_or_dot s +:+ "/jscpd-ai-report.json")
                     (stringify (heap s1) rep) s1 H1).
      by destruct (io _ s1) as [[[]|e] s2].
    + specialize (Hw (JSString.replace ".json" ".md"
                        (output_or_dot s +:+ "/jscpd-ai-report.json"))
                     (generateMarkdownReport (heap s1) rep) s1 H1).
      by destruct (io _ s1) as [[[]|e] s2].
  - destruct (format (options s)); [| |done].
    + destruct (serializable _ _); [|done].
      specialize (Hw (output_or_dot s) (stringify (heap s) rep) s Hf).
      by destruct (io _ s) as [[[]|e] s2].
    + specialize (Hw (JSString.replace ".json" ".md" (output_or_dot s))
                     (generateMarkdownReport (heap s) rep) s Hf).
      by destruct (io _ s) as [[[]|e] s2].
Qed.

Lemma updateReportWithAIResults_faults s :
  Node.faults (fs s) = [] → Node.faults (fs (updateReportWithAIResults s).2) = [].
Proof.
  intros Hf. unfold updateReportWithAIResults, try_catch, ret.
  destruct (statistic s) as [st|]; [|done]. destruct (output_set s); [|done].
  pose proof (saveReportSync_faults (generateReport st s) s Hf) as H.
  by destruct (saveReportSync _ s) as [[[]|e] s1].
Qed.

Lemma tally_faults n results : ∀ index s,
  Node.faults (fs s) = [] → Node.faults (fs (tally n index results s).2) = [].
Proof.
  induction results as [|[] rest IH]; intros index s Hf; cbn [tally]; [done| |].
  - unfold bind, modify, ret.
    destruct ((index =? n - 1) || ((index + 1) mod 5 =? 0)).
    + pose proof (updateReportWithAIResults_faults
                    (set_processedCount (S (processedCount s)) s) Hf) as H.
      pose proof (updateReportWithAIResults_core
                    (set_processedCount (S (processedCount s)) s)) as Hc.
      destruct (updateReportWithAIResults _) as [r1 s1].
      destruct (Hc _ _ eq_refl) as (-> & _). by apply IH.
    + by apply IH.
  - unfold bind, modify. by apply IH.
Qed.

Lemma count_fulfilled_all (ts : list task) :
  (∀ t, t ∈ ts → task_status t = Fulfilled) →
  count_fulfilled (map task_status ts) = length ts.
Proof.
  unfold count_fulfilled. induction ts as [|t ts IH]; intros H; [done|].
  cbn. rewrite (H t) by (by left). cbn. f_equal. apply IH.
  intros t' Ht'. apply H. by right.
Qed.

(** A chain exists only once a task does, and no chain waits for more
    promises than there are. *)
Definition chains_ok (s : world) : Prop :=
  (chains s ≠ [] → 0 < length (aiProcessingPromises s)) ∧
  ∀ k n, chains s !! k = Some (WaitAllSettled n) →
         0 < n ∧ n ≤ length (aiProcessingPromises s).

Lemma step_chains_length e s s' :
  step e s = Some s' →
  length (chains s') = length (chains s) ∨
  (chains s' = chains s ++ [WaitInit] ∧ 0 < length (aiProcessingPromises s)).
Proof.
  intros Hstep.
  destruct e as [name payload|o|found st|available|i r|k|k].
  - apply step_shape in Hstep.
    destruct (delivered (EvEmit name payload)); subst s'; by left.
  - apply step_shape in Hstep. subst s'. by left.
  - cbn [step] in Hstep. injection Hstep as <-.
    destruct (report found st s) as [r s1] eqn:E.
    apply report_effect in E as (_ & _ & _ & _ & _ & E). cbn.
    destruct r as [[]|e]; [|destruct E as [-> _]; by left].
    destruct (0 <? length (aiProcessingPromises s)) eqn:Hn; destruct E as [-> _];
      [|by left].
    right. split; [done|]. by apply Nat.ltb_lt.
  - apply step_shape in Hstep as [_ ->]. left. by destruct available.
  - apply step_shape in Hstep as (t & pc' & s1 & _ & Hres & ->).
    apply processCloneWithAI_resume_writes in Hres as (_ & _ & _ & _ & _ & _ & Hc & _).
    left. cbn. by rewrite Hc.
  - cbn [step] in Hstep. destruct (chains s !! k) as [[| | |]|]; try done.
    destruct (initialized s); [|done]. injection Hstep as <-. left. cbn.
    by rewrite length_insert.
  - cbn [step] in Hstep. destruct (chains s !! k) as [[|n| |]|]; try done.
    destruct (forallb _ _); [|done].
    destruct (processAllAITasks_resume _ s) as [[[]|e] s1] eqn:E;
      apply processAllAITasks_resume_core, core_inv in E
        as (_ & _ & _ & _ & _ & Hch & _).
    + injection Hstep as <-. left. cbn. by rewrite length_insert, Hch.
    + destruct (finalize s1) as [[[]|e'] s2] eqn:E2;
        apply finalize_core in E2 as (E2 & _);
        apply core_inv in E2 as (_ & _ & _ & _ & _ & Hch2 & _);
        injection Hstep as <-; left; cbn; by rewrite length_insert, Hch2, Hch.
Qed.

Lemma step_chains_ok e s s' : chains_ok s → step e s = Some s' → chains_ok s'.
Proof.
  intros [Hne Hwait] Hstep.
  pose proof (step_tasks _ _ _ Hstep) as [Hlen _].
  pose proof (step_chains_length _ _ _ Hstep) as Hcl.
  assert (chains s' ≠ [] → 0 < length (aiProcessingPromises s)) as Hne'.
  { intros Hs'. destruct Hcl as [Hcl|[_ ?]]; [|done]. apply Hne.
    intros Hnil. rewrite Hnil in Hcl. by destruct (chains s'). }
  split; [intros H; specialize (Hne' H); lia|].
  intros k n Hk.
  destruct (chains s !! k) as [c|] eqn:Hc.
  - destruct (step_chain _ _ _ _ _ Hstep Hc) as (c' & Hc' & Hnext).
    assert (c' = WaitAllSettled n) as -> by congruence.
    destruct Hnext as [<-|[[-> [= ->]]|(m & -> & _ & [?|?])]]; try done.
    + destruct (Hwait k n Hc). lia.
    + assert (chains s' ≠ []) as Hs' by (intros Hnil; by rewrite Hnil in Hk).
      specialize (Hne' Hs'). lia.
  - apply lookup_ge_None in Hc. destruct Hcl as [Hcl|[Hcl _]].
    + apply lookup_lt_Some in Hk. lia.
    + rewrite Hcl in Hk. apply lookup_app_Some in Hk as [Hk|[_ Hk]].
      * apply lookup_lt_Some in Hk. lia.
      * by destruct (k - length (chains s)) as [|[|?]].
Qed.

Lemma run_chains_ok es : ∀ s s', chains_ok s → run es s = Some s' → chains_ok s'.
Proof.
  induction es as [|e es IH]; cbn [run]; intros s s' Hok.
  - by intros [= <-].
  - destruct (step e s) as [s1|] eqn:E; [|done]. intros Hrun.
    eapply IH; [|done]. by eapply step_chains_ok.
Qed.

(** X17. The refactoring guide is written for any collected clone, analysed
    or not. In every world the reporter can reach after [report] (so with a
    statistic), with an output file path configured and no file-system
    failure pending: when the promises a chain waits for have all settled,
    the chain's next step counts each of them as processed, fulfils the
    promise of [waitForCompletion] and has asked the prompt generator for
    the guide exactly once; whether Ollama is available, and whether any
    clone is marked [aiProcessed], plays no part. *)
Theorem refactoring_guide_needs_no_ai_result
  (opts : AIReportOptions) (svc : option OllamaService) (fs0 : Node.FS)
  (es : list event) (s : world) (k n : nat) (st : IStatistic) :
  run es (constructor opts svc fs0) = Some s →
  chains s !! k = Some (WaitAllSettled n) →
  forallb task_settled (take n (aiProcessingPromises s)) = true →
  statistic s = Some st → output_set s = true → directory_output s = false →
  Node.faults (fs s) = [] →
  ∃ s' entry,
    step (EvChainResume k) s = Some s' ∧
    chains s' !! k = Some ChainFulfilled ∧
    processedCount s' = processedCount s + n ∧
    prompts s' = prompts s ++ [entry].
Proof.
  intros Hrun Hk Hall Hst Hout Hdir Hf.
  pose proof (reachable_inv _ _ _ _ _ Hrun) as (_ & _ & _ & Hfc & Htasks).
  assert (chains_ok s) as [_ Hwait].
  { apply (run_chains_ok es (constructor opts svc fs0) s); [|done].
    split; [done|]. by intros [|?] ?. }
  destruct (Hwait k n Hk) as [Hpos Hle].
  set (awaited := take n (aiProcessingPromises s)) in *.
  assert (∀ t, t ∈ awaited → task_status t = Fulfilled) as Hful.
  { intros t Ht%subseteq_take. eapply task_ok_status. by apply Htasks. }
  assert (length awaited = n) as Hlen by (subst awaited; rewrite length_take; lia).
  cbn [step]. rewrite Hk. fold awaited. rewrite Hall.
  unfold processAllAITasks_resume, bind.
  pose proof (tally_faults (length (map task_status awaited)) (map task_status awaited)
                0 s Hf) as Hf1.
  destruct (tally _ 0 (map task_status awaited) s) as [r1 s1] eqn:E1.
  apply tally_core in E1 as (-> & Hc1 & Hp1 & Hpc1 & Hfc1).
  rewrite (count_fulfilled_all awaited Hful), Hlen in Hpc1.
  rewrite (count_rejected_fulfilled awaited Hful) in Hfc1.
  apply core_inv in Hc1 as (_ & _ & Hcl1 & _ & _ & Hch1 & _ & Hst1 & Ho1 & _).
  cbn in Hf1. unfold finalize, bind, ret. rewrite Hst1, Hst.
  assert (high_failure_rate s1 = false) as ->.
  { unfold high_failure_rate. rewrite Hfc1, Hfc. apply Nat.ltb_ge. lia. }
  rewrite (output_set_same _ _ Ho1), Hout.
  pose proof (saveReportSync_faults (generateReport st s1) s1 Hf1) as Hf2.
  destruct (saveReportSync (generateReport st s1) s1) as [[[]|e] s2] eqn:E2.
  2:{ apply saveReportSync_throws in E2 as [E2 _].
      rewrite (directory_output_same _ _ Ho1) in E2. congruence. }
  apply saveReportSync_core in E2 as (Hc2 & Hn2 & Hp2).
  apply core_inv in Hc2 as (_ & _ & _ & _ & _ & Hch2 & _ & _ & Ho2 & _).
  injection Hn2 as Hpc2 _.
  rewrite (output_set_same s s2) by congruence. rewrite Hout, Hpc2, Hpc1.
  replace (0 <? processedCount s + n) with true by (symmetry; apply Nat.ltb_lt; lia).
  cbn [andb]. cbn in Hf2.
  destruct (generateAIPrompt_generates (generateReport st s1) s2 Hf2) as (entry & ->).
  eexists _, entry. split; [reflexivity|]. cbn.
  split; [|split; [lia|congruence]].
  rewrite Hch2, Hch1. apply list_lookup_insert_eq. by eapply lookup_lt_Some.
Qed.

(** *** Progress: the completion promise can be fulfilled *)

(** The steps of the background work: the initialization finishing, the
    service answering, the promise chain moving on. *)
Definition is_background (e : event) : bool :=
  match e with
  | EvInit _ | EvTask _ _ | EvChainStart _ | EvChainResume _ => true
  | _ => false
  end.

(** How many more [await]s a task can reach. *)
Definition rank (p : pc) : nat :=
  match p with
  | AwaitInit => 4
  | AwaitSemantics _ => 3
  | AwaitRefactoring _ => 2
  | AwaitExplanation _ => 1
  | Settled _ => 0
  end.

Lemma run_app es1 : ∀ es2 s s1,
  run es1 s = Some s1 → run (es1 ++ es2) s = run es2 s1.
Proof.
  induction es1 as [|e es1 IH]; cbn [run app]; intros es2 s s1.
  - by intros [= ->].
  - destruct (step e s) as [s0|]; [apply IH|done].
Qed.

Lemma processCloneWithAI_resume_rank r t s pc' s' :
  processCloneWithAI_resume r t s = Some (pc', s') → rank pc' < rank (t_pc t).
Proof.
  unfold processCloneWithAI_resume, stage_semantics, stage_refactoring,
    stage_explanation, finish.
  destruct (t_pc t); destruct r; try done;
    repeat match goal with
           | |- context [if ?b then _ else _] => destruct b
           end;
    try done; intros [= <- <-]; cbn; lia.
Qed.

Lemma processCloneWithAI_resume_enabled t s :
  initialized s = true → task_settled t = false →
  ∃ r out, processCloneWithAI_resume r t s = Some out.
Proof.
  intros Hi. unfold task_settled, processCloneWithAI_resume.
  destruct (t_pc t) as [|called|called|called|st]; intros Hs; try done.
  - exists InitReady. rewrite Hi. eauto.
  - exists (ReplySemantics None). eauto.
  - exists (ReplyRefactoring None). eauto.
  - exists (ReplyExplanation None). eauto.
Qed.

(** What the background work on the tasks leaves alone. *)
Definition same_promises (s s' : world) : Prop :=
  chains s' = chains s ∧ completionPromise s' = completionPromise s ∧
  initialized s' = initialized s ∧ options s' = options s ∧
  length (aiProcessingPromises s') = length (aiProcessingPromises s).

Lemma same_promises_refl s : same_promises s s.
Proof. by repeat split. Qed.

Lemma same_promises_trans s1 s2 s3 :
  same_promises s1 s2 → same_promises s2 s3 → same_promises s1 s3.
Proof. unfold same_promises. intuition congruence. Qed.

Lemma task_step i t s :
  initialized s = true → aiProcessingPromises s !! i = Some t →
  task_settled t = false →
  ∃ r s', step (EvTask i r) s = Some s' ∧ same_promises s s' ∧
          (∃ t', aiProcessingPromises s' !! i = Some t' ∧ rank (t_pc t') < rank (t_pc t)) ∧
          (∀ j, j ≠ i → aiProcessingPromises s' !! j = aiProcessingPromises s !! j).
Proof.
  intros Hi Ht Hs.
  destruct (processCloneWithAI_resume_enabled t s Hi Hs) as (r & [pc' s1] & Hres).
  exists r. cbn [step]. rewrite Ht, Hres. eexists. split; [reflexivity|].
  pose proof (processCloneWithAI_resume_rank _ _ _ _ _ Hres) as Hrank.
  apply processCloneWithAI_resume_writes in Hres
    as (_ & _ & _ & _ & _ & Hts & Hch & Hini & Hcp & _ & Hopt & _).
  cbn. rewrite Hts. split; [|split].
  - unfold same_promises. cbn. rewrite length_insert. by repeat split.
  - exists (mkTask (t_clone t) (t_enhanced t) pc'). split; [|exact Hrank].
    apply list_lookup_insert_eq. by eapply lookup_lt_Some.
  - intros j Hj. by rewrite list_lookup_insert_ne.
Qed.

Lemma settle_one i n : ∀ s t,
  rank (t_pc t) ≤ n → initialized s = true →
  aiProcessingPromises s !! i = Some t →
  ∃ es s', run es s = Some s' ∧ forallb is_background es = true ∧
           same_promises s s' ∧
           (∃ t', aiProcessingPromises s' !! i = Some t' ∧ task_settled t' = true) ∧
           (∀ j, j ≠ i → aiProcessingPromises s' !! j = aiProcessingPromises s !! j).
Proof.
  induction n as [|n IH]; intros s t Hn Hi Ht.
  - exists [], s. split; [done|]. split; [done|]. split; [apply same_promises_refl|].
    split; [|done]. exists t. split; [done|].
    unfold task_settled. destruct (t_pc t); cbn in Hn; try lia.
  - destruct (task_settled t) eqn:Hs.
    + exists [], s. split; [done|]. split; [done|].
      split; [apply same_promises_refl|]. split; [eauto|done].
    + destruct (task_step i t s Hi Ht Hs) as (r & s1 & Hstep & Hsame & (t1 & Ht1 & Hr) & Hoth).
      destruct (IH s1 t1) as (es & s' & Hrun & Hbg & Hsame' & Hset & Hoth');
        [lia|destruct Hsame as (_ & _ & -> & _); done|done|].
      exists (EvTask i r :: es), s'. cbn [run forallb is_background]. rewrite Hstep.
      split; [done|]. split; [done|].
      split; [by eapply same_promises_trans|]. split; [done|].
      intros j Hj. by rewrite Hoth', Hoth.
Qed.

Lemma settle_prefix n : ∀ s,
  n ≤ length (aiProcessingPromises s) → initialized s = true →
  ∃ es s', run es s = Some s' ∧ forallb is_background es = true ∧
           same_promises s s' ∧
           ∀ i, i < n → ∃ t, aiProcessingPromises s' !! i = Some t ∧ task_settled t = true.
Proof.
  induction n as [|n IH]; intros s Hn Hi.
  - exists [], s. split; [done|]. split; [done|]. split; [apply same_promises_refl|].
    intros i Hlt. lia.
  - destruct (IH s) as (es1 & s1 & Hrun1 & Hbg1 & Hsame1 & Hpre); [lia|done|].
    pose proof Hsame1 as (_ & _ & Hi1 & _ & Hlen1).
    destruct (lookup_lt_is_Some_2 (aiProcessingPromises s1) n) as [t Ht]; [lia|].
    destruct (settle_one n (rank (t_pc t)) s1 t) as (es2 & s2 & Hrun2 & Hbg2 & Hsame2 & Hset & Hoth);
      [lia|congruence|done|].
    exists (es1 ++ es2), s2. split; [by rewrite (run_app _ _ _ _ Hrun1)|].
    split; [by rewrite forallb_app, Hbg1, Hbg2|].
    split; [by eapply same_promises_trans|].
    intros i Hlt. destruct (decide (i = n)) as [->|Hne]; [done|].
    rewrite Hoth by done. apply Hpre. lia.
Qed.

Lemma settled_take s n :
  (∀ i, i < length (aiProcessingPromises s) →
        ∃ t, aiProcessingPromises s !! i = Some t ∧ task_settled t = true) →
  forallb task_settled (take n (aiProcessingPromises s)) = true.
Proof.
  intros Hall. apply forallb_forall. intros t Ht%list_elem_of_In.
  apply subseteq_take in Ht. apply list_elem_of_lookup in Ht as [i Hi].
  destruct (Hall i) as (t' & Ht' & Hs); [by eapply lookup_lt_Some|]. congruence.
Qed.

(** The promise [report] left in [completionPromise] is one of [chains]. *)
Definition valid_promise (s : world) : Prop :=
  match completionPromise s with
  | PResolved => True
  | PChain k => k < length (chains s)
  end.

Lemma step_valid_promise e s s' :
  valid_promise s → step e s = Some s' → valid_promise s'.
Proof.
  unfold valid_promise. intros Hv Hstep. destruct (is_report e) eqn:Hr.
  - destruct e as [| |found st| | | |]; try done. cbn [step] in Hstep.
    injection Hstep as <-. destruct (report found st s) as [r s1] eqn:E.
    apply report_effect in E as (_ & _ & _ & _ & _ & E). cbn.
    destruct r as [[]|e].
    + destruct (0 <? length (aiProcessingPromises s)); destruct E as [E ->]; [|done].
      rewrite E, length_app. cbn. lia.
    + destruct E as [-> ->]. done.
  - rewrite (step_completionPromise _ _ _ Hr Hstep).
    destruct (completionPromise s) as [|k]; [done|].
    destruct (lookup_lt_is_Some_2 (chains s) k Hv) as [c Hc].
    destruct (step_chain _ _ _ _ _ Hstep Hc) as (c' & Hc' & _).
    by eapply lookup_lt_Some.
Qed.

Lemma run_valid_promise es : ∀ s s',
  valid_promise s → run es s = Some s' → valid_promise s'.
Proof.
  induction es as [|e es IH]; cbn [run]; intros s s' Hv.
  - by intros [= <-].
  - destruct (step e s) as [s1|] eqn:E; [|done]. intros Hrun.
    eapply IH; [|done]. by eapply step_valid_promise.
Qed.

Lemma chain_resume_fulfils k n s :
  file_output s → chains s !! k = Some (WaitAllSettled n) →
  forallb task_settled (take n (aiProcessingPromises s)) = true →
  ∃ s', step (EvChainResume k) s = Some s' ∧ chains s' !! k = Some ChainFulfilled.
Proof.
  intros Hfile Hk Hall. cbn [step]. rewrite Hk, Hall.
  pose proof (processAllAITasks_resume_file_output
                (map task_status (take n (aiProcessingPromises s))) s Hfile) as Hok.
  destruct (processAllAITasks_resume _ s) as [[[]|e] s1] eqn:E; [|done].
  apply processAllAITasks_resume_core, core_inv in E as (_ & _ & _ & _ & _ & Hch & _).
  eexists. split; [reflexivity|]. cbn. rewrite Hch.
  apply list_lookup_insert_eq. by eapply lookup_lt_Some.
Qed.

Lemma chain_finish k c s :
  file_output s → initialized s = true →
  (∀ i, i < length (aiProcessingPromises s) →
        ∃ t, aiProcessingPromises s !! i = Some t ∧ task_settled t = true) →
  chains s !! k = Some c → c ≠ ChainRejected →
  ∃ es s', run es s = Some s' ∧ forallb is_background es = true ∧
           chains s' !! k = Some ChainFulfilled.
Proof.
  intros Hfile Hi Hall Hk Hc. destruct c as [|n| |]; [| | |done].
  - set (s1 := set_chains
                 (<[k := WaitAllSettled (length (aiProcessingPromises s))]> (chains s)) s).
    assert (step (EvChainStart k) s = Some s1) as Hstart
      by (cbn [step]; by rewrite Hk, Hi).
    destruct (chain_resume_fulfils k (length (aiProcessingPromises s)) s1)
      as (s2 & Hres & Hk2).
    + exact Hfile.
    + cbn. apply list_lookup_insert_eq. by eapply lookup_lt_Some.
    + by apply (settled_take s).
    + exists [EvChainStart k; EvChainResume k], s2. cbn [run forallb is_background].
      by rewrite Hstart, Hres.
  - destruct (chain_resume_fulfils k n s Hfile Hk (settled_take s n Hall)) as (s2 & Hres & Hk2).
    exists [EvChainResume k], s2. cbn [run forallb is_background]. by rewrite Hres.
  - by exists [], s.
Qed.

(** X18. The reporter does not hang. With no output configured, or an output
    path that ends in [.json] or [.md], from every world the reporter can
    reach there is a continuation of the background work alone (the
    initialization finishing, the service answering each request it was
    sent, the promise chain moving on; no further clone, no further call of
    [report]) after which the promise [waitForCompletion] returns now is
    fulfilled. *)
Theorem completion_promise_can_be_fulfilled
  (opts : AIReportOptions) (svc : option OllamaService) (fs0 : Node.FS)
  (es : list event) (s : world) :
  file_output (constructor opts svc fs0) →
  run es (constructor opts svc fs0) = Some s →
  ∃ es' s', forallb is_background es' = true ∧ run es' s = Some s' ∧
            resolved s' (waitForCompletion s) = true.
Proof.
  intros Hfile0 Hrun.
  assert (never_rejected (constructor opts svc fs0)) as Hnr0 by (by intros [|k]).
  destruct (run_never_rejected _ _ _ Hfile0 Hnr0 Hrun) as [Hfile Hnr].
  assert (valid_promise s) as Hv
    by (by apply (run_valid_promise es (constructor opts svc fs0) s)).
  unfold waitForCompletion, valid_promise in *.
  destruct (completionPromise s) as [|k] eqn:Hcp; [by exists [], s|].
  destruct (lookup_lt_is_Some_2 (chains s) k Hv) as [c Hc].
  (* the initialization finishes *)
  assert (∃ es1 s1, run es1 s = Some s1 ∧ forallb is_background es1 = true ∧
                    initialized s1 = true ∧ chains s1 = chains s ∧
                    options s1 = options s) as (es1 & s1 & Hrun1 & Hbg1 & Hi1 & Hch1 & Ho1).
  { destruct (initialized s) eqn:Hi; [by exists [], s|].
    exists [EvInit true], (initializeOllama_resume true s).
    cbn [run step]. by rewrite Hi. }
  (* the tasks settle *)
  destruct (settle_prefix (length (aiProcessingPromises s1)) s1 (le_n _) Hi1)
    as (es2 & s2 & Hrun2 & Hbg2 & (Hch2 & _ & Hi2 & Ho2 & Hlen2) & Hset).
  (* the chain runs *)
  destruct (chain_finish k c s2) as (es3 & s3 & Hrun3 & Hbg3 & Hk3).
  - apply (file_output_same s); [congruence|done].
  - congruence.
  - intros i Hlt. apply Hset. lia.
  - congruence.
  - intros ->. by apply (Hnr k).
  - exists (es1 ++ es2 ++ es3), s3. split; [by rewrite !forallb_app, Hbg1, Hbg2, Hbg3|].
    split.
    + rewrite (run_app _ _ _ _ Hrun1), (run_app _ _ _ _ Hrun2). exact Hrun3.
    + cbn. by rewrite Hk3.
Qed.

End Reporter.

(** *** The options object the constructor builds *)

(** [a || b] *)
Definition js_or (a b : value) : value := if truthy a then a else b.

(** [v !== false] *)
Definition is_not_false (v : value) : bool :=
  match v with VBool false => false | _ => true end.

(** The properties the constructor writes before the spread; [output] is
    [options.output] and [aiOptions] is [options.reportersOptions?.ai || {}]. *)
Definition computed_defaults (aiOptions : object) (output : value) : object :=
  {[ "format" := VStr "json";
     "includeRefactoringSuggestions" :=
       VBool (is_not_false (prop "includeRefactoringSuggestions" aiOptions));
     "includeSemanticAnalysis" :=
       VBool (is_not_false (prop "includeSemanticAnalysis" aiOptions));
     "includeExplanations" := js_or (prop "includeExplanations" aiOptions) (VBool false);
     "minSimilarityForAI" := js_or (prop "minSimilarityForAI" aiOptions) (VNum 40);
     "output" := js_or (prop "output" aiOptions) output ]}.

(** [this.options = { ..., ...aiOptions }]: the spread comes last, so a key of
    [aiOptions] replaces the property written before it. *)
Definition build_options (aiOptions : object) (output : value) : object :=
  aiOptions ∪ computed_defaults aiOptions output.

Definition constant_defaults (output : value) : object :=
  {[ "format" := VStr "json";
     "includeRefactoringSuggestions" := VBool true;
     "includeSemanticAnalysis" := VBool true;
     "includeExplanations" := VBool false;
     "minSimilarityForAI" := VNum 40;
     "output" := output ]}.

Lemma computed_defaults_absent (aiOptions : object) (output : value) (k : string) :
  aiOptions !! k = None →
  computed_defaults aiOptions output !! k = constant_defaults output !! k.
Proof.
  intros Hk. unfold computed_defaults, constant_defaults, prop, object in *.
  destruct (decide (k = "format")) as [->|?];
    [by rewrite !lookup_insert_eq|rewrite !(lookup_insert_ne _ "format" k) by done].
  destruct (decide (k = "includeRefactoringSuggestions")) as [->|?];
    [by rewrite !lookup_insert_eq, Hk
    |rewrite !(lookup_insert_ne _ "includeRefactoringSuggestions" k) by done].
  destruct (decide (k = "includeSemanticAnalysis")) as [->|?];
    [by rewrite !lookup_insert_eq, Hk
    |rewrite !(lookup_insert_ne _ "includeSemanticAnalysis" k) by done].
  destruct (decide (k = "includeExplanations")) as [->|?];
    [by rewrite !lookup_insert_eq, Hk
    |rewrite !(lookup_insert_ne _ "includeExplanations" k) by done].
  destruct (decide (k = "minSimilarityForAI")) as [->|?];
    [by rewrite !lookup_insert_eq, Hk
    |rewrite !(lookup_insert_ne _ "minSimilarityForAI" k) by done].
  destruct (decide (k = "output")) as [->|?].
  - by rewrite !lookup_singleton_eq, Hk.
  - by rewrite !lookup_singleton_ne.
Qed.

(** X19. In [this.options] a key of [aiOptions] always wins, falsy or not, and
    the expressions written with [||] and [!== false] only ever supply
    constants: the options are [aiOptions] over the defaults [format: 'json'],
    [includeRefactoringSuggestions: true], [includeSemanticAnalysis: true],
    [includeExplanations: false], [minSimilarityForAI: 40] and
    [output: options.output]. *)
Theorem constructor_options_keys_win (aiOptions : object) (output : value) :
  build_options aiOptions output = aiOptions ∪ constant_defaults output ∧
  (∀ k v, aiOptions !! k = Some v → prop k (build_options aiOptions output) = v) ∧
  (∀ k, aiOptions !! k = None →
        prop k (build_options aiOptions output) = prop k (constant_defaults output)).
Proof.
  assert (build_options aiOptions output = aiOptions ∪ constant_defaults output) as Heq.
  { unfold build_options. apply map_eq. intros k. unfold object in *.
    rewrite !lookup_union. destruct (aiOptions !! k) as [v|] eqn:Hk.
    - by rewrite !union_Some_l.
    - pose proof (computed_defaults_absent aiOptions output k Hk) as Hd.
      unfold object in Hd. by rewrite Hd. }
  split; [exact Heq|]. rewrite Heq. unfold prop, object in *. split.
  - intros k v Hk. by rewrite lookup_union, Hk, union_Some_l.
  - intros k Hk. rewrite lookup_union, Hk. by rewrite (left_id None _).
Qed.

End AIReporter.

(** ** packages/finder: the reporter interface and the driver *)

Module Finder.

(** reporter.interface.ts: [report] is mandatory, [waitForCompletion] is
    optional. Reporters are objects of one program: their methods act on the
    same world [W]; [P] is the type of promises. *)
Record IReporter (W P : Type) : Type := mkReporter {
  report : list AIReporter.loc -> option AIReporter.IStatistic -> M W unit;
  waitForCompletion : option (W -> P)
}.
Arguments mkReporter {W P} report waitForCompletion.
Arguments report {W P} i found st.
Arguments waitForCompletion {W P} i.

Section Driver.

Context {W P E : Type}.

(** The world's own steps (events delivered to subscribers, background work)
    and the tests whether a promise is fulfilled and whether it is
    rejected. *)
Variable world_step : E -> W -> option W.
Variable resolved : W -> P -> bool.
Variable rejected : W -> P -> bool.
Variable reporters : list (IReporter W P).

Fixpoint world_run (es : list E) (w : W) : option W :=
  match es with
  | [] => Some w
  | e :: es' =>
      match world_step e w with
      | Some w' => world_run es' w'
      | None => None
      end
  end.

(** How a run has ended. *)
Inductive ending : Type :=
| Completed
| Cancelled
| StoreUnavailable
| ReporterThrew.

Inductive phase : Type := Detecting | Awaiting | Ended (how : ending).

Record driver : Type := mkDriver {
  d_world : W;
  d_phase : phase;
  d_awaited : list P;
  d_store_open : bool
}.

Local Open Scope js_scope.

Fixpoint report_all (rs : list (IReporter W P)) (found : list AIReporter.loc)
    (st : option AIReporter.IStatistic) : M W unit :=
  match rs with
  | [] => ret tt
  | r :: rs' => report r found st ;;; report_all rs' found st
  end.

(** The promises of the reporters that declare [waitForCompletion]. *)
Definition hooks (rs : list (IReporter W P)) (w : W) : list P :=
  omap (fun r => match waitForCompletion r with
                 | Some h => Some (h w)
                 | None => None
                 end) rs.





(** [report] has returned on every reporter, and the driver holds the
    promises their hooks gave then. *)
Definition reported (w0 : W) (d : driver) : Prop :=
  ∃ es found st wd wr es',
    world_run es w0 = Some wd ∧
    report_all reporters found st wd = (Ok tt, wr) ∧
    d_awaited d = hooks reporters wr ∧
    world_run es' wr = Some (d_world d).








End Driver.

End Finder.

(** ** The duplication engine, as the specification describes it *)

Module Engine.

Local Open Scope nat_scope.

(** *** Data model (specification, section 3) *)

(** Modelled from the spec: the masking modes (6). *)
Inductive mode : Type := Strict | Mild | Weak.

(** Modelled from the spec: a token (3); [tk_start] and [tk_end] are the byte offsets of its range
    [[start, end)]. *)
Record Token : Type := mkToken {
  tk_type : string;
  tk_value : string;
  tk_line : nat;
  tk_column : nat;
  tk_start : nat;
  tk_end : nat
}.

(** Modelled from the spec: a frame (3), the window of [minTokens] significant tokens: the hash of its mask keys, the
    file, the source range it spans and its position in the window sequence. *)
Record MapFrame : Type := mkFrame {
  id : N;
  f_sourceId : string;
  f_start : nat;
  f_end : nat;
  index : nat
}.

(** Modelled from the spec: a match as the matcher records it (4.4, step 4): the windows [[first_A, first_A + k]] of
    file [side_A] against the windows [[first_B, first_B + k]] of [side_B],
    [k = extensions]. *)
Record RawClone : Type := mkRaw {
  side_A : string;
  first_A : nat;
  side_B : string;
  first_B : nat;
  extensions : nat
}.

(** Token-by-token comparison of two mask-key sequences. *)
Fixpoint same_keys (xs ys : list string) : bool :=
  match xs, ys with
  | [], [] => true
  | x :: xs', y :: ys' => String.eqb x y && same_keys xs' ys'
  | _, _ => false
  end.

(** The store (4.3): the last frame recorded for each id. *)
Abbreviation store := (gmap N MapFrame).

(** The significant tokens of the files seen so far, by [sourceId]: what the
    extension reads the frames of side A from. *)
Abbreviation corpus := (gmap string (list Token)).

Section Matcher.

(** The hash is the implementer's choice (4.2); [key] is the mask key under
    the active mode, the empty string for a token the mode ignores. *)
Variable hash : string -> N.
Variable key : Token -> string.
Variable minTokens : nat.

Definition significant (ts : list Token) : list Token :=
  List.filter (fun t => negb (String.eqb (key t) "")) ts.

Definition keys (ts : list Token) : list string := map key ts.

(** The mask keys of window [i]. *)
Definition window (i : nat) (ks : list string) : list string :=
  take minTokens (drop i ks).

Definition has_frame (i : nat) (ks : list string) : bool :=
  i + minTokens <=? length ks.

Definition frame_id (i : nat) (ks : list string) : N :=
  hash (String.concat "" (window i ks)).

(** Modelled from the spec: the token-map builder [buildFrames] (4.2; the
    tokenizer package is not among the audited files). [ts] are the
    significant tokens of the file; window [i] spans the first token's
    [range.start] to the last token's [range.end]. *)
Definition frame_at (sid : string) (ts : list Token) (i : nat) : MapFrame :=
  mkFrame (frame_id i (keys ts)) sid
          (from_option tk_start 0 (ts !! i))
          (from_option tk_end 0 (ts !! (i + minTokens - 1)))
          i.

Definition buildFrames (sid : string) (ts : list Token) : list MapFrame :=
  if minTokens =? 0 then []
  else map (frame_at sid ts) (seq 0 (length ts + 1 - minTokens)).

Definition keys_of (c : corpus) (sid : string) : list string :=
  keys (default [] (c !! sid)).

(** Modelled from the spec: the collision policy (4.2). Equal ids only make a candidate; the two windows
    are compared key by key before the match is admitted. *)
Definition verify (ksA : list string) (a : nat) (ksB : list string) (b : nat) : bool :=
  has_frame a ksA && has_frame b ksB && same_keys (window a ksA) (window b ksB).

(** Modelled from the spec: self-matches (4.4). Within one file the B region must start after the
    last token of the A region. The regions are counted in tokens: side A
    covers the tokens [a .. a + len - 1], so the match is rejected when
    [b <= a + len - 1]. *)
Definition permitted (same : bool) (a b len : nat) : bool :=
  negb same || (a + len <=? b).

(** Modelled from the spec: one more window on both sides (4.4, step 4). Both sides still have a
    frame, the two frames have the same id, the new tail token has the same
    mask key, and the self-match rule still holds. *)
Definition can_extend (same : bool) (ksA : list string) (a : nat)
    (ksB : list string) (b : nat) (k : nat) : bool :=
  has_frame (a + S k) ksA && has_frame (b + S k) ksB &&
  (frame_id (a + S k) ksA =? frame_id (b + S k) ksB)%N &&
  match ksA !! (a + k + minTokens), ksB !! (b + k + minTokens) with
  | Some x, Some y => String.eqb x y
  | _, _ => false
  end &&
  permitted same a b (S k + minTokens).

Fixpoint extend (fuel : nat) (same : bool) (ksA : list string) (a : nat)
    (ksB : list string) (b : nat) (k : nat) : nat :=
  match fuel with
  | 0 => k
  | S fuel' =>
      if can_extend same ksA a ksB b k
      then extend fuel' same ksA a ksB b (S k)
      else k
  end.

(** Modelled from the spec: the Rabin-Karp matcher [detect] (4.4; the core
    package is not among the audited files). One forward pass over the frames
    of file [sid], from frame [i] on; [fuel] bounds the frames still to
    visit. *)
Fixpoint scan (c : corpus) (sid : string) (frames : list MapFrame)
    (fuel : nat) (i : nat) (st : store) : list RawClone * store :=
  match fuel with
  | 0 => ([], st)
  | S fuel' =>
      match frames !! i with
      | None => ([], st)
      | Some F =>
          match st !! id F with
          | None => scan c sid frames fuel' (S i) (<[id F := F]> st)
          | Some prior =>
              let same := String.eqb (f_sourceId prior) sid in
              if same && (index prior =? index F)
              then scan c sid frames fuel' (S i) (<[id F := F]> st)
              else
                let ksA := keys_of c (f_sourceId prior) in
                let ksB := keys_of c sid in
                if verify ksA (index prior) ksB (index F) &&
                   permitted same (index prior) (index F) minTokens
                then
                  let k := extend (length ksB) same ksA (index prior) ksB (index F) 0 in
                  let '(found, st') :=
                    scan c sid frames fuel' (index F + k + 1) (<[id F := F]> st) in
                  (mkRaw (f_sourceId prior) (index prior) sid (index F) k :: found, st')
                else scan c sid frames fuel' (S i) (<[id F := F]> st)
          end
      end
  end.

Definition detect (c : corpus) (sid : string) (frames : list MapFrame) (st : store)
    : list RawClone * store :=
  scan c sid frames (length frames) 0 st.

(** Modelled from the spec: one frame of the pass (4.4, steps 2 to 6) with the
    record [prior] that [store.get] returned for it: the raw clone it opens,
    if any, and the index at which the scan goes on. [scan] is the pass that
    visits frame after frame. *)
Definition visit (c : corpus) (sid : string) (F : MapFrame) (i : nat)
    (prior : option MapFrame) : option RawClone * nat :=
  match prior with
  | None => (None, S i)
  | Some prior =>
      let same := String.eqb (f_sourceId prior) sid in
      if same && (index prior =? index F) then (None, S i)
      else
        let ksA := keys_of c (f_sourceId prior) in
        let ksB := keys_of c sid in
        if verify ksA (index prior) ksB (index F) &&
           permitted same (index prior) (index F) minTokens
        then
          let k := extend (length ksB) same ksA (index prior) ksB (index F) 0 in
          (Some (mkRaw (f_sourceId prior) (index prior) sid (index F) k),
           index F + k + 1)
        else (None, S i)
  end.

Lemma scan_visit c sid frames fuel i st :
  scan c sid frames (S fuel) i st =
  match frames !! i with
  | None => ([], st)
  | Some F =>
      let '(raw, j) := visit c sid F i (st !! id F) in
      let '(found, st') := scan c sid frames fuel j (<[id F := F]> st) in
      (option_list raw ++ found, st')
  end.
Proof.
  cbn [scan]. destruct (frames !! i) as [F|]; [|done].
  unfold visit. destruct (st !! id F) as [prior|].
  - destruct (_ && (index prior =? index F)).
    + by destruct (scan _ _ _ _ _ _).
    + destruct (verify _ _ _ _ && _); by destruct (scan _ _ _ _ _ _).
  - by destruct (scan _ _ _ _ _ _).
Qed.

(** The files of a run in the order the driver supplies them, each with its
    significant tokens; the store and the corpus are shared. *)
Fixpoint detect_files (files : list (string * list Token)) (c : corpus) (st : store)
    : list RawClone :=
  match files with
  | [] => []
  | (sid, ts) :: rest =>
      let c' := <[sid := ts]> c in
      let '(found, st') := detect c' sid (buildFrames sid ts) st in
      found ++ detect_files rest c' st'
  end.

(** The mask keys a side of a raw clone covers. *)
Definition region (c : corpus) (sid : string) (first k : nat) : list string :=
  take (k + minTokens) (drop first (keys_of c sid)).

(** The byte range [[start, end)] a side covers in its file, and the token
    invariant of the data model: ranges are ordered and do not overlap. *)
Definition byte_range (ts : list Token) (first k : nat) : nat * nat :=
  (from_option tk_start 0 (ts !! first),
   from_option tk_end 0 (ts !! (first + k + minTokens - 1))).

Definition ranges_disjoint (r1 r2 : nat * nat) : Prop :=
  r1.2 ≤ r2.1 ∨ r2.2 ≤ r1.1.

Definition tokens_ordered (ts : list Token) : Prop :=
  (∀ i t, ts !! i = Some t → tk_start t ≤ tk_end t) ∧
  (∀ i j t u, i < j → ts !! i = Some t → ts !! j = Some u → tk_end t ≤ tk_start u).

(** *** Verification and extension *)

Lemma same_keys_eq xs : ∀ ys, same_keys xs ys = true ↔ xs = ys.
Proof.
  induction xs as [|x xs IH]; intros [|y ys]; cbn; try (split; [done|done]).
  rewrite andb_true_iff, IH, String.eqb_eq. split; [by intros [-> ->]|].
  by intros [= -> ->].
Qed.

(** The two sides agree on [len] tokens from [a] and from [b], and both have
    that many. *)
Definition agree (ksA : list string) (a : nat) (ksB : list string) (b len : nat) : Prop :=
  take len (drop a ksA) = take len (drop b ksB) ∧
  a + len ≤ length ksA ∧ b + len ≤ length ksB.

Lemma verify_agree ksA a ksB b :
  verify ksA a ksB b = true → agree ksA a ksB b minTokens.
Proof.
  unfold verify, has_frame, window, agree.
  intros [[Ha Hb]%andb_prop Hs]%andb_prop.
  apply Nat.leb_le in Ha, Hb. by apply same_keys_eq in Hs.
Qed.

Lemma take_drop_S {A} (l : list A) a n x :
  l !! (a + n) = Some x → take (S n) (drop a l) = take n (drop a l) ++ [x].
Proof. intros H. apply take_S_r. by rewrite lookup_drop. Qed.

Lemma can_extend_agree same ksA a ksB b k :
  can_extend same ksA a ksB b k = true →
  agree ksA a ksB b (k + minTokens) →
  agree ksA a ksB b (S k + minTokens) ∧
  permitted same a b (S k + minTokens) = true.
Proof.
  unfold can_extend, has_frame, agree.
  intros [[[[Ha Hb]%andb_prop _]%andb_prop Ht]%andb_prop Hp]%andb_prop (He & _ & _).
  apply Nat.leb_le in Ha, Hb. split; [|done].
  destruct (ksA !! (a + k + minTokens)) as [x|] eqn:Ex; [|done].
  destruct (ksB !! (b + k + minTokens)) as [y|] eqn:Ey; [|done].
  apply String.eqb_eq in Ht as ->.
  split; [|lia]. cbn [Nat.add].
  rewrite (take_drop_S ksA a (k + minTokens) y) by (by rewrite Nat.add_assoc).
  rewrite (take_drop_S ksB b (k + minTokens) y) by (by rewrite Nat.add_assoc).
  by rewrite He.
Qed.

Lemma extend_agree fuel same ksA a ksB b : ∀ k,
  agree ksA a ksB b (k + minTokens) →
  permitted same a b (k + minTokens) = true →
  agree ksA a ksB b (extend fuel same ksA a ksB b k + minTokens) ∧
  permitted same a b (extend fuel same ksA a ksB b k + minTokens) = true ∧
  k ≤ extend fuel same ksA a ksB b k.
Proof.
  induction fuel as [|fuel IH]; intros k Hag Hp; cbn [extend].
  - split; [done|split; [done|lia]].
  - destruct (can_extend same ksA a ksB b k) eqn:Hc.
    + destruct (can_extend_agree _ _ _ _ _ _ Hc Hag) as [Hag' Hp'].
      destruct (IH (S k) Hag' Hp') as (? & ? & ?). split; [done|split; [done|lia]].
    + split; [done|split; [done|lia]].
Qed.

(** What the matcher has checked for a clone it emits. *)
Definition admitted (c : corpus) (sid : string) (rc : RawClone) : Prop :=
  side_B rc = sid ∧
  agree (keys_of c (side_A rc)) (first_A rc) (keys_of c sid) (first_B rc)
        (extensions rc + minTokens) ∧
  permitted (String.eqb (side_A rc) sid) (first_A rc) (first_B rc)
            (extensions rc + minTokens) = true.

Lemma scan_admitted c sid frames fuel : ∀ i st rc,
  rc ∈ (scan c sid frames fuel i st).1 → admitted c sid rc.
Proof.
  induction fuel as [|fuel IH]; intros i st rc; cbn [scan].
  - intros H. by apply elem_of_nil in H.
  - destruct (frames !! i) as [F|]; [|intros H; by apply elem_of_nil in H].
    destruct (st !! id F) as [prior|]; [|apply IH].
    destruct (String.eqb (f_sourceId prior) sid && (index prior =? index F));
      [apply IH|].
    destruct (verify _ _ _ _ && permitted _ _ _ _) eqn:Hv; [|apply IH].
    apply andb_prop in Hv as [Hv Hp].
    destruct (scan c sid frames fuel _ _) as [found st'] eqn:Hs.
    cbn [fst]. intros [->|Hin]%elem_of_cons.
    + apply verify_agree in Hv.
      destruct (extend_agree (length (keys_of c sid)) (String.eqb (f_sourceId prior) sid)
                  (keys_of c (f_sourceId prior)) (index prior) (keys_of c sid)
                  (index F) 0 Hv Hp) as (Hag & Hp' & _).
      unfold admitted. cbn. split; [done|]. split; [exact Hag|exact Hp'].
    + eapply IH. rewrite Hs. exact Hin.
Qed.

(** C3. Every clone the matcher emits covers the same sequence of mask keys
    on both sides, key by key, and both sides have all of the
    [k + minTokens] tokens; this holds for every hash function, so equal
    frame ids alone never admit a match. *)
Theorem emitted_clone_sides_have_equal_keys
  (c : corpus) (sid : string) (frames : list MapFrame) (st : store) (rc : RawClone) :
  rc ∈ (detect c sid frames st).1 →
  side_B rc = sid ∧
  region c (side_A rc) (first_A rc) (extensions rc) =
    region c (side_B rc) (first_B rc) (extensions rc) ∧
  length (region c (side_A rc) (first_A rc) (extensions rc)) =
    extensions rc + minTokens ∧
  length (region c (side_B rc) (first_B rc) (extensions rc)) =
    extensions rc + minTokens ∧
  (∀ j, j < extensions rc + minTokens →
     ∃ x, keys_of c (side_A rc) !! (first_A rc + j) = Some x ∧
          keys_of c (side_B rc) !! (first_B rc + j) = Some x).
Proof.
  intros Hin. apply scan_admitted in Hin as (HB & (He & Ha & Hb) & _).
  unfold region. rewrite HB.
  assert (length (take (extensions rc + minTokens)
                       (drop (first_A rc) (keys_of c (side_A rc))))
          = extensions rc + minTokens) as HlA
    by (rewrite length_take, length_drop; lia).
  assert (length (take (extensions rc + minTokens)
                       (drop (first_B rc) (keys_of c sid)))
          = extensions rc + minTokens) as HlB
    by (rewrite length_take, length_drop; lia).
  repeat split; try done.
  intros j Hj.
  destruct (lookup_lt_is_Some_2 (keys_of c (side_A rc)) (first_A rc + j)) as [x Hx];
    [lia|].
  exists x. split; [done|].
  assert (take (extensions rc + minTokens) (drop (first_A rc) (keys_of c (side_A rc)))
            !! j = Some x) as Hj'
    by (by rewrite lookup_take_lt, lookup_drop).
  rewrite He in Hj'. by rewrite lookup_take_lt, lookup_drop in Hj' by done.
Qed.

(** C5. A clone the matcher emits with both sides in one file has side A end
    before side B begins: counted in tokens, and so, for tokens whose ranges
    are ordered as the data model requires, in bytes. *)
Theorem same_file_clone_ranges_disjoint
  (c : corpus) (sid : string) (frames : list MapFrame) (st : store) (rc : RawClone) :
  rc ∈ (detect c sid frames st).1 →
  side_A rc = side_B rc →
  first_A rc + extensions rc + minTokens ≤ first_B rc ∧
  ∀ ts, c !! sid = Some ts → tokens_ordered ts → 1 ≤ minTokens →
        ranges_disjoint (byte_range ts (first_A rc) (extensions rc))
                        (byte_range ts (first_B rc) (extensions rc)).
Proof.
  intros Hin Hsame.
  apply scan_admitted in Hin as (HB & (_ & Ha & Hb) & Hp).
  rewrite Hsame, HB in Hp. rewrite String.eqb_refl in Hp.
  unfold permitted in Hp. cbn in Hp. apply Nat.leb_le in Hp.
  split; [lia|]. intros ts Hts [_ Hord] Hm. left. unfold byte_range. cbn.
  rewrite Hsame, HB in Ha. unfold keys_of, keys in Ha, Hb.
  rewrite Hts in Ha, Hb. cbn in Ha, Hb. rewrite length_map in Ha, Hb.
  destruct (lookup_lt_is_Some_2 ts (first_A rc + extensions rc + minTokens - 1))
    as [t Ht]; [lia|].
  destruct (lookup_lt_is_Some_2 ts (first_B rc)) as [u Hu]; [lia|].
  rewrite Ht, Hu. cbn.
  apply (Hord (first_A rc + extensions rc + minTokens - 1) (first_B rc)); [lia|done..].
Qed.

(** *** The frames of a file *)

Lemma buildFrames_lookup sid ts i F :
  buildFrames sid ts !! i = Some F ↔
  1 ≤ minTokens ∧ i + minTokens ≤ length ts ∧ F = frame_at sid ts i.
Proof.
  unfold buildFrames. destruct (Nat.eqb_spec minTokens 0) as [Hz|Hnz].
  - rewrite lookup_nil. split; [done|lia].
  - change (map (frame_at sid ts) ?l) with (frame_at sid ts <$> l).
    rewrite list_lookup_fmap. split.
    + destruct (seq 0 (length ts + 1 - minTokens) !! i) as [j|] eqn:E; [|done].
      apply lookup_seq in E as [-> Hi]. cbn. intros [= <-]. repeat split; lia.
    + intros (Hm & Hi & ->). rewrite lookup_seq_lt by lia. done.
Qed.

Lemma buildFrames_length sid ts :
  1 ≤ minTokens → length (buildFrames sid ts) = length ts + 1 - minTokens.
Proof.
  intros Hm. unfold buildFrames. destruct (Nat.eqb_spec minTokens 0); [lia|].
  by rewrite length_map, length_seq.
Qed.

(** Every frame sits at its own index. *)
Definition well_indexed (frames : list MapFrame) : Prop :=
  ∀ i F, frames !! i = Some F → index F = i.

Lemma buildFrames_well_indexed sid ts : well_indexed (buildFrames sid ts).
Proof. intros i F (_ & _ & ->)%buildFrames_lookup. reflexivity. Qed.

(** *** No clone is emitted twice *)

(** The clones of one pass start at ascending frames of side B. *)
Fixpoint ascending (i : nat) (found : list RawClone) : Prop :=
  match found with
  | [] => True
  | rc :: rest => i ≤ first_B rc ∧ ascending (S (first_B rc + extensions rc)) rest
  end.

Lemma ascending_weaken found : ∀ i j, j ≤ i → ascending i found → ascending j found.
Proof. destruct found as [|rc rest]; cbn; [done|]. intros i j Hj [? ?]. split; [lia|done]. Qed.

Lemma ascending_lower found : ∀ i rc, ascending i found → rc ∈ found → i ≤ first_B rc.
Proof.
  induction found as [|rc0 rest IH]; cbn; intros i rc.
  - intros _ H. by apply elem_of_nil in H.
  - intros [Hi Hrest] [->|Hin]%elem_of_cons; [done|].
    specialize (IH _ _ Hrest Hin). lia.
Qed.

Lemma ascending_NoDup found : ∀ i, ascending i found → NoDup found.
Proof.
  induction found as [|rc rest IH]; cbn; intros i; [constructor|].
  intros [Hi Hrest]. constructor; [|by eapply IH].
  intros Hin. pose proof (ascending_lower _ _ _ Hrest Hin). lia.
Qed.

Lemma scan_ascending c sid frames fuel :
  well_indexed frames →
  ∀ i st, ascending i (scan c sid frames fuel i st).1.
Proof.
  intros Hwi. induction fuel as [|fuel IH]; intros i st; cbn [scan]; [done|].
  destruct (frames !! i) as [F|] eqn:EF; [|done].
  pose proof (Hwi _ _ EF) as Hidx.
  assert (∀ st', ascending i (scan c sid frames fuel (S i) st').1) as Hnext.
  { intros st'. eapply ascending_weaken; [|apply IH]. lia. }
  destruct (st !! id F) as [prior|]; [|apply Hnext].
  destruct (String.eqb (f_sourceId prior) sid && (index prior =? index F));
    [apply Hnext|].
  destruct (verify _ _ _ _ && permitted _ _ _ _); [|apply Hnext].
  match goal with |- context [scan c sid frames fuel ?j ?st'] =>
    pose proof (IH j st') as Hrest; destruct (scan c sid frames fuel j st') as [found st'']
  end.
  cbn. split; [lia|]. eapply ascending_weaken; [|exact Hrest]. lia.
Qed.

Lemma detect_files_sides files : ∀ c st rc,
  rc ∈ detect_files files c st → side_B rc ∈ map fst files.
Proof.
  induction files as [|[sid ts] rest IH]; intros c st rc; cbn [detect_files].
  - intros H. by apply elem_of_nil in H.
  - unfold detect.
    destruct (scan _ sid (buildFrames sid ts) _ 0 st) as [found st'] eqn:Hs.
    intros [Hin|Hin]%elem_of_app; cbn; apply elem_of_cons.
    + left. assert (rc ∈ (scan (<[sid:=ts]> c) sid (buildFrames sid ts)
                            (length (buildFrames sid ts)) 0 st).1) as Hin'
        by (by rewrite Hs).
      by apply scan_admitted in Hin' as (? & _).
    + right. by eapply IH.
Qed.

Lemma detect_files_NoDup files : ∀ c st,
  NoDup (map fst files) → NoDup (detect_files files c st).
Proof.
  induction files as [|[sid ts] rest IH]; intros c st; cbn [detect_files map fst].
  - constructor.
  - intros [Hnotin Hnd]%NoDup_cons. unfold detect.
    pose proof (scan_ascending (<[sid:=ts]> c) sid (buildFrames sid ts)
                  (length (buildFrames sid ts))
                  (buildFrames_well_indexed sid ts) 0 st) as Hasc.
    destruct (scan _ sid (buildFrames sid ts) _ 0 st) as [found st'] eqn:Hs.
    apply NoDup_app. split; [by eapply ascending_NoDup|]. split; [|by apply IH].
    intros rc Hin Hin'. apply detect_files_sides in Hin'.
    assert (rc ∈ (scan (<[sid:=ts]> c) sid (buildFrames sid ts)
                    (length (buildFrames sid ts)) 0 st).1) as Hin0
      by (by rewrite Hs).
    apply scan_admitted in Hin0 as (HB & _). rewrite HB in Hin'. done.
Qed.

(** *** Identical regions *)

Lemma agree_iff ksA a ksB b n :
  agree ksA a ksB b n ↔
  a + n ≤ length ksA ∧ b + n ≤ length ksB ∧
  ∀ j, j < n → ksA !! (a + j) = ksB !! (b + j).
Proof.
  unfold agree. split.
  - intros (He & Ha & Hb). split; [done|]. split; [done|]. intros j Hj.
    pose proof (f_equal (fun l => l !! j) He) as H. cbn in H.
    by rewrite !lookup_take_lt, !lookup_drop in H by done.
  - intros (Ha & Hb & He). split; [|done]. apply list_eq. intros j.
    destruct (decide (j < n)) as [Hj|Hj].
    + rewrite !lookup_take_lt, !lookup_drop by done. by apply He.
    + rewrite !lookup_take_ge by lia. done.
Qed.

Lemma agree_le ksA a ksB b n n' :
  agree ksA a ksB b n → n' ≤ n → agree ksA a ksB b n'.
Proof.
  rewrite !agree_iff. intros (Ha & Hb & He) Hn.
  split; [lia|]. split; [lia|]. intros j Hj. apply He. lia.
Qed.

Lemma agree_shift ksA a ksB b n d :
  agree ksA a ksB b n → d ≤ n → agree ksA (a + d) ksB (b + d) (n - d).
Proof.
  rewrite !agree_iff. intros (Ha & Hb & He) Hd.
  split; [lia|]. split; [lia|]. intros j Hj.
  rewrite <- !Nat.add_assoc. apply He. lia.
Qed.

Lemma agree_window ksA a ksB b :
  agree ksA a ksB b minTokens ↔
  has_frame a ksA = true ∧ has_frame b ksB = true ∧ window a ksA = window b ksB.
Proof.
  unfold agree, has_frame, window. rewrite !Nat.leb_le. tauto.
Qed.

Lemma agree_frame_id ksA a ksB b n j :
  agree ksA a ksB b n → j + minTokens ≤ n →
  has_frame (a + j) ksA = true ∧ has_frame (b + j) ksB = true ∧
  frame_id (a + j) ksA = frame_id (b + j) ksB.
Proof.
  intros Hag Hj.
  assert (agree ksA (a + j) ksB (b + j) minTokens) as H.
  { eapply agree_le; [by apply (agree_shift _ _ _ _ _ j Hag); lia|lia]. }
  apply agree_window in H as (? & ? & Hw). unfold frame_id. by rewrite Hw.
Qed.

Lemma can_extend_false ksA a ksB b k :
  can_extend false ksA a ksB b k = false →
  ¬ agree ksA a ksB b (S (k + minTokens)).
Proof.
  intros Hc Hag. unfold can_extend in Hc.
  destruct (agree_frame_id _ _ _ _ _ (S k) Hag) as (H1 & H2 & H3); [lia|].
  rewrite H1, H2, H3, N.eqb_refl in Hc. cbn [andb permitted negb orb] in Hc.
  apply agree_iff in Hag as (Ha & Hb & He).
  specialize (He (k + minTokens)). rewrite !Nat.add_assoc in He.
  rewrite <- He in Hc by lia.
  destruct (lookup_lt_is_Some_2 ksA (a + k + minTokens)) as [x Hx]; [lia|].
  rewrite Hx, String.eqb_refl in Hc. done.
Qed.

Lemma extend_stops fuel ksA a ksB b : ∀ k,
  can_extend false ksA a ksB b (extend fuel false ksA a ksB b k) = false ∨
  extend fuel false ksA a ksB b k = k + fuel.
Proof.
  induction fuel as [|fuel IH]; intros k; cbn [extend]; [right; lia|].
  destruct (can_extend false ksA a ksB b k) eqn:Hc; [|by left].
  destruct (IH (S k)) as [H|H]; [by left|right; lia].
Qed.

(** The extension of a verified candidate across two files stops exactly
    where the two sides cease to agree. *)
Lemma extend_maximal ksA a ksB b :
  1 ≤ minTokens → agree ksA a ksB b minTokens →
  agree ksA a ksB b (extend (length ksB) false ksA a ksB b 0 + minTokens) ∧
  ¬ agree ksA a ksB b (S (extend (length ksB) false ksA a ksB b 0 + minTokens)).
Proof.
  intros Hm Hag.
  destruct (extend_agree (length ksB) false ksA a ksB b 0 Hag eq_refl) as (Hk & _ & _).
  split; [done|].
  destruct (extend_stops (length ksB) ksA a ksB b 0) as [Hc|Hfuel].
  - by apply can_extend_false.
  - destruct Hk as (_ & _ & Hb). rewrite Hfuel in Hb. lia.
Qed.

(** A maximal pair of identical regions: [len >= minTokens] keys from [a] in
    one file and from [b] in the other agree, and the agreement extends
    neither to the right nor to the left. *)
Definition maximal_pair (ksA : list string) (a : nat) (ksB : list string)
    (b len : nat) : Prop :=
  minTokens ≤ len ∧
  agree ksA a ksB b len ∧
  ¬ agree ksA a ksB b (S len) ∧
  (a = 0 ∨ b = 0 ∨ ksA !! (a - 1) ≠ ksB !! (b - 1)).

(** No window of the file occurs in it twice. *)
Definition no_repeated_window (ks : list string) : Prop :=
  ∀ i j, has_frame i ks = true → has_frame j ks = true →
         window i ks = window j ks → i = j.

(** The hash tells the windows of the two sequences apart. *)
Definition collision_free (ksA ksB : list string) : Prop :=
  ∀ i j, has_frame i ksA = true → has_frame j ksB = true →
         frame_id i ksA = frame_id j ksB → window i ksA = window j ksB.

(** *** Two files without repeated windows *)

Section TwoFiles.

Variables (X Y : string) (tsX tsY : list Token).

Hypothesis min_positive : 1 ≤ minTokens.
Hypothesis different_files : X ≠ Y.
Hypothesis no_repeat_X : no_repeated_window (keys tsX).
Hypothesis no_repeat_Y : no_repeated_window (keys tsY).
Hypothesis no_collision_X : collision_free (keys tsX) (keys tsX).
Hypothesis no_collision_Y : collision_free (keys tsY) (keys tsY).
Hypothesis no_collision_XY : collision_free (keys tsX) (keys tsY).

Local Abbreviation kX := (keys tsX).
Local Abbreviation kY := (keys tsY).
Local Abbreviation cX := (<[X := tsX]> (∅ : corpus)).
Local Abbreviation cXY := (<[Y := tsY]> (<[X := tsX]> (∅ : corpus))).

Lemma ids_distinct_X i j :
  has_frame i kX = true → has_frame j kX = true →
  frame_id i kX = frame_id j kX → i = j.
Proof. intros Hi Hj He. apply no_repeat_X; [done..|]. by apply no_collision_X. Qed.

Lemma ids_distinct_Y i j :
  has_frame i kY = true → has_frame j kY = true →
  frame_id i kY = frame_id j kY → i = j.
Proof. intros Hi Hj He. apply no_repeat_Y; [done..|]. by apply no_collision_Y. Qed.

Lemma frames_lookup sid ts i F :
  buildFrames sid ts !! i = Some F ↔
  has_frame i (keys ts) = true ∧ F = frame_at sid ts i.
Proof.
  rewrite buildFrames_lookup. unfold has_frame, keys. rewrite length_map, Nat.leb_le.
  split; [by intros (_ & ? & ?)|by intros (? & ?)].
Qed.

Lemma frames_lookup_None sid ts i :
  buildFrames sid ts !! i = None → length (buildFrames sid ts) ≤ i.
Proof. apply lookup_ge_None. Qed.

(** The store during the pass over [X]: the frames of [X] below [i], and
    nothing else. *)
Definition holds_X (i : nat) (st : store) : Prop :=
  (∀ j, j < i → has_frame j kX = true →
        st !! frame_id j kX = Some (frame_at X tsX j)) ∧
  (∀ n p, st !! n = Some p →
          ∃ j, j < i ∧ has_frame j kX = true ∧ n = frame_id j kX ∧ p = frame_at X tsX j).

Lemma holds_X_insert i st :
  has_frame i kX = true → holds_X i st →
  holds_X (S i) (<[frame_id i kX := frame_at X tsX i]> st).
Proof.
  intros Hi [H1 H2]. split.
  - intros j Hj Hfj. destruct (decide (j = i)) as [->|Hne].
    + apply lookup_insert_eq.
    + rewrite lookup_insert_ne; [apply H1; [lia|done]|].
      intros He. apply Hne. symmetry. by apply ids_distinct_X.
  - intros n p. destruct (decide (frame_id i kX = n)) as [<-|Hne].
    + rewrite lookup_insert_eq. intros [= <-]. exists i. repeat split; [lia|done].
    + rewrite lookup_insert_ne by done. intros (j & ? & ? & ? & ?)%H2.
      exists j. repeat split; [lia|done..].
Qed.

Lemma has_frame_lt sid ts j :
  has_frame j (keys ts) = true → j < length (buildFrames sid ts).
Proof.
  intros Hj. eapply lookup_lt_Some. apply frames_lookup. by split.
Qed.

Lemma holds_X_clip i st :
  length (buildFrames X tsX) ≤ i → holds_X i st →
  holds_X (length (buildFrames X tsX)) st.
Proof.
  intros Hi [H1 H2]. split.
  - intros j Hj Hfj. apply H1; [lia|done].
  - intros n p (j & ? & Hfj & ? & ?)%H2. exists j.
    split; [by apply has_frame_lt|done].
Qed.

(** The pass over [X] from the fresh store emits nothing and records every
    frame of [X]. *)
Lemma scan_X fuel : ∀ i st,
  length (buildFrames X tsX) ≤ i + fuel → holds_X i st →
  ∃ st', scan cX X (buildFrames X tsX) fuel i st = ([], st') ∧
         holds_X (length (buildFrames X tsX)) st'.
Proof.
  induction fuel as [|fuel IH]; intros i st Hfuel Hst; cbn [scan].
  - exists st. split; [done|]. apply (holds_X_clip i); [lia|done].
  - destruct (buildFrames X tsX !! i) as [F|] eqn:EF.
    + apply frames_lookup in EF as [Hi ->]. cbn [id frame_at].
      destruct (st !! frame_id i kX) as [p|] eqn:Ep.
      * destruct Hst as [_ H2]. apply H2 in Ep as (j & Hj & Hfj & He & _).
        apply ids_distinct_X in He; [lia|done..].
      * apply IH; [lia|]. by apply holds_X_insert.
    + apply frames_lookup_None in EF. exists st. split; [done|].
      by apply (holds_X_clip i).
Qed.

(** The store during the pass over [Y], seen from the frames still to come:
    the record under the id of such a frame is the frame of [X] with that id,
    if [X] has one. *)
Definition store_ok (i : nat) (st : store) : Prop :=
  ∀ j, i ≤ j → has_frame j kY = true →
    match st !! frame_id j kY with
    | Some p => ∃ a, has_frame a kX = true ∧ p = frame_at X tsX a ∧
                     frame_id a kX = frame_id j kY
    | None => ∀ a, has_frame a kX = true → frame_id a kX ≠ frame_id j kY
    end.

(** No match runs across the boundary before frame [i] of [Y]. *)
Definition boundary_free (i : nat) : Prop :=
  ∀ a, 0 < a → 0 < i → ¬ agree kX (a - 1) kY (i - 1) (S minTokens).

Lemma store_ok_start st :
  holds_X (length (buildFrames X tsX)) st → store_ok 0 st.
Proof.
  intros [H1 H2] j _ Hj. destruct (st !! frame_id j kY) as [p|] eqn:Ep.
  - apply H2 in Ep as (a & _ & Ha & He & ->). exists a. by repeat split.
  - intros a Ha He. rewrite <- He, H1 in Ep; [done| |done].
    by apply has_frame_lt.
Qed.

Lemma store_ok_insert i i' st :
  i < i' → has_frame i kY = true → store_ok i st →
  store_ok i' (<[frame_id i kY := frame_at Y tsY i]> st).
Proof.
  intros Hi Hfi Hst j Hj Hfj. rewrite lookup_insert_ne.
  - apply Hst; [lia|done].
  - intros He. apply ids_distinct_Y in He; [lia|done..].
Qed.

Lemma keys_of_X : keys_of cXY X = kX.
Proof. unfold keys_of. by rewrite lookup_insert_ne, lookup_insert_eq. Qed.

Lemma keys_of_Y : keys_of cXY Y = kY.
Proof. unfold keys_of. by rewrite lookup_insert_eq. Qed.

Lemma agree_has_frames a b len :
  minTokens ≤ len → agree kX a kY b len →
  has_frame a kX = true ∧ has_frame b kY = true ∧ frame_id a kX = frame_id b kY.
Proof.
  intros Hlen Hag. destruct (agree_frame_id _ _ _ _ _ 0 Hag) as (H1 & H2 & H3); [lia|].
  rewrite Nat.add_0_r in H1, H2. rewrite !Nat.add_0_r in H3. by split; [|split].
Qed.

Lemma agree_join a b n :
  agree kX a kY b n → agree kX (a + (n - minTokens)) kY (b + (n - minTokens)) (S minTokens) →
  minTokens ≤ n → agree kX a kY b (S n).
Proof.
  rewrite !agree_iff. intros (Ha & Hb & He) (Ha' & Hb' & He') Hn.
  split; [lia|]. split; [lia|]. intros j Hj.
  destruct (decide (j < n)) as [Hlt|Hge]; [by apply He|].
  assert (j = n) as -> by lia.
  specialize (He' minTokens). rewrite <- !Nat.add_assoc in He'.
  replace (n - minTokens + minTokens) with n in He' by lia. apply He'. lia.
Qed.

Lemma agree_left a b n :
  0 < a → 0 < b → kX !! (a - 1) = kY !! (b - 1) →
  agree kX a kY b n → agree kX (a - 1) kY (b - 1) (S n).
Proof.
  rewrite !agree_iff. intros Ha0 Hb0 Hprev (Ha & Hb & He).
  split; [lia|]. split; [lia|]. intros [|j] Hj.
  - by rewrite !Nat.add_0_r.
  - replace (a - 1 + S j) with (a + j) by lia.
    replace (b - 1 + S j) with (b + j) by lia. apply He. lia.
Qed.

Lemma maximal_pair_unique_length a b len len' :
  agree kX a kY b len → ¬ agree kX a kY b (S len) →
  agree kX a kY b len' → ¬ agree kX a kY b (S len') → len = len'.
Proof.
  intros H1 H2 H3 H4.
  destruct (Nat.lt_trichotomy len len') as [Hlt|[->|Hgt]]; [|done|].
  - destruct H2. eapply agree_le; [exact H3|lia].
  - destruct H4. eapply agree_le; [exact H1|lia].
Qed.

(** The pass over [Y]: from a frame that no earlier match runs into, the
    clones emitted are the maximal pairs that start there or later. *)
Lemma scan_Y fuel : ∀ i st,
  length (buildFrames Y tsY) ≤ i + fuel → store_ok i st → boundary_free i →
  (∀ rc, rc ∈ (scan cXY Y (buildFrames Y tsY) fuel i st).1 →
     ∃ a b len, rc = mkRaw X a Y b (len - minTokens) ∧
                maximal_pair kX a kY b len ∧ i ≤ b) ∧
  (∀ a b len, maximal_pair kX a kY b len → i ≤ b →
     mkRaw X a Y b (len - minTokens) ∈ (scan cXY Y (buildFrames Y tsY) fuel i st).1).
Proof.
  assert (∀ i, length (buildFrames Y tsY) ≤ i →
          ∀ a b len, maximal_pair kX a kY b len → i ≤ b → False) as Hend.
  { intros i Hi a b len (Hlen & Hag & _) Hb.
    apply agree_has_frames in Hag as (_ & Hfb & _); [|done].
    apply (has_frame_lt Y) in Hfb. lia. }
  induction fuel as [|fuel IH]; intros i st Hfuel Hst Hbf; cbn [scan].
  { split; [intros rc H; by apply elem_of_nil in H|].
    intros a b len Hmp Hb. destruct (Hend i ltac:(lia) a b len Hmp Hb). }
  destruct (buildFrames Y tsY !! i) as [F|] eqn:EF.
  2:{ apply frames_lookup_None in EF.
      split; [intros rc H; by apply elem_of_nil in H|].
      intros a b len Hmp Hb. destruct (Hend i EF a b len Hmp Hb). }
  apply frames_lookup in EF as [Hfi ->]. cbn [id index frame_at].
  pose proof (Hst i (Nat.le_refl i) Hfi) as Hlook.
  destruct (st !! frame_id i kY) as [p|] eqn:Ep.
  - (* a frame of X has this id *)
    destruct Hlook as (a0 & Hfa0 & -> & Hid). cbn [f_sourceId index frame_at].
    assert (String.eqb X Y = false) as -> by (by apply String.eqb_neq).
    cbn [andb]. rewrite keys_of_X, keys_of_Y.
    assert (agree kX a0 kY i minTokens) as Hag0.
    { apply agree_window. repeat split; [done..|]. by apply no_collision_XY. }
    assert (verify kX a0 kY i = true) as ->.
    { unfold verify. rewrite Hfa0, Hfi. cbn. apply same_keys_eq.
      by apply agree_window in Hag0 as (_ & _ & ?). }
    cbn [permitted negb orb andb].
    set (k := extend (length kY) false kX a0 kY i 0).
    destruct (extend_maximal kX a0 kY i min_positive Hag0) as [Hagk Hmaxk].
    fold k in Hagk, Hmaxk.
    assert (maximal_pair kX a0 kY i (k + minTokens)) as Hhead.
    { split; [lia|]. split; [done|]. split; [done|].
      destruct (decide (a0 = 0)) as [|Ha0]; [by left|].
      destruct (decide (i = 0)) as [|Hi0]; [by right; left|].
      right. right. intros Hprev.
      apply (Hbf a0); [lia..|].
      eapply agree_le; [apply (agree_left a0 i (k + minTokens))|]; [lia|lia|done|done|lia]. }
    assert (boundary_free (i + k + 1)) as Hbf'.
    { intros a' Ha' _ Hag'. replace (i + k + 1 - 1) with (i + k) in Hag' by lia.
      destruct (agree_frame_id _ _ _ _ _ k Hagk) as (Hf1 & _ & He1); [lia|].
      destruct (agree_has_frames (a' - 1) (i + k) (S minTokens)) as (Hf2 & _ & He2);
        [lia|done|].
      assert (a' - 1 = a0 + k) as Heq.
      { apply ids_distinct_X; [done..|]. congruence. }
      rewrite Heq in Hag'. apply Hmaxk. apply agree_join; [done| |lia].
      replace (k + minTokens - minTokens) with k by lia. done. }
    assert (store_ok (i + k + 1) (<[frame_id i kY := frame_at Y tsY i]> st)) as Hst'.
    { apply (store_ok_insert i); [lia|done..]. }
    specialize (IH (i + k + 1) _ ltac:(lia) Hst' Hbf') as [IHs IHc].
    destruct (scan cXY Y (buildFrames Y tsY) fuel (i + k + 1) _) as [found st'] eqn:Hs.
    cbn [fst] in *. split.
    + intros rc [->|Hin]%elem_of_cons.
      * exists a0, i, (k + minTokens). split; [|split; [done|lia]].
        f_equal. lia.
      * destruct (IHs rc Hin) as (a & b & len & ? & ? & ?).
        exists a, b, len. split; [done|split; [done|lia]].
    + intros a b len Hmp Hb. apply elem_of_cons.
      pose proof Hmp as (Hlen & Hag & Hmax & Hleft).
      destruct (agree_has_frames a b len Hlen Hag) as (Hfa & Hfb & Heab).
      destruct (decide (b = i)) as [->|Hbi].
      * left. assert (a = a0) as -> by (apply ids_distinct_X; [done..|congruence]).
        assert (len = k + minTokens) as ->
          by (by apply (maximal_pair_unique_length a0 i)).
        f_equal. lia.
      * right. apply IHc; [done|].
        destruct (decide (i + k + 1 ≤ b)) as [|Hin]; [done|]. exfalso.
        destruct (agree_frame_id _ _ _ _ _ (b - i) Hagk) as (Hf1 & _ & He1); [lia|].
        replace (i + (b - i)) with b in He1 by lia.
        assert (a = a0 + (b - i)) as Ha
          by (apply ids_distinct_X; [done..|congruence]).
        destruct Hleft as [?|[?|Hneq]]; [lia..|]. apply Hneq.
        apply agree_iff in Hagk as (_ & _ & He).
        specialize (He (b - i - 1)).
        replace (a0 + (b - i - 1)) with (a - 1) in He by lia.
        replace (i + (b - i - 1)) with (b - 1) in He by lia. apply He. lia.
  - (* no frame of X has this id *)
    assert (boundary_free (S i)) as Hbf'.
    { intros a' Ha' _ Hag'. replace (S i - 1) with i in Hag' by lia.
      destruct (agree_has_frames (a' - 1) i (S minTokens)) as (Hf & _ & He);
        [lia|done|]. by apply (Hlook (a' - 1)). }
    assert (store_ok (S i) (<[frame_id i kY := frame_at Y tsY i]> st)) as Hst'
      by (apply (store_ok_insert i); [lia|done..]).
    specialize (IH (S i) _ ltac:(lia) Hst' Hbf') as [IHs IHc]. split.
    + intros rc Hin. destruct (IHs rc Hin) as (a & b & len & ? & ? & ?).
      exists a, b, len. split; [done|split; [done|lia]].
    + intros a b len Hmp Hb. apply IHc; [done|].
      destruct (decide (b = i)) as [->|]; [|lia]. exfalso.
      destruct Hmp as (Hlen & Hag & _).
      destruct (agree_has_frames a i len Hlen Hag) as (Hfa & _ & He).
      by apply (Hlook a).
Qed.

(** The whole run over the two files. *)
Lemma detect_two_files :
  let found := detect_files [(X, tsX); (Y, tsY)] ∅ ∅ in
  NoDup found ∧
  (∀ rc, rc ∈ found →
     ∃ a b len, rc = mkRaw X a Y b (len - minTokens) ∧ maximal_pair kX a kY b len) ∧
  (∀ a b len, maximal_pair kX a kY b len → mkRaw X a Y b (len - minTokens) ∈ found).
Proof.
  cbn zeta. split.
  { apply detect_files_NoDup. cbn. apply NoDup_cons. split.
    - intros H%list_elem_of_singleton. done.
    - apply NoDup_singleton. }
  cbn [detect_files]. unfold detect.
  destruct (scan_X (length (buildFrames X tsX)) 0 ∅) as (stX & -> & HstX).
  { lia. }
  { split; [intros j Hj; lia|]. intros n p H. by rewrite lookup_empty in H. }
  pose proof (scan_Y (length (buildFrames Y tsY)) 0 stX ltac:(lia)
                (store_ok_start _ HstX) ltac:(intros a _ H0; lia)) as [Hs Hc].
  destruct (scan cXY Y (buildFrames Y tsY) _ 0 stX) as [found st'].
  cbn [fst app] in *. rewrite app_nil_r. split.
  - intros rc Hin. destruct (Hs rc Hin) as (a & b & len & ? & ? & _). eauto.
  - intros a b len Hmp. apply Hc; [done|lia].
Qed.

End TwoFiles.

(** C2, as it holds. For any input file set (with distinct source ids) no raw
    clone is emitted twice, and the clones of one pass are emitted at
    ascending frames of the file being scanned, each when the frame at its
    start is reached. For two files [X] and [Y] in which no window occurs
    twice within a file, and a hash that tells their windows apart, the raw
    clones of the run are exactly the maximal pairs of identical regions
    across [X] and [Y], each emitted once. (With a third file, or a window
    repeated within a file, the store holds only the latest occurrence and
    the pairs with an older one are not emitted.) *)
Theorem each_maximal_pair_emitted_once :
  (∀ (files : list (string * list Token)) (c : corpus) (st : store),
     NoDup (map fst files) → NoDup (detect_files files c st)) ∧
  (∀ (c : corpus) (sid : string) (ts : list Token) (st : store),
     ascending 0 (detect c sid (buildFrames sid ts) st).1) ∧
  (∀ (X Y : string) (tsX tsY : list Token),
     1 ≤ minTokens → X ≠ Y →
     no_repeated_window (keys tsX) → no_repeated_window (keys tsY) →
     collision_free (keys tsX) (keys tsX) → collision_free (keys tsY) (keys tsY) →
     collision_free (keys tsX) (keys tsY) →
     NoDup (detect_files [(X, tsX); (Y, tsY)] ∅ ∅) ∧
     (∀ rc, rc ∈ detect_files [(X, tsX); (Y, tsY)] ∅ ∅ →
        ∃ a b len, rc = mkRaw X a Y b (len - minTokens) ∧
                   maximal_pair (keys tsX) a (keys tsY) b len) ∧
     (∀ a b len, maximal_pair (keys tsX) a (keys tsY) b len →
        mkRaw X a Y b (len - minTokens) ∈ detect_files [(X, tsX); (Y, tsY)] ∅ ∅)).
Proof.
  split; [|split].
  - apply detect_files_NoDup.
  - intros c sid ts st. apply scan_ascending. apply buildFrames_well_indexed.
  - intros X Y tsX tsY H1 H2 H3 H4 H5 H6 H7.
    exact (detect_two_files X Y tsX tsY H1 H2 H3 H4 H5 H6 H7).
Qed.

End Matcher.

(** *** Clones, validators, coordinator and driver (4.5 to 4.7) *)

Record Position : Type := mkPosition {
  line : nat;
  column : nat;
  position : nat
}.

(** [position] counts significant tokens: the first token of the side for
    [loc_start], one past its last token for [loc_end]. *)
Record CloneLocation : Type := mkLocation {
  loc_sourceId : string;
  loc_start : Position;
  loc_end : Position;
  range : nat * nat;
  fragment : string
}.

Record Clone : Type := mkClone {
  c_format : string;
  foundDate : Z;
  duplicationA : CloneLocation;
  duplicationB : CloneLocation
}.

Record Config : Type := mkConfig {
  minLines : nat;
  maxLines : nat;
  minTokens : nat;
  maxSize : option nat;
  cfg_mode : mode;
  ignoreCase : bool
}.

(** A record of the file-discovery collaborator (6). *)
Record SourceFile : Type := mkSource {
  sourceId : string;
  format : string;
  source : string;
  lines : nat
}.

Definition erase_foundDate (c : Clone) : Clone :=
  mkClone (c_format c) 0 (duplicationA c) (duplicationB c).

Section Pipeline.

(** The tokenizer and the mask-key derivation belong to the tokenizer
    package, the hash is the implementer's choice; [clock] is the wall clock
    read when a clone is created. *)
Variable hash : string -> N.
Variable maskKey : mode -> bool -> Token -> string.
Variable tokenize : string -> string -> option (list Token).

Definition no_token : Token := mkToken "" "" 0 0 0 0.

Definition location (sid : string) (ts : list Token) (first count : nat) : CloneLocation :=
  let t0 := default no_token (ts !! first) in
  let t1 := default no_token (ts !! (first + count - 1)) in
  mkLocation sid
    (mkPosition (tk_line t0) (tk_column t0) first)
    (mkPosition (tk_line t1) (tk_column t1) (first + count))
    (tk_start t0, tk_end t1) "".

Definition make_clone (fmt : string) (date : Z) (c : corpus) (m : nat) (rc : RawClone)
    : Clone :=
  mkClone fmt date
    (location (side_A rc) (default [] (c !! side_A rc)) (first_A rc) (extensions rc + m))
    (location (side_B rc) (default [] (c !! side_B rc)) (first_B rc) (extensions rc + m)).

(** Modelled from the spec: the validators (4.5), in their order. *)
Definition lines_of (l : CloneLocation) : nat :=
  line (loc_end l) - line (loc_start l) + 1.

Definition tokens_of (l : CloneLocation) : nat :=
  position (loc_end l) - position (loc_start l).

Definition bytes_of (l : CloneLocation) : nat := (range l).2 - (range l).1.

Definition min_lines_ok (cfg : Config) (c : Clone) : bool :=
  (minLines cfg <=? lines_of (duplicationA c)) &&
  (minLines cfg <=? lines_of (duplicationB c)).

Definition min_tokens_ok (cfg : Config) (c : Clone) : bool :=
  (minTokens cfg <=? tokens_of (duplicationA c)) &&
  (minTokens cfg <=? tokens_of (duplicationB c)).

Definition max_ok (cfg : Config) (c : Clone) : bool :=
  (lines_of (duplicationA c) <=? maxLines cfg) &&
  (lines_of (duplicationB c) <=? maxLines cfg) &&
  match maxSize cfg with
  | Some n => (bytes_of (duplicationA c) <=? n) && (bytes_of (duplicationB c) <=? n)
  | None => true
  end.

Definition extract (sources : gmap string string) (l : CloneLocation) : CloneLocation :=
  mkLocation (loc_sourceId l) (loc_start l) (loc_end l) (range l)
    (substring (range l).1 (bytes_of l) (default "" (sources !! loc_sourceId l))).

Definition with_fragments (sources : gmap string string) (c : Clone) : Clone :=
  mkClone (c_format c) (foundDate c)
    (extract sources (duplicationA c)) (extract sources (duplicationB c)).

Definition within (l l' : CloneLocation) : bool :=
  String.eqb (loc_sourceId l) (loc_sourceId l') &&
  ((range l').1 <=? (range l).1) && ((range l).2 <=? (range l').2).

(** [c] is fully contained in [c'], a clone of the same file pair. *)
Definition contained (c c' : Clone) : bool :=
  within (duplicationA c) (duplicationA c') && within (duplicationB c) (duplicationB c').

Definition validate (cfg : Config) (sources : gmap string string)
    (accepted : list Clone) (c : Clone) : option Clone :=
  if min_lines_ok cfg c && min_tokens_ok cfg c && max_ok cfg c then
    let c' := with_fragments sources c in
    if existsb (contained c') accepted then None else Some c'
  else None.

(** [ConfigInvalid] *)
Definition config_valid (cfg : Config) : bool :=
  (1 <=? minTokens cfg) && (1 <=? minLines cfg) && (minLines cfg <=? maxLines cfg).

(** *** The driver and its workers (4.6, 4.7 and 5) *)

(** Modelled from the spec: where the pass over one file stands (4.4, 4.5,
    5). [store.get] and [store.set] may suspend: between the answer of [get]
    and the [set] that follows it the pass holds the answer. When the frames
    are through, the raw clones go through the validators one by one. *)
Inductive pass : Type :=
| Scanning (f : SourceFile) (frames : list MapFrame) (fuel i : nat)
           (answer : option (option MapFrame)) (found : list RawClone)
| Validating (f : SourceFile) (raws : list RawClone).

(** Modelled from the spec: a worker, the owner of one store partition (5).
    Beside the partition's frames it keeps what the passes over its files
    read: the tokens and the sources of the files recorded in the partition
    (for the extension and the fragments), the clones it has accepted (for
    the overlap suppression), the files still to process, in the order they
    were supplied, and the pass in progress. *)
Record worker : Type := mkWorker {
  w_store : store;
  w_corpus : corpus;
  w_sources : gmap string string;
  w_accepted : list Clone;
  w_todo : list SourceFile;
  w_pass : option pass
}.

Definition new_worker : worker := mkWorker ∅ ∅ ∅ [] [] None.

Definition set_pass (p : option pass) (w : worker) : worker :=
  mkWorker (w_store w) (w_corpus w) (w_sources w) (w_accepted w) (w_todo w) p.

Variable cfg : Config.

(** Modelled from the spec: the detector coordinator takes up a file (4.6). A
    file the tokenizer rejects is skipped. *)
Definition start_pass (f : SourceFile) (rest : list SourceFile) (w : worker) : worker :=
  match tokenize (source f) (format f) with
  | None => mkWorker (w_store w) (w_corpus w) (w_sources w) (w_accepted w) rest None
  | Some ts =>
      let key := maskKey (cfg_mode cfg) (ignoreCase cfg) in
      let sig := significant key ts in
      let frames := buildFrames hash key (minTokens cfg) (sourceId f) sig in
      mkWorker (w_store w)
               (<[sourceId f := sig]> (w_corpus w))
               (<[sourceId f := source f]> (w_sources w))
               (w_accepted w) rest
               (Some (Scanning f frames (length frames) 0 None []))
  end.

(** Modelled from the spec: one step of a worker, that is to say what it does
    between two points at which it can be suspended or another worker can
    run. [date] is what the clock shows at this step. The result is the
    worker afterwards and the clones emitted with [CLONE_FOUND]; an idle
    worker takes no step. *)
Definition wstep (date : Z) (w : worker) : option (worker * list Clone) :=
  match w_pass w with
  | None =>
      match w_todo w with
      | [] => None
      | f :: rest => Some (start_pass f rest w, [])
      end
  | Some (Scanning f frames fuel i answer found) =>
      match fuel, frames !! i with
      | S fuel', Some F =>
          match answer with
          | None =>
              (* [store.get(F.id)] *)
              Some (set_pass (Some (Scanning f frames fuel i
                                             (Some (w_store w !! id F)) found)) w, [])
          | Some prior =>
              (* the frame is matched against the answer; [store.set(F.id, F)] *)
              let '(raw, j) :=
                visit hash (maskKey (cfg_mode cfg) (ignoreCase cfg)) (minTokens cfg)
                      (w_corpus w) (sourceId f) F i prior in
              Some (mkWorker (<[id F := F]> (w_store w)) (w_corpus w) (w_sources w)
                             (w_accepted w) (w_todo w)
                             (Some (Scanning f frames fuel' j None
                                             (found ++ option_list raw))), [])
          end
      | _, _ => Some (set_pass (Some (Validating f found)) w, [])
      end
  | Some (Validating f []) => Some (set_pass None w, [])
  | Some (Validating f (rc :: raws)) =>
      let clone := make_clone (format f) date (w_corpus w) (minTokens cfg) rc in
      match validate cfg (w_sources w) (w_accepted w) clone with
      | Some clone' =>
          Some (mkWorker (w_store w) (w_corpus w) (w_sources w)
                         (w_accepted w ++ [clone']) (w_todo w)
                         (Some (Validating f raws)), [clone'])
      | None => Some (set_pass (Some (Validating f raws)) w, [])
      end
  end.

Definition idle (w : worker) : bool :=
  match w_pass w, w_todo w with
  | None, [] => true
  | _, _ => false
  end.

(** The partition a file's pass reads and writes: its format, or a class of a
    hash, as the driver chooses; a driver that serializes all passes on one
    worker has one partition. *)
Variable shard : SourceFile -> nat.

(** Modelled from the spec: the multi-file driver (4.7, 5). The workers by
    partition, the clones emitted so far in the order of their emission, and
    the number of steps taken, at each of which the clock is read. The order
    of emission is that of the steps, whatever it is (1: no order of
    discovery between distinct clones is guaranteed); a driver that takes the
    passes up in the order the files were supplied emits in that order. *)
Record system : Type := mkSystem {
  workers : gmap nat worker;
  emitted : list Clone;
  time : nat
}.

Definition enqueue (ws : gmap nat worker) (f : SourceFile) : gmap nat worker :=
  let w := default new_worker (ws !! shard f) in
  <[shard f := mkWorker (w_store w) (w_corpus w) (w_sources w) (w_accepted w)
                        (w_todo w ++ [f]) (w_pass w)]> ws.

(** Modelled from the spec: the start of a run (4.7). Every store partition
    is fresh; each worker has its files in the order they were supplied. *)
Definition boot (files : list SourceFile) : system :=
  mkSystem (foldl enqueue ∅ files) [] 0.

(** Modelled from the spec: worker [k] takes its next step (5); no other
    worker's partition is read or written. *)
Definition sstep (clock : nat -> Z) (k : nat) (s : system) : option system :=
  match workers s !! k with
  | Some w =>
      match wstep (clock (time s)) w with
      | Some (w', out) =>
          Some (mkSystem (<[k := w']> (workers s)) (emitted s ++ out) (S (time s)))
      | None => None
      end
  | None => None
  end.

(** A schedule says which worker moves next. *)
Fixpoint srun (clock : nat -> Z) (sched : list nat) (s : system) : option system :=
  match sched with
  | [] => Some s
  | k :: sched' =>
      match sstep clock k s with
      | Some s' => srun clock sched' s'
      | None => None
      end
  end.

Definition finished (s : system) : bool :=
  forallb (fun kw => idle kw.2) (map_to_list (workers s)).

(** Modelled from the spec: a run of the pipeline. An invalid configuration
    fails before any file is processed (7); otherwise the run is over when
    every worker is idle, and its result is the clones emitted. The store
    answers every request: a run that a failing store aborts (7) has no
    result. *)
Definition run (clock : nat -> Z) (sched : list nat) (files : list SourceFile)
    : option (list Clone) :=
  if config_valid cfg then
    match srun clock sched (boot files) with
    | Some s => if finished s then Some (emitted s) else None
    | None => None
    end
  else None.

(** *** The clock reaches nothing but [foundDate] *)

Lemma erase_foundDate_eq c1 c2 :
  erase_foundDate c1 = erase_foundDate c2 ↔
  c_format c1 = c_format c2 ∧ duplicationA c1 = duplicationA c2 ∧
  duplicationB c1 = duplicationB c2.
Proof.
  unfold erase_foundDate. split.
  - by intros [= ? ? ?].
  - by intros (-> & -> & ->).
Qed.

Lemma existsb_erased (P : Clone → bool) acc1 : ∀ acc2,
  (∀ x y, erase_foundDate x = erase_foundDate y → P x = P y) →
  map erase_foundDate acc1 = map erase_foundDate acc2 →
  existsb P acc1 = existsb P acc2.
Proof.
  induction acc1 as [|x acc1 IH]; intros [|y acc2] HP; cbn [map existsb]; try done.
  intros H. apply (inj2 cons) in H as [Hxy Hrest].
  by rewrite (HP x y Hxy), (IH acc2 HP Hrest).
Qed.

Lemma validate_erased sources acc1 acc2 c1 c2 :
  erase_foundDate c1 = erase_foundDate c2 →
  map erase_foundDate acc1 = map erase_foundDate acc2 →
  erase_foundDate <$> validate cfg sources acc1 c1 =
  erase_foundDate <$> validate cfg sources acc2 c2.
Proof.
  intros (Hf & HA & HB)%erase_foundDate_eq Hacc. unfold validate.
  unfold min_lines_ok, min_tokens_ok, max_ok. rewrite HA, HB.
  destruct (_ && _ && _); [|done].
  assert (existsb (contained (with_fragments sources c1)) acc1 =
          existsb (contained (with_fragments sources c2)) acc2) as ->.
  { unfold contained, with_fragments. cbn. rewrite HA, HB.
    apply existsb_erased; [|done].
    intros x y (_ & -> & ->)%erase_foundDate_eq. done. }
  destruct (existsb _ acc2); [done|]. cbn. f_equal.
  unfold erase_foundDate, with_fragments. cbn. by rewrite Hf, HA, HB.
Qed.

(** A worker without the dates of the clones it has accepted. *)
Definition erase_worker (w : worker) : worker :=
  mkWorker (w_store w) (w_corpus w) (w_sources w)
           (map erase_foundDate (w_accepted w)) (w_todo w) (w_pass w).

Lemma erase_worker_eq w1 w2 :
  erase_worker w1 = erase_worker w2 ↔
  w_store w1 = w_store w2 ∧ w_corpus w1 = w_corpus w2 ∧
  w_sources w1 = w_sources w2 ∧
  map erase_foundDate (w_accepted w1) = map erase_foundDate (w_accepted w2) ∧
  w_todo w1 = w_todo w2 ∧ w_pass w1 = w_pass w2.
Proof.
  unfold erase_worker. split.
  - by intros [= ? ? ? ? ? ?].
  - by intros (-> & -> & -> & -> & -> & ->).
Qed.

(** Two workers that agree up to the dates take the same step, whatever
    their clocks show, and emit the same clones up to the dates. *)
Lemma wstep_erased d1 d2 w1 w2 :
  erase_worker w1 = erase_worker w2 →
  match wstep d1 w1, wstep d2 w2 with
  | Some (w1', out1), Some (w2', out2) =>
      erase_worker w1' = erase_worker w2' ∧
      map erase_foundDate out1 = map erase_foundDate out2
  | None, None => True
  | _, _ => False
  end.
Proof.
  intros (Hst & Hc & Hsrc & Hacc & Htodo & Hp)%erase_worker_eq.
  unfold wstep. rewrite Hp, Htodo.
  destruct (w_pass w2) as [[f frames fuel i answer found|f [|rc raws]]|].
  - destruct fuel as [|fuel'];
      [split; [apply erase_worker_eq; by repeat split|done]|].
    destruct (frames !! i) as [F|];
      [|split; [apply erase_worker_eq; by repeat split|done]].
    destruct answer as [prior|].
    + rewrite Hc. destruct (visit _ _ _ _ _ _ _ _) as [raw j].
      split; [|done]. apply erase_worker_eq. cbn. by rewrite Hst.
    + rewrite Hst. split; [|done]. apply erase_worker_eq. by repeat split.
  - split; [|done]. apply erase_worker_eq. by repeat split.
  - rewrite Hc, Hsrc.
    pose proof (validate_erased (w_sources w2) (w_accepted w1) (w_accepted w2)
                  (make_clone (format f) d1 (w_corpus w2) (minTokens cfg) rc)
                  (make_clone (format f) d2 (w_corpus w2) (minTokens cfg) rc)
                  eq_refl Hacc) as Hv.
    destruct (validate cfg _ (w_accepted w1) _) as [c1|];
      destruct (validate cfg _ (w_accepted w2) _) as [c2|]; try done.
    + cbn in Hv. apply (inj Some) in Hv. split; [|cbn; by rewrite Hv].
      apply erase_worker_eq. cbn. rewrite !map_app. cbn. by rewrite Hacc, Hv.
    + split; [|done]. apply erase_worker_eq. by repeat split.
  - destruct (w_todo w2) as [|f rest]; [done|]. split; [|done].
    unfold start_pass. destruct (tokenize _ _) as [ts|];
      apply erase_worker_eq; cbn; by rewrite ?Hst, ?Hc, ?Hsrc.
Qed.

Lemma wstep_idle d w : wstep d w = None ↔ idle w = true.
Proof.
  unfold wstep, idle.
  destruct (w_pass w) as [[f frames fuel i answer found|f [|rc raws]]|].
  - destruct fuel as [|fuel']; [done|]. destruct (frames !! i) as [F|]; [|done].
    destruct answer as [prior|]; [|done]. by destruct (visit _ _ _ _ _ _ _ _).
  - done.
  - by destruct (validate _ _ _ _).
  - by destruct (w_todo w).
Qed.

(** What a step emits is what the worker accepts at that step. *)
Lemma wstep_accepted d w w' out :
  wstep d w = Some (w', out) → w_accepted w' = w_accepted w ++ out.
Proof.
  unfold wstep.
  destruct (w_pass w) as [[f frames fuel i answer found|f [|rc raws]]|].
  - destruct fuel as [|fuel'];
      [intros [= <- <-]; cbn; by rewrite app_nil_r|].
    destruct (frames !! i) as [F|];
      [|intros [= <- <-]; cbn; by rewrite app_nil_r].
    destruct answer as [prior|].
    + destruct (visit _ _ _ _ _ _ _ _). intros [= <- <-]. cbn. by rewrite app_nil_r.
    + intros [= <- <-]. cbn. by rewrite app_nil_r.
  - intros [= <- <-]. cbn. by rewrite app_nil_r.
  - destruct (validate _ _ _ _); intros [= <- <-]; cbn; [done|by rewrite app_nil_r].
  - destruct (w_todo w) as [|f rest]; [done|]. intros [= <- <-].
    unfold start_pass. destruct (tokenize _ _); cbn; by rewrite app_nil_r.
Qed.

(** *** A worker's steps do not depend on the schedule *)

(** The steps of one worker, with the dates its clock reads showed. *)
Fixpoint wrun (ds : list Z) (w : worker) : option worker :=
  match ds with
  | [] => Some w
  | d :: ds' =>
      match wstep d w with
      | Some (w', _) => wrun ds' w'
      | None => None
      end
  end.

Lemma wrun_app ds1 : ∀ ds2 w w1,
  wrun ds1 w = Some w1 → wrun (ds1 ++ ds2) w = wrun ds2 w1.
Proof.
  induction ds1 as [|d ds1 IH]; cbn; intros ds2 w w1.
  - by intros [= ->].
  - destruct (wstep d w) as [[w' out]|]; [|done]. apply IH.
Qed.

(** Left to run, the scanning steps of a pass are the matcher's forward pass
    [scan] over the worker's partition: they leave the store it leaves and
    hand the raw clones it finds to the validators. *)
Lemma scanning_is_scan d f frames : ∀ fuel i st c src acc todo found,
  ∃ n, wrun (replicate n d)
            (mkWorker st c src acc todo (Some (Scanning f frames fuel i None found))) =
       Some (mkWorker
               (scan hash (maskKey (cfg_mode cfg) (ignoreCase cfg)) (minTokens cfg)
                     c (sourceId f) frames fuel i st).2
               c src acc todo
               (Some (Validating f
                        (found ++
                         (scan hash (maskKey (cfg_mode cfg) (ignoreCase cfg))
                               (minTokens cfg) c (sourceId f) frames fuel i st).1)))).
Proof.
  induction fuel as [|fuel IH]; intros i st c src acc todo found.
  - exists 1. cbn. by rewrite app_nil_r.
  - rewrite scan_visit. destruct (frames !! i) as [F|] eqn:EF.
    + destruct (visit _ _ _ _ _ _ _ (st !! id F)) as [raw j] eqn:EV.
      destruct (IH j (<[id F := F]> st) c src acc todo (found ++ option_list raw))
        as (n & Hn).
      exists (S (S n)). cbn [replicate wrun]. unfold wstep at 1. cbn. rewrite EF.
      unfold wstep at 1. cbn. rewrite EF, EV. rewrite Hn.
      destruct (scan _ _ _ _ _ _ _ j _) as [more st']. cbn. by rewrite app_assoc.
    + exists 1. cbn. rewrite EF. cbn. by rewrite app_nil_r.
Qed.

(** However two runs of a worker are timed, when both have come to rest they
    agree up to the dates. *)
Lemma wrun_idle_erased ds1 : ∀ ds2 w1 w2 w1' w2',
  erase_worker w1 = erase_worker w2 →
  wrun ds1 w1 = Some w1' → wrun ds2 w2 = Some w2' →
  idle w1' = true → idle w2' = true →
  erase_worker w1' = erase_worker w2'.
Proof.
  induction ds1 as [|d1 ds1 IH]; intros [|d2 ds2] w1 w2 w1' w2' Hw; cbn.
  - by intros [= <-] [= <-].
  - intros [= <-] H2 Hi1 _. apply (wstep_idle d2) in Hi1.
    pose proof (wstep_erased d2 d2 w1 w2 Hw) as Hs. rewrite Hi1 in Hs.
    by destruct (wstep d2 w2) as [[? ?]|].
  - intros H1 [= <-] _ Hi2. apply (wstep_idle d1) in Hi2.
    pose proof (wstep_erased d1 d1 w1 w2 Hw) as Hs. rewrite Hi2 in Hs.
    by destruct (wstep d1 w1) as [[? ?]|].
  - pose proof (wstep_erased d1 d2 w1 w2 Hw) as Hs.
    destruct (wstep d1 w1) as [[wa oa]|]; destruct (wstep d2 w2) as [[wb ob]|];
      try done.
    destruct Hs as [Hab _]. by apply IH.
Qed.

Lemma sstep_inv clock k s s' :
  sstep clock k s = Some s' →
  ∃ w w' out,
    workers s !! k = Some w ∧ wstep (clock (time s)) w = Some (w', out) ∧
    workers s' = <[k := w']> (workers s) ∧ emitted s' = emitted s ++ out.
Proof.
  unfold sstep. destruct (workers s !! k) as [w|]; [|done].
  destruct (wstep _ w) as [[w' out]|] eqn:E; [|done].
  intros [= <-]. by exists w, w', out.
Qed.

(** In a run of the system every worker takes its own steps, one after the
    other; the schedule only says when. *)
Lemma srun_workers clock sched : ∀ s s',
  srun clock sched s = Some s' →
  ∀ k, match workers s !! k with
       | Some w => ∃ ds w', wrun ds w = Some w' ∧ workers s' !! k = Some w'
       | None => workers s' !! k = None
       end.
Proof.
  induction sched as [|k0 sched IH]; cbn; intros s s'.
  - intros [= <-] k. destruct (workers s !! k) as [w|]; [|done]. by exists [], w.
  - destruct (sstep clock k0 s) as [s1|] eqn:E; [|done]. intros Hrun k.
    apply sstep_inv in E as (w0 & w1 & out & Hk0 & Hstep & Hws & _).
    specialize (IH _ _ Hrun k). rewrite Hws in IH.
    destruct (decide (k = k0)) as [->|Hne].
    + rewrite lookup_insert_eq in IH. rewrite Hk0.
      destruct IH as (ds & w' & Hds & Hk).
      exists (clock (time s) :: ds), w'. cbn. by rewrite Hstep.
    + by rewrite lookup_insert_ne in IH.
Qed.

(** *** The clones emitted are those the workers have accepted *)

(** The clones of all workers, without their dates. *)
Definition gathered (ws : gmap nat worker) : list Clone :=
  map_to_list (erase_worker <$> ws) ≫= (fun kw => w_accepted kw.2).

Lemma map_to_list_update {A} (m : gmap nat A) k x y :
  m !! k = Some x →
  ∃ rest, map_to_list m ≡ₚ (k, x) :: rest ∧ map_to_list (<[k := y]> m) ≡ₚ (k, y) :: rest.
Proof.
  intros Hk. exists (map_to_list (delete k m)). split.
  - symmetry. by apply map_to_list_delete.
  - rewrite <- insert_delete_eq. apply map_to_list_insert, lookup_delete_eq.
Qed.

Lemma gathered_step ws k w w' out :
  ws !! k = Some w → w_accepted w' = w_accepted w ++ out →
  gathered (<[k := w']> ws) ≡ₚ gathered ws ++ map erase_foundDate out.
Proof.
  intros Hk Hacc. unfold gathered. rewrite fmap_insert.
  destruct (map_to_list_update (erase_worker <$> ws) k (erase_worker w)
              (erase_worker w')) as (rest & -> & ->).
  { by rewrite lookup_fmap, Hk. }
  cbn. rewrite Hacc, map_app, <- !app_assoc.
  apply Permutation_app_head, Permutation_app_comm.
Qed.

Lemma srun_emitted clock sched : ∀ s s',
  srun clock sched s = Some s' →
  map erase_foundDate (emitted s) ≡ₚ gathered (workers s) →
  map erase_foundDate (emitted s') ≡ₚ gathered (workers s').
Proof.
  induction sched as [|k sched IH]; cbn; intros s s'.
  - by intros [= <-].
  - destruct (sstep clock k s) as [s1|] eqn:E; [|done]. intros Hrun Hs.
    apply (IH _ _ Hrun).
    apply sstep_inv in E as (w & w' & out & Hk & Hstep & -> & ->).
    rewrite map_app, Hs. symmetry.
    apply (gathered_step _ _ w); [done|]. by eapply wstep_accepted.
Qed.

Lemma enqueue_accepted ws f :
  (∀ k w, ws !! k = Some w → w_accepted w = []) →
  ∀ k w, enqueue ws f !! k = Some w → w_accepted w = [].
Proof.
  intros Hws k w. unfold enqueue.
  destruct (decide (k = shard f)) as [->|Hne].
  - rewrite lookup_insert_eq. intros [= <-]. cbn.
    destruct (ws !! shard f) as [w0|] eqn:E; [by apply (Hws _ _ E)|done].
  - rewrite lookup_insert_ne by done. apply Hws.
Qed.

Lemma boot_accepted files : ∀ ws,
  (∀ k w, ws !! k = Some w → w_accepted w = []) →
  ∀ k w, foldl enqueue ws files !! k = Some w → w_accepted w = [].
Proof.
  induction files as [|f files IH]; cbn; intros ws Hws; [done|].
  apply IH. by apply enqueue_accepted.
Qed.

Lemma gathered_boot files : gathered (workers (boot files)) = [].
Proof.
  unfold gathered, boot. cbn [workers].
  assert (∀ kw, kw ∈ map_to_list (erase_worker <$> foldl enqueue ∅ files) →
                w_accepted kw.2 = []) as Hall.
  { intros [k w] [w0 [<- Hk]]%elem_of_map_to_list%lookup_fmap_Some. cbn.
    by rewrite (boot_accepted files ∅ (fun k w H => False_ind _ (lookup_empty_Some k w H))
                  k w0 Hk). }
  induction (map_to_list _) as [|kw l IH]; [done|]. cbn.
  rewrite (Hall kw) by (by left). cbn. apply IH. intros kw' Hin. apply Hall. by right.
Qed.

(** *** Every run comes to an end *)

(** The steps a file takes at most: one to take it up, three for each frame,
    and three more. *)
Definition cost (f : SourceFile) : nat :=
  match tokenize (source f) (format f) with
  | None => 1
  | Some ts =>
      let key := maskKey (cfg_mode cfg) (ignoreCase cfg) in
      3 * length (buildFrames hash key (minTokens cfg) (sourceId f) (significant key ts))
      + 4
  end.

Definition work_pass (p : pass) : nat :=
  match p with
  | Scanning _ _ fuel _ answer found =>
      3 * fuel + length found + match answer with None => 3 | Some _ => 2 end
  | Validating _ raws => length raws + 1
  end.

Definition work (w : worker) : nat :=
  from_option work_pass 0 (w_pass w) + sum_list_with cost (w_todo w).

Lemma wstep_work d w w' out : wstep d w = Some (w', out) → work w' < work w.
Proof.
  unfold wstep, work.
  destruct (w_pass w) as [[f frames fuel i answer found|f [|rc raws]]|].
  - destruct fuel as [|fuel'];
      [intros [= <- <-]; cbn; destruct answer; lia|].
    destruct (frames !! i) as [F|];
      [|intros [= <- <-]; cbn; destruct answer; lia].
    destruct answer as [prior|].
    + destruct (visit _ _ _ _ _ _ _ _) as [raw j]. intros [= <- <-]. cbn.
      rewrite length_app. destruct raw; cbn; lia.
    + intros [= <- <-]. cbn. lia.
  - intros [= <- <-]. cbn. lia.
  - destruct (validate _ _ _ _); intros [= <- <-]; cbn; lia.
  - destruct (w_todo w) as [|f rest]; [done|]. intros [= <- <-].
    cbn [sum_list_with]. unfold start_pass.
    destruct (tokenize _ _) as [ts|] eqn:E; cbn [w_pass w_todo from_option work_pass];
      set (more := sum_list_with cost rest); unfold cost; rewrite E; cbn; lia.
Qed.

Definition total_work (ws : gmap nat worker) : nat :=
  sum_list_with (fun kw => work kw.2) (map_to_list ws).

Lemma total_work_step ws k w w' :
  ws !! k = Some w → work w' < work w →
  total_work (<[k := w']> ws) < total_work ws.
Proof.
  intros Hk Hlt. unfold total_work.
  destruct (map_to_list_update ws k w w' Hk) as (rest & -> & ->). cbn. lia.
Qed.

Lemma forallb_false {A} (p : A → bool) (l : list A) :
  forallb p l = false → ∃ x, x ∈ l ∧ p x = false.
Proof.
  induction l as [|x l IH]; cbn; [done|].
  destruct (p x) eqn:E.
  - intros (y & Hy & Hp)%IH. exists y. split; [by right|done].
  - intros _. exists x. split; [by left|done].
Qed.

Lemma srun_finishes clock n : ∀ s,
  total_work (workers s) ≤ n →
  ∃ sched s', srun clock sched s = Some s' ∧ finished s' = true.
Proof.
  induction n as [|n IH]; intros s Hn.
  - destruct (finished s) eqn:Hfin; [by exists [], s|].
    apply forallb_false in Hfin as ([k w] & Hk%elem_of_map_to_list & Hidle).
    cbn in Hidle. destruct (wstep (clock (time s)) w) as [[w' out]|] eqn:E.
    + pose proof (total_work_step _ _ _ _ Hk (wstep_work _ _ _ _ E)). lia.
    + apply wstep_idle in E. congruence.
  - destruct (finished s) eqn:Hfin; [by exists [], s|].
    apply forallb_false in Hfin as ([k w] & Hk%elem_of_map_to_list & Hidle).
    cbn in Hidle. destruct (wstep (clock (time s)) w) as [[w' out]|] eqn:E.
    + pose proof (total_work_step _ _ _ _ Hk (wstep_work _ _ _ _ E)) as Hlt.
      destruct (IH (mkSystem (<[k := w']> (workers s)) (emitted s ++ out) (S (time s))))
        as (sched & s' & Hrun & Hfin); [cbn; lia|].
      exists (k :: sched), s'. cbn. unfold sstep. by rewrite Hk, E.
    + apply wstep_idle in E. congruence.
Qed.

Lemma finished_idle s k w :
  finished s = true → workers s !! k = Some w → idle w = true.
Proof.
  unfold finished. rewrite forallb_forall. intros Hall Hk.
  apply (Hall (k, w)). by apply list_elem_of_In, elem_of_map_to_list.
Qed.

(** C6. Two runs of the pipeline over the same files, supplied in the same
    order, with the same configuration and the same partition of the store,
    each from fresh partitions, emit the same clones up to their order and
    their [foundDate]: however the steps of the workers are interleaved in
    either run (between any two store accesses and any two clones of one
    pass the other workers may run), and whatever the clock shows at any
    step. And with a valid configuration a run comes to an end under some
    schedule, whatever the clock shows. *)
Theorem runs_agree_modulo_foundDate (files : list SourceFile) :
  (config_valid cfg = true →
   ∀ clock, ∃ sched out, run clock sched files = Some out) ∧
  (∀ clock1 clock2 sched1 sched2 out1 out2,
     run clock1 sched1 files = Some out1 →
     run clock2 sched2 files = Some out2 →
     map erase_foundDate out1 ≡ₚ map erase_foundDate out2).
Proof.
  split.
  - intros Hcfg clock.
    destruct (srun_finishes clock (total_work (workers (boot files))) (boot files))
      as (sched & s' & Hrun & Hfin); [done|].
    exists sched, (emitted s'). unfold run. by rewrite Hcfg, Hrun, Hfin.
  - intros clock1 clock2 sched1 sched2 out1 out2. unfold run.
    destruct (config_valid cfg); [|done].
    destruct (srun clock1 sched1 (boot files)) as [s1|] eqn:E1; [|done].
    destruct (srun clock2 sched2 (boot files)) as [s2|] eqn:E2; [|done].
    destruct (finished s1) eqn:F1; [|done]. destruct (finished s2) eqn:F2; [|done].
    intros [= <-] [= <-].
    rewrite (srun_emitted _ _ _ _ E1), (srun_emitted _ _ _ _ E2)
      by (by rewrite gathered_boot).
    assert (erase_worker <$> workers s1 = erase_worker <$> workers s2) as Heq.
    { apply map_eq. intros k. rewrite !lookup_fmap.
      pose proof (srun_workers _ _ _ _ E1 k) as H1.
      pose proof (srun_workers _ _ _ _ E2 k) as H2.
      destruct (workers (boot files) !! k) as [w|]; [|by rewrite H1, H2].
      destruct H1 as (ds1 & w1 & Hw1 & Hk1). destruct H2 as (ds2 & w2 & Hw2 & Hk2).
      rewrite Hk1, Hk2. cbn. f_equal.
      apply (wrun_idle_erased ds1 ds2 w w w1 w2); try done.
      - by apply (finished_idle s1 k).
      - by apply (finished_idle s2 k). }
    unfold gathered. by rewrite Heq.
Qed.

End Pipeline.

End Engine.

(** ** Worked runs of the matcher *)

Module EngineScenario.

Import Engine.

Local Open Scope nat_scope.

(** One token per line, two bytes each; the mask key is the lexeme. *)
Definition demo_token (i : nat) (v : string) : Token :=
  mkToken "identifier" v (S i) 1 (2 * i) (2 * i + 1).

Definition demo_tokens (vs : list string) : list Token := imap demo_token vs.

Definition demo_key : Token → string := tk_value.

(** A polynomial hash modulo a prime. *)
Fixpoint demo_hash_from (h : N) (s : string) : N :=
  match s with
  | EmptyString => h
  | String ch rest =>
      demo_hash_from ((h * 131 + Ascii.N_of_ascii ch) mod 1000003)%N rest
  end.

Definition demo_hash : string → N := demo_hash_from 7.

(** A hash under which all windows collide. *)
Definition constant_hash (s : string) : N := 0%N.

Ltac frame_cases Hi Hj :=
  unfold has_frame in Hi, Hj; apply Nat.leb_le in Hi, Hj;
  cbn in Hi, Hj;
  repeat match goal with
         | i : nat |- _ => destruct i as [|i]; [|try lia]
         end; try lia.

(** Scenario 2 of the specification: [a.js] and [b.js] share the prefix
    [x y z]; [minTokens = 3]. *)
Definition tokens_a : list Token := demo_tokens ["x"; "y"; "z"; "w"; "v"].
Definition tokens_b : list Token := demo_tokens ["x"; "y"; "z"; "q"; "r"].

Lemma prefix_overlap_witness :
  detect_files demo_hash demo_key 3 [("a.js", tokens_a); ("b.js", tokens_b)] ∅ ∅
    = [mkRaw "a.js" 0 "b.js" 0 0] ∧
  maximal_pair 3 (keys demo_key tokens_a) 0 (keys demo_key tokens_b) 0 3 ∧
  mkRaw "a.js" 0 "b.js" 0 (3 - 3) ∈
    detect_files demo_hash demo_key 3 [("a.js", tokens_a); ("b.js", tokens_b)] ∅ ∅.
Proof.
  assert (maximal_pair 3 (keys demo_key tokens_a) 0 (keys demo_key tokens_b) 0 3) as Hmp.
  { split; [lia|]. split; [by repeat split; cbn; lia|]. split; [|by left].
    intros (He & _). vm_compute in He. discriminate He. }
  split; [vm_compute; reflexivity|]. split; [exact Hmp|].
  destruct (each_maximal_pair_emitted_once demo_hash demo_key 3) as (_ & _ & Htwo).
  apply (Htwo "a.js" "b.js" tokens_a tokens_b); try done.
  - lia.
  - intros i j Hi Hj Hw. frame_cases Hi Hj; try reflexivity;
      vm_compute in Hw; discriminate Hw.
  - intros i j Hi Hj Hw. frame_cases Hi Hj; try reflexivity;
      vm_compute in Hw; discriminate Hw.
  - intros i j Hi Hj Hw. frame_cases Hi Hj; try reflexivity;
      vm_compute in Hw; discriminate Hw.
  - intros i j Hi Hj Hw. frame_cases Hi Hj; try reflexivity;
      vm_compute in Hw; discriminate Hw.
  - intros i j Hi Hj Hw. frame_cases Hi Hj; try reflexivity;
      vm_compute in Hw; discriminate Hw.
Defined.

(** Three copies of one file: the first and the third are a maximal pair, and
    the run pairs the third only with the second. *)
Definition tokens_twin : list Token := demo_tokens ["a"; "b"].

Lemma third_copy_misses_first :
  maximal_pair 2 (keys demo_key tokens_twin) 0 (keys demo_key tokens_twin) 0 2 ∧
  detect_files demo_hash demo_key 2
    [("x1.js", tokens_twin); ("x2.js", tokens_twin); ("y.js", tokens_twin)] ∅ ∅
    = [mkRaw "x1.js" 0 "x2.js" 0 0; mkRaw "x2.js" 0 "y.js" 0 0] ∧
  mkRaw "x1.js" 0 "y.js" 0 (2 - 2) ∉
    detect_files demo_hash demo_key 2
      [("x1.js", tokens_twin); ("x2.js", tokens_twin); ("y.js", tokens_twin)] ∅ ∅.
Proof.
  assert (detect_files demo_hash demo_key 2
            [("x1.js", tokens_twin); ("x2.js", tokens_twin); ("y.js", tokens_twin)] ∅ ∅
          = [mkRaw "x1.js" 0 "x2.js" 0 0; mkRaw "x2.js" 0 "y.js" 0 0]) as Hrun
    by (vm_compute; reflexivity).
  split; [|split; [exact Hrun|]].
  - split; [lia|]. split; [by repeat split; cbn; lia|]. split; [|by left].
    intros (_ & Hlen & _). cbn in Hlen. lia.
  - rewrite Hrun. intros [H|[H|H%elem_of_nil]%elem_of_cons]%elem_of_cons;
      [discriminate H|discriminate H|done].
Qed.

(** With a hash under which every window collides, the frame [y z q] of
    [b.js] finds a record in the store and is not admitted. *)
Definition corpus_collide : corpus :=
  <["b.js" := demo_tokens ["x"; "y"; "z"; "q"]]>
    (<["a.js" := demo_tokens ["x"; "y"; "z"]]> ∅).

Definition store_collide : store :=
  {[ 0%N := frame_at constant_hash demo_key 3 "a.js" (demo_tokens ["x"; "y"; "z"]) 0 ]}.

Lemma colliding_hash_witness :
  (detect constant_hash demo_key 3 corpus_collide "b.js"
     (buildFrames constant_hash demo_key 3 "b.js" (demo_tokens ["x"; "y"; "z"; "q"]))
     store_collide).1 = [mkRaw "a.js" 0 "b.js" 0 0] ∧
  region demo_key 3 corpus_collide "a.js" 0 0 = ["x"; "y"; "z"] ∧
  region demo_key 3 corpus_collide "a.js" 0 0 = region demo_key 3 corpus_collide "b.js" 0 0.
Proof.
  assert ((detect constant_hash demo_key 3 corpus_collide "b.js"
             (buildFrames constant_hash demo_key 3 "b.js"
                (demo_tokens ["x"; "y"; "z"; "q"])) store_collide).1
          = [mkRaw "a.js" 0 "b.js" 0 0]) as Hrun by (vm_compute; reflexivity).
  split; [exact Hrun|]. split; [vm_compute; reflexivity|].
  refine (proj1 (proj2 (emitted_clone_sides_have_equal_keys constant_hash demo_key 3
                          corpus_collide "b.js" _ store_collide
                          (mkRaw "a.js" 0 "b.js" 0 0) _))).
  rewrite Hrun. apply list_elem_of_singleton. reflexivity.
Defined.

(** Scenario 3 of the specification: a block, an unrelated token, the block
    again, in one file. *)
Definition tokens_c : list Token := demo_tokens ["p"; "q"; "r"; "u"; "p"; "q"; "r"].

Definition corpus_c : corpus := <["c.py" := tokens_c]> ∅.

Lemma self_clone_witness :
  (detect demo_hash demo_key 3 corpus_c "c.py"
     (buildFrames demo_hash demo_key 3 "c.py" tokens_c) ∅).1
    = [mkRaw "c.py" 0 "c.py" 4 0] ∧
  0 + 0 + 3 ≤ 4 ∧
  byte_range 3 tokens_c 0 0 = (0, 5) ∧
  byte_range 3 tokens_c 4 0 = (8, 13) ∧
  ranges_disjoint (byte_range 3 tokens_c 0 0) (byte_range 3 tokens_c 4 0).
Proof.
  assert ((detect demo_hash demo_key 3 corpus_c "c.py"
             (buildFrames demo_hash demo_key 3 "c.py" tokens_c) ∅).1
          = [mkRaw "c.py" 0 "c.py" 4 0]) as Hrun by (vm_compute; reflexivity).
  split; [exact Hrun|].
  destruct (same_file_clone_ranges_disjoint demo_hash demo_key 3 corpus_c "c.py"
              (buildFrames demo_hash demo_key 3 "c.py" tokens_c) ∅
              (mkRaw "c.py" 0 "c.py" 4 0)) as [Htok Hbytes].
  - rewrite Hrun. apply list_elem_of_singleton. reflexivity.
  - reflexivity.
  - split; [exact Htok|]. split; [reflexivity|]. split; [reflexivity|].
    apply Hbytes; [reflexivity| |lia].
    split.
    + intros i t Hi. apply list_lookup_imap_Some in Hi as (v & _ & ->). cbn. lia.
    + intros i j t u Hij Hi Hj.
      apply list_lookup_imap_Some in Hi as (v & _ & ->).
      apply list_lookup_imap_Some in Hj as (w & _ & ->). cbn. lia.
Defined.

(** A run of one token repeated: every candidate overlaps itself and none is
    emitted. *)
Example overlapping_self_match_rejected :
  (detect demo_hash demo_key 2 (<["d.js" := demo_tokens ["x"; "x"; "x"; "x"]]> ∅) "d.js"
     (buildFrames demo_hash demo_key 2 "d.js" (demo_tokens ["x"; "x"; "x"; "x"])) ∅).1
  = [].
Proof. vm_compute. reflexivity. Qed.

(** The pipeline on two store partitions, one per format, one character per
    token: scenario 2 in JavaScript and a shifted copy in Python. *)
Definition demo_tokenize (src fmt : string) : option (list Token) :=
  Some (imap (λ i ch, mkToken "char" (String ch EmptyString) 1 (S i) i (S i))
             (list_ascii_of_string src)).

Definition demo_maskKey (m : mode) (ic : bool) (t : Token) : string := tk_value t.

Definition demo_config : Config := mkConfig 1 1000 3 None Mild false.

Definition demo_files : list SourceFile :=
  [mkSource "a.js" "javascript" "xyzwv" 1; mkSource "c.py" "python" "pqrst" 1;
   mkSource "b.js" "javascript" "xyzqr" 1; mkSource "d.py" "python" "upqrs" 1].

Definition by_format (f : SourceFile) : nat :=
  if String.eqb (format f) "javascript" then 0 else 1.

Definition demo_run (clock : nat → Z) (sched : list nat) : option (list Clone) :=
  run demo_hash demo_maskKey demo_tokenize demo_config by_format clock sched demo_files.

Definition clone_js (date : Z) : Clone :=
  mkClone "javascript" date
    (mkLocation "a.js" (mkPosition 1 1 0) (mkPosition 1 3 3) (0, 3) "xyz")
    (mkLocation "b.js" (mkPosition 1 1 0) (mkPosition 1 3 3) (0, 3) "xyz").

Definition clone_py (date : Z) : Clone :=
  mkClone "python" date
    (mkLocation "c.py" (mkPosition 1 1 0) (mkPosition 1 4 4) (0, 4) "pqrs")
    (mkLocation "d.py" (mkPosition 1 2 1) (mkPosition 1 5 5) (1, 5) "pqrs").

(** One worker after the other, and the two workers in turns under another
    clock: the clones come in another order and with other dates. *)
Definition one_by_one : list nat := replicate 19 0 ++ replicate 17 1.

Definition in_turns : list nat := concat (replicate 17 [1; 0]) ++ [0; 0].

Lemma two_schedules_witness :
  demo_run (λ n, Z.of_nat n) one_by_one = Some [clone_js 17; clone_py 34] ∧
  demo_run (λ n, 1000 + Z.of_nat n)%Z in_turns = Some [clone_py 1030; clone_js 1034] ∧
  map erase_foundDate [clone_js 17; clone_py 34] ≡ₚ
    map erase_foundDate [clone_py 1030; clone_js 1034].
Proof.
  assert (demo_run (λ n, Z.of_nat n) one_by_one = Some [clone_js 17; clone_py 34])
    as H1 by (vm_compute; reflexivity).
  assert (demo_run (λ n, 1000 + Z.of_nat n)%Z in_turns
          = Some [clone_py 1030; clone_js 1034])
    as H2 by (vm_compute; reflexivity).
  split; [exact H1|]. split; [exact H2|].
  exact (proj2 (runs_agree_modulo_foundDate demo_hash demo_maskKey demo_tokenize
                  demo_config by_format demo_files) _ _ _ _ _ _ H1 H2).
Defined.

(** A schedule that stops early, or wakes a worker that is idle, is no run. *)
Example unfinished_schedule_is_no_run :
  demo_run (λ _, 0%Z) (replicate 19 0) = None ∧
  demo_run (λ _, 0%Z) (replicate 20 0 ++ replicate 17 1) = None.
Proof. split; vm_compute; reflexivity. Qed.

End EngineScenario.

(** ** The AI reporter under the driver *)

Module Completion.

Section AIReporterUnderDriver.

Variable serializable :
  gmap AIReporter.loc AIReporter.object -> AIReporter.AIReport -> bool.
Variable stringify : gmap AIReporter.loc AIReporter.object -> AIReporter.AIReport -> string.
Variable generateMarkdownReport :
  gmap AIReporter.loc AIReporter.object -> AIReporter.AIReport -> string.
Variable dirname : string -> string.
Variable join : string -> string -> string.








End AIReporterUnderDriver.

End Completion.

(** ** Worked runs *)

Module Scenario.

Import AIReporter.

Local Open Scope nat_scope.

Definition demo_serializable (h : gmap loc object) (r : AIReport) : bool := true.
Definition demo_stringify (h : gmap loc object) (r : AIReport) : string := "json".
Definition demo_markdown (h : gmap loc object) (r : AIReport) : string := "markdown".
(** [path.dirname] and [path.join] on the relative paths of the runs below:
    what lies before the last [/], or [.]; and [join('.', b)] is [b]. *)
Fixpoint before_last_slash (p : string) : option string :=
  match p with
  | EmptyString => None
  | String ch rest =>
      match before_last_slash rest with
      | Some d => Some (String ch d)
      | None =>
          (* 47 is the code of [/] *)
          if Ascii.eqb ch (Ascii.ascii_of_nat 47) then Some EmptyString else None
      end
  end.

Definition demo_dirname (p : string) : string :=
  match before_last_slash p with
  | Some d => if String.eqb d "" then "/" else d
  | None => "."
  end.

Definition demo_join (a b : string) : string :=
  if String.eqb a "." then b else a +:+ "/" +:+ b.

(** The working directory exists and is empty; nothing fails. *)
Definition demo_fs : Node.FS := Node.mkFS ∅ {[ "." ]} [].

Definition demo_options (f : report_format) : AIReportOptions :=
  mkOptions (Some "out.json") f true true false 40%Z.

Definition demo_service : OllamaService := mkService "codellama:7b".

Definition demo_statistic : IStatistic :=
  mkStatistic (Some ["javascript"]) (Some (mkTotal 120%Z (25 # 2)%Q)).

(** A clone as the detector emits it: two location objects and the clone
    object that refers to them, at locations 0, 1 and 2. *)
Definition demo_side (file : string) : object :=
  {[ "sourceId" := VStr file; "fragment" := VStr "let x = 1;" ]}.

Definition demo_clone : object :=
  {[ "format" := VStr "javascript"; "duplicationA" := VRef 0; "duplicationB" := VRef 1 ]}.

Definition demo_detected : list event :=
  [EvAlloc (demo_side "a.js"); EvAlloc (demo_side "b.js"); EvAlloc demo_clone].

Definition demo_payload : IEventPayload := mkPayload (Some 2) None.

Definition demo_analysis : SemanticAnalysis := mkSemanticAnalysis 90%Z true "same body".

Definition demo_suggestion : RefactoringSuggestion :=
  mkRefactoringSuggestion "extract-function" "extract a helper" "identical statements".

(** The background work for the one clone. *)
Definition demo_background : list event :=
  [EvInit true;
   EvTask 0 InitReady;
   EvTask 0 (ReplySemantics (Some demo_analysis));
   EvTask 0 (ReplyRefactoring (Some demo_suggestion))].

Definition demo_start : world :=
  constructor (demo_options FJson) (Some demo_service) demo_fs.

Definition demo_collected : world :=
  default demo_start
    (run demo_serializable demo_stringify demo_markdown demo_dirname demo_join demo_detected demo_start).

Definition demo_enhanced : world :=
  default demo_start
    (run demo_serializable demo_stringify demo_markdown demo_dirname demo_join
         (EvEmit "CLONE_FOUND" demo_payload :: demo_background) demo_collected).

Lemma collectClone_frame_witness :
  run demo_serializable demo_stringify demo_markdown demo_dirname demo_join demo_detected demo_start
    = Some demo_collected ∧
  run demo_serializable demo_stringify demo_markdown demo_dirname demo_join
      (EvEmit "CLONE_FOUND" demo_payload :: demo_background) demo_collected
    = Some demo_enhanced ∧
  heap demo_enhanced !! 2 = heap demo_collected !! 2 ∧
  heap demo_enhanced !! 2 = Some demo_clone ∧
  prop "semanticAnalysis" (default ∅ (heap demo_enhanced !! 3)) = VSemantic demo_analysis ∧
  prop "aiProcessed" (default ∅ (heap demo_enhanced !! 3)) = VBool true.
Proof.
  assert (run demo_serializable demo_stringify demo_markdown demo_dirname demo_join demo_detected demo_start
          = Some demo_collected) as H1 by (vm_compute; reflexivity).
  assert (run demo_serializable demo_stringify demo_markdown demo_dirname demo_join
              (EvEmit "CLONE_FOUND" demo_payload :: demo_background) demo_collected
          = Some demo_enhanced) as H2 by (vm_compute; reflexivity).
  split; [exact H1|]. split; [exact H2|].
  split; [|split; [|split]]; [|vm_compute; reflexivity..].
  refine (proj1 (collectClone_leaves_payload_clone_unchanged
                   demo_serializable demo_stringify demo_markdown demo_dirname demo_join
                   (demo_options FJson) (Some demo_service) demo_fs
                   demo_detected demo_collected demo_payload 2 demo_background
                   demo_enhanced H1 eq_refl _ _ H2)).
  - exists demo_clone. vm_compute. reflexivity.
  - vm_compute. apply not_elem_of_nil.
Defined.









End Scenario.

(** ** Worked runs of the reporter, from its constructor *)

Module ReporterRuns.

Import AIReporter Scenario.

Local Open Scope nat_scope.

Definition demo_run (es : list event) (s : world) : option world :=
  run demo_serializable demo_stringify demo_markdown demo_dirname demo_join es s.

(** One clone is detected, delivered and analysed. *)
Definition analysed_events : list event :=
  demo_detected ++ EvEmit "CLONE_FOUND" demo_payload :: demo_background.

Definition analysed : world := default demo_start (demo_run analysed_events demo_start).

Lemma analysed_run : demo_run analysed_events demo_start = Some analysed.
Proof. vm_compute. reflexivity. Qed.

Lemma never_reject_witness :
  demo_run analysed_events demo_start = Some analysed ∧
  (∀ t, t ∈ aiProcessingPromises analysed → t_pc t ≠ Settled Rejected) ∧
  failedCount analysed = 0 ∧ high_failure_rate analysed = false.
Proof.
  split; [exact analysed_run|].
  exact (ai_tasks_never_reject demo_serializable demo_stringify demo_markdown demo_dirname demo_join
           (demo_options FJson) (Some demo_service) demo_fs
           analysed_events analysed analysed_run).
Defined.

Lemma deliveries_witness :
  omap delivered analysed_events = [2] ∧
  t_clone <$> aiProcessingPromises analysed = omap delivered analysed_events ∧
  t_enhanced <$> aiProcessingPromises analysed = clones analysed ∧
  NoDup (clones analysed) ∧
  ∀ st, totalClones (summary (generateReport st analysed)) =
        length (omap delivered analysed_events).
Proof.
  split; [vm_compute; reflexivity|].
  exact (collected_clones_follow_deliveries demo_serializable demo_stringify demo_markdown demo_dirname
           demo_join (demo_options FJson) (Some demo_service) demo_fs
           analysed_events analysed analysed_run).
Defined.

Lemma aiProcessed_witness :
  aiProcessingPromises analysed = [mkTask 2 3 (Settled Fulfilled)] ∧
  prop "aiProcessed" (object_at 3 analysed) = VBool true ∧
  aiAnalyzedClones (summary (generateReport demo_statistic analysed)) = 1.
Proof.
  assert (aiProcessingPromises analysed = [mkTask 2 3 (Settled Fulfilled)]) as Ht
    by (vm_compute; reflexivity).
  destruct (aiProcessed_marks_settled_tasks demo_serializable demo_stringify demo_markdown demo_dirname
              demo_join (demo_options FJson) (Some demo_service) demo_fs
              analysed_events analysed analysed_run) as [Hmark Hcount].
  split; [exact Ht|]. split.
  - destruct (Hmark 0 (mkTask 2 3 (Settled Fulfilled))) as [_ H];
      [by rewrite Ht|exact H].
  - rewrite Hcount. vm_compute. reflexivity.
Defined.

(** The same clone when the service could not be created. *)
Definition plain_start : world :=
  constructor (demo_options FJson) None demo_fs.

Definition plain_events : list event :=
  demo_detected ++ [EvEmit "CLONE_FOUND" demo_payload; EvTask 0 InitReady].

Definition plain : world := default plain_start (demo_run plain_events plain_start).

Lemma plain_run : demo_run plain_events plain_start = Some plain.
Proof. vm_compute. reflexivity. Qed.

Lemma ollama_unavailable_witness :
  demo_run [] plain_start = Some plain_start ∧
  demo_run plain_events plain_start = Some plain ∧
  aiProcessingPromises plain = [mkTask 2 3 (Settled Fulfilled)] ∧
  ollamaService plain = None ∧
  (∀ c, c ∈ clones plain → prop "aiProcessed" (object_at c plain) = VBool false) ∧
  aiAnalyzedClones (summary (generateReport demo_statistic plain)) = 0 ∧
  InstallOllama ∈ recommendations (generateReport demo_statistic plain).
Proof.
  split; [reflexivity|]. split; [exact plain_run|].
  split; [vm_compute; reflexivity|].
  destruct (ollama_unavailable_degrades demo_serializable demo_stringify demo_markdown demo_dirname
              demo_join (demo_options FJson) None demo_fs
              [] plain_events plain_start plain eq_refl eq_refl eq_refl plain_run)
    as (Hsvc & _ & Hmark & Hrep).
  destruct (Hrep demo_statistic) as (Hcount & _ & Hrec).
  split; [exact Hsvc|]. split; [exact Hmark|]. split; [exact Hcount|exact Hrec].
Defined.

(** The whole life of the reporter: detection, [report], the background work
    and the completion chain. *)
Definition completed_events : list event :=
  demo_detected ++
  [EvEmit "CLONE_FOUND" demo_payload; EvReport [2] (Some demo_statistic)] ++
  demo_background ++ [EvChainStart 0; EvChainResume 0].

Definition completed : world :=
  default demo_start (demo_run completed_events demo_start).

Lemma completed_run : demo_run completed_events demo_start = Some completed.
Proof. vm_compute. reflexivity. Qed.

Lemma completion_witness :
  demo_run completed_events demo_start = Some completed ∧
  chains completed = [ChainFulfilled] ∧
  ∀ k, chains completed !! k ≠ Some ChainRejected.
Proof.
  split; [exact completed_run|]. split; [vm_compute; reflexivity|].
  apply (completion_promise_never_rejects demo_serializable demo_stringify demo_markdown demo_dirname
           demo_join (demo_options FJson) (Some demo_service) demo_fs
           completed_events completed).
  - right. vm_compute. reflexivity.
  - exact completed_run.
Defined.

(** The reporter after [report], with the background work still to come. *)
Definition reported_events : list event :=
  demo_detected ++
  [EvEmit "CLONE_FOUND" demo_payload; EvReport [2] (Some demo_statistic)].

Definition reported : world := default demo_start (demo_run reported_events demo_start).

Lemma reported_run : demo_run reported_events demo_start = Some reported.
Proof. vm_compute. reflexivity. Qed.

Lemma progress_witness :
  demo_run reported_events demo_start = Some reported ∧
  waitForCompletion reported = PChain 0 ∧
  resolved reported (waitForCompletion reported) = false ∧
  ∃ es' s', forallb is_background es' = true ∧ demo_run es' reported = Some s' ∧
            resolved s' (waitForCompletion reported) = true.
Proof.
  split; [exact reported_run|]. split; [vm_compute; reflexivity|].
  split; [vm_compute; reflexivity|].
  apply (completion_promise_can_be_fulfilled demo_serializable demo_stringify demo_markdown demo_dirname
           demo_join (demo_options FJson) (Some demo_service) demo_fs
           reported_events reported).
  - right. vm_compute. reflexivity.
  - exact reported_run.
Defined.

(** A reporter configured for Markdown with a JSON output path. *)
Definition markdown_start : world :=
  constructor (mkOptions (Some "out/report.json") FMarkdown true true false 40%Z)
              (Some demo_service) demo_fs.

Lemma markdown_path_witness :
  format (options markdown_start) = FMarkdown ∧
  output_or_dot markdown_start = "out/report" +:+ ".json" ∧
  directory_output markdown_start = false ∧
  report_file markdown_start = "out/report.md".
Proof.
  split; [reflexivity|]. split; [reflexivity|].
  destruct (markdown_report_file markdown_start eq_refl) as [Hfile _].
  apply (Hfile "out/report"); [reflexivity|].
  intros p Hp. do 10 (destruct p as [|p]; [discriminate|]).
  cbn in Hp. lia.
Defined.

(** The same run without a service, up to the point where the chain waits
    for the one promise. *)
Definition plain_awaiting_events : list event :=
  demo_detected ++
  [EvEmit "CLONE_FOUND" demo_payload; EvReport [2] (Some demo_statistic);
   EvTask 0 InitReady; EvChainStart 0].

Definition plain_awaiting : world :=
  default plain_start (demo_run plain_awaiting_events plain_start).

Lemma plain_awaiting_run :
  demo_run plain_awaiting_events plain_start = Some plain_awaiting.
Proof. vm_compute. reflexivity. Qed.

Lemma guide_without_ai_witness :
  ollamaService plain_awaiting = None ∧
  prop "aiProcessed" (object_at 3 plain_awaiting) = VBool false ∧
  prompts plain_awaiting = [] ∧
  ∃ s' entry,
    step demo_serializable demo_stringify demo_markdown demo_dirname demo_join
         (EvChainResume 0) plain_awaiting = Some s' ∧
    chains s' !! 0 = Some ChainFulfilled ∧
    processedCount s' = processedCount plain_awaiting + 1 ∧
    prompts s' = prompts plain_awaiting ++ [entry].
Proof.
  split; [vm_compute; reflexivity|]. split; [vm_compute; reflexivity|].
  split; [vm_compute; reflexivity|].
  apply (refactoring_guide_needs_no_ai_result demo_serializable demo_stringify demo_markdown demo_dirname
           demo_join (demo_options FJson) None demo_fs
           plain_awaiting_events plain_awaiting 0 1 demo_statistic plain_awaiting_run);
    vm_compute; reflexivity.
Defined.

(** The run without a service to its end. *)
Definition plain_completed_events : list event :=
  plain_awaiting_events ++ [EvChainResume 0].

Definition plain_completed : world :=
  default plain_start (demo_run plain_completed_events plain_start).

(** C8. The refactoring guide without any AI result. No Ollama service could
    be created; one clone is collected, [report] is called with a statistic
    and the output ['out.json'], and the completion chain runs to its end.
    Then no clone is marked [aiProcessed], the final report is written and
    counts no AI-analysed clone, no task has failed, and yet [processedCount]
    is 1 and [finalize] has asked the prompt generator for the refactoring
    guide: [processedCount] counts the fulfilled task promises, and a task
    that skips the AI calls is fulfilled like any other. *)
Lemma guide_generated_without_ai_analysis :
  demo_run plain_completed_events plain_start = Some plain_completed ∧
  ollamaService plain_completed = None ∧
  length (clones plain_completed) = 1 ∧
  forallb (fun c => negb (truthy (prop "aiProcessed" (object_at c plain_completed))))
          (clones plain_completed) = true ∧
  aiAnalyzedClones (summary (generateReport demo_statistic plain_completed)) = 0 ∧
  failedCount plain_completed = 0 ∧
  processedCount plain_completed = 1 ∧
  resolved plain_completed (waitForCompletion plain_completed) = true ∧
  Node.files (fs plain_completed) !! "out.json" = Some "json" ∧
  map (fun entry => entry.1.1) (prompts plain_completed) = ["refactoring-guide.md"].
Proof. do 9 (split; [vm_compute; reflexivity|]). vm_compute. reflexivity. Qed.

(** The reporter with its one clone collected, about to report. *)
Definition collected_events : list event :=
  demo_detected ++ [EvEmit "CLONE_FOUND" demo_payload].

Definition collected : world :=
  default demo_start (demo_run collected_events demo_start).

Lemma initial_report_witness :
  ∃ s', report demo_serializable demo_stringify demo_markdown demo_dirname
               [2] (Some demo_statistic) collected = (Ok tt, s') ∧
        Node.files (fs s') !! "out.json" = Some "json" ∧
        completionPromise s' = PChain 0 ∧
        resolved s' (waitForCompletion s') = false.
Proof.
  destruct (report_writes_initial_report demo_serializable demo_stringify demo_markdown
              demo_dirname [2] demo_statistic collected)
    as (s' & Hrep & Hfile & _ & Hcp & Hres & _).
  - vm_compute. reflexivity.
  - discriminate.
  - split; [vm_compute; reflexivity|]. split; [discriminate|]. split.
    + refine (bool_decide_unpack _ _). vm_compute. exact I.
    + left. refine (bool_decide_unpack _ _). vm_compute. exact I.
  - intros _. reflexivity.
  - exists s'. split; [exact Hrep|]. split; [exact Hfile|].
    split; [exact Hcp|]. apply Hres. vm_compute. reflexivity.
Defined.

(** Without the directory the report file is to lie in, nothing is written:
    [writeFileSync] throws, [saveReportSync] logs and swallows the error, and
    [report] returns as if the report were there. *)
Definition nested_start : world :=
  constructor (mkOptions (Some "out/report.json") FJson true true false 40%Z)
              (Some demo_service) demo_fs.

Example report_without_parent_directory :
  (report demo_serializable demo_stringify demo_markdown demo_dirname
          [] (Some demo_statistic) nested_start).1 = Ok tt ∧
  Node.files (fs (report demo_serializable demo_stringify demo_markdown demo_dirname
                         [] (Some demo_statistic) nested_start).2) = ∅.
Proof. split; vm_compute; reflexivity. Qed.

End ReporterRuns.
